(** * simdcsv: the chunk scanner and the streaming pipeline

    A shallow embedding of [chunking.go] and of the streaming part of
    [simdcsv.go] (producer, Stage 1 dispatcher, Stage 2 workers, the
    reassembly loops of [ReadAll] and [nextblock], [Read]), followed by
    the properties established about them.

    Conventions.
    - Go's [int], [int64], [uint64] and [rune] values are integers in [Z];
      where the source relies on 64-bit wrap-around it is written out
      ([u64]).
    - A [[]byte] is a [list byte]; a Go [string] is a [string]; a
      [[][]string] is a [list (list string)].
    - A run-time panic (slice or index out of range, explicit [panic]) is
      the result [None] of an [option], or a dedicated constructor.
    - Channels are lists in the order of the sends. *)

From Stdlib Require Import ZArith List Bool Lia Sorted.
From Stdlib.Strings Require Import Byte Ascii.
From stdpp Require Import gmap strings list fin_maps pretty.

Open Scope Z_scope.

(** ** Go primitives used by the source *)

Module Go.

(** Conversion to [uint64]. *)
Definition u64 (z : Z) : Z := z mod 2 ^ 64.

(** [s[a:b]]; the length of the slice stands for its capacity. *)
Definition slice {A} (s : list A) (a b : Z) : option (list A) :=
  if (0 <=? a) && (a <=? b) && (b <=? Z.of_nat (length s))
  then Some (take (Z.to_nat (b - a)) (drop (Z.to_nat a) s))
  else None.

(** [s[i]]. *)
Definition index {A} (s : list A) (i : Z) : option A :=
  if 0 <=? i then s !! Z.to_nat i else None.

(** [s[i] = v]. *)
Definition store {A} (s : list A) (i : Z) (v : A) : option (list A) :=
  if (0 <=? i) && (i <? Z.of_nat (length s))
  then Some (<[Z.to_nat i := v]> s)
  else None.

Fixpoint tz_from (fuel : nat) (x i : Z) : Z :=
  match fuel with
  | O => i
  | S fuel' => if Z.testbit x i then i else tz_from fuel' x (i + 1)
  end.

(** [bits.TrailingZeros64]: 64 for the zero word. *)
Definition TrailingZeros64 (x : Z) : Z := tz_from 64 x 0.

Fixpoint lz_from (fuel : nat) (x n : Z) : Z :=
  match fuel with
  | O => n
  | S fuel' => if Z.testbit x (63 - n) then n else lz_from fuel' x (n + 1)
  end.

(** [bits.LeadingZeros64]: 64 for the zero word. *)
Definition LeadingZeros64 (x : Z) : Z := lz_from 64 x 0.

(** [unicode.MaxLatin1], [utf8.RuneError], [utf8.ValidRune]. *)
Definition MaxLatin1 : Z := 255.
Definition RuneError : Z := 65533.
Definition ValidRune (r : Z) : bool :=
  ((0 <=? r) && (r <? 55296)) || ((57343 <? r) && (r <=? 1114111)).

End Go.

(** The bytes the source compares against. *)
Definition quoteByte : byte := x22.
Definition commaByte : byte := x2c.
Definition newlineByte : byte := x0a.

(** ** chunking.go *)

Inductive chunkStatus := Unambigous | Ambigous.

Record chunkInput := { in_part : Z; in_chunk : list byte }.

Record chunkResult := {
  part : Z;
  widowSize : Z;
  orphanSize : Z;
  status : chunkStatus
}.

Definition PREFIX_SIZE : Z := 64 * 1024.

(** [o] is neither the quote, nor the comma, nor the newline byte. *)
Definition isOther (o : byte) : bool :=
  negb (Byte.eqb o quoteByte) && negb (Byte.eqb o commaByte)
  && negb (Byte.eqb o newlineByte).

(** The body of [for i, q := range input[:len(input)-1]], entered at
    index [i] with [qs] the elements still to visit. *)
Fixpoint detectQoPattern_range (input : list byte) (i : nat) (qs : list byte) : bool :=
  match qs with
  | [] => false
  | q :: qs' =>
      if Byte.eqb q quoteByte && isOther (nth (i + 1) input x00)
      then true
      else detectQoPattern_range input (S i) qs'
  end.

(** [input[:len(input)-1]] panics on the empty slice. *)
Definition detectQoPattern (input : list byte) : option bool :=
  match input with
  | [] => None
  | _ => Some (detectQoPattern_range input 0 (take (length input - 1) input))
  end.

(** The body of [for i, q := range input[1:]]. *)
Fixpoint detectOqPattern_range (input : list byte) (i : nat) (qs : list byte) : bool :=
  match qs with
  | [] => false
  | q :: qs' =>
      if Byte.eqb q quoteByte && isOther (nth i input x00)
      then true
      else detectOqPattern_range input (S i) qs'
  end.

(** [input[1:]] panics on the empty slice. *)
Definition detectOqPattern (input : list byte) : option bool :=
  match input with
  | [] => None
  | _ => Some (detectOqPattern_range input 0 (drop 1 input))
  end.

Definition determineAmbiguity (prefixChunk : list byte) : option bool :=
  hasQo ← detectQoPattern prefixChunk;
  hasOq ← detectOqPattern prefixChunk;
  Some (negb hasQo && negb hasOq).

(** [bytes.ContainsRune] for the quote byte. *)
Definition containsQuote (b : list byte) : bool :=
  existsb (fun c => Byte.eqb c quoteByte) b.

(** The forward loop counting the bytes before the first newline. *)
Fixpoint widowScan (chunk : list byte) : Z :=
  match chunk with
  | [] => 0
  | c :: rest => if Byte.eqb c newlineByte then 0 else 1 + widowScan rest
  end.

Definition deriveChunkResult (i : chunkInput) : option chunkResult :=
  let prefixSize :=
    if Z.of_nat (length (in_chunk i)) <? PREFIX_SIZE
    then Z.of_nat (length (in_chunk i)) else PREFIX_SIZE in
  let prefix := take (Z.to_nat prefixSize) (in_chunk i) in
  chunkStatus ←
    (if containsQuote prefix
     then (ambiguous ← determineAmbiguity prefix;
           Some (if ambiguous : bool then Ambigous else Unambigous))
     else Some Unambigous);
  let widowSize := widowScan (in_chunk i) in
  let orphanSize := widowScan (rev (in_chunk i)) in
  Some {| part := in_part i; widowSize := widowSize;
          orphanSize := orphanSize; status := chunkStatus |}.

(** The two patterns of the scanner, as properties of a byte string. *)
Definition hasQo (p : list byte) : Prop :=
  exists (i : nat) (o : byte),
    p !! i = Some quoteByte /\ p !! (i + 1)%nat = Some o /\
    o <> quoteByte /\ o <> commaByte /\ o <> newlineByte.

Definition hasOq (p : list byte) : Prop :=
  exists (i : nat) (o : byte),
    p !! i = Some o /\ p !! (i + 1)%nat = Some quoteByte /\
    o <> quoteByte /\ o <> commaByte /\ o <> newlineByte.

Definition hasQuote (p : list byte) : Prop := In quoteByte p.

(** The prefix that [deriveChunkResult] scans. *)
Definition scannedPrefix (chunk : list byte) : list byte :=
  take (Z.to_nat (Z.min (Z.of_nat (length chunk)) PREFIX_SIZE)) chunk.

(** Bytes of a literal. *)
Definition bytes (s : string) : list byte := String.list_byte_of_string s.

(** *** [ChunkBlob] and [chunkWorker] *)

(** How the goroutine that pushes the chunks ends: it closes [chunks], it
    panics on a slice out of range, or it is still in its loop when the
    fuel is used up. *)
Inductive pushEnd := PushClosed | PushPanic | PushRunning.

(** [for part, start := 0, uint64(0); ; start += chunkSize]: the chunks
    sent, in order, and how the loop ends.  [start], [end] and
    [chunkSize] are [uint64]. *)
Fixpoint ChunkBlob_push (fuel : nat) (blob : list byte) (chunkSize : Z)
    (part start : Z) : list chunkInput * pushEnd :=
  match fuel with
  | O => ([], PushRunning)
  | S fuel' =>
      let end_ := Go.u64 (start + chunkSize) in
      let end_ :=
        if end_ >? Z.of_nat (length blob)
        then Z.of_nat (length blob) else end_ in
      match Go.slice blob start end_ with
      | None => ([], PushPanic)
      | Some chunk =>
          let c := {| in_part := part; in_chunk := chunk |} in
          if end_ >=? Z.of_nat (length blob) then ([c], PushClosed)
          else
            let '(sent, e) :=
              ChunkBlob_push fuel' blob chunkSize (part + 1)
                             (Go.u64 (start + chunkSize)) in
            (c :: sent, e)
      end
  end.

(** Where a goroutine running [chunkWorker] stands. *)
Inductive chunkWorkerState :=
| CWRecv
    (* at [for in := range chunks] *)
| CWSend (res : chunkResult)
    (* at [results <- res] *)
| CWDone
    (* returned: [wg.Done()] *)
| CWPanic.

(** One communication of [chunkWorker] on the two channels, with the
    call of [deriveChunkResult] that follows a receive. *)
Definition chunkWorker (chunks : list chunkInput)
    (results : list chunkResult) (w : chunkWorkerState)
  : option (list chunkInput * list chunkResult * chunkWorkerState) :=
  match w with
  | CWRecv =>
      match chunks with
      | [] => Some ([], results, CWDone)
      | i :: rest =>
          Some (rest, results,
                match deriveChunkResult i with
                | Some res => CWSend res
                | None => CWPanic
                end)
      end
  | CWSend res => Some (chunks, results ++ [res], CWRecv)
  | CWDone | CWPanic => None
  end.

(** The channels of [ChunkBlob] and its workers, one per CPU; [chunks]
    starts with all that the pushing goroutine sends, [bs_results] is
    what the final loop has printed. *)
Record blobState := {
  bs_chunks : list chunkInput;
  bs_workers : list chunkWorkerState;
  bs_results : list chunkResult
}.

(** Worker [k] moves. *)
Definition ChunkBlob_step (k : nat) (s : blobState) : option blobState :=
  w ← bs_workers s !! k;
  '(chunks, results, w') ← chunkWorker (bs_chunks s) (bs_results s) w;
  Some {| bs_chunks := chunks; bs_workers := <[k := w']> (bs_workers s);
          bs_results := results |}.

Definition ChunkBlob_steps (s s' : blobState) : Prop :=
  rtc (fun s s' => exists k, ChunkBlob_step k s = Some s') s s'.

Definition ChunkBlob_start (numCPU : nat) (chunks : list chunkInput)
  : blobState :=
  {| bs_chunks := chunks; bs_workers := replicate numCPU CWRecv;
     bs_results := [] |}.

(** [wg.Wait()] returns and [results] is closed. *)
Definition ChunkBlob_closed (s : blobState) : Prop :=
  Forall (fun w => w = CWDone) (bs_workers s).

(** The runs of [ChunkBlob] that return, with the results in the order
    in which they are printed. *)
Inductive ChunkBlob (numCPU : nat) (blob : list byte) (chunkSize : Z)
  : list chunkResult -> Prop :=
| ChunkBlob_returns fuel chunks s :
    ChunkBlob_push fuel blob chunkSize 0 0 = (chunks, PushClosed) ->
    ChunkBlob_steps (ChunkBlob_start numCPU chunks) s ->
    ChunkBlob_closed s ->
    ChunkBlob numCPU blob chunkSize (bs_results s).

(** The results that the workers hold and have not sent yet. *)
Definition heldResults (ws : list chunkWorkerState) : list chunkResult :=
  omap (fun w => match w with CWSend res => Some res | _ => None end) ws.

(** What holds of every state that the workers of [ChunkBlob] can reach
    from the chunks [chunks0] with [n] workers. *)
Definition blobInv (chunks0 : list chunkInput) (n : nat) (s : blobState)
  : Prop :=
  length (bs_workers s) = n /\
  Forall (fun w => w <> CWPanic) (bs_workers s) /\
  (bs_chunks s = [] \/ Forall (fun w => w <> CWDone) (bs_workers s)) /\
  exists consumed rs,
    chunks0 = consumed ++ bs_chunks s /\
    Forall2 (fun i res => deriveChunkResult i = Some res) consumed rs /\
    bs_results s ++ heldResults (bs_workers s) ≡ₚ rs.


(** ** simdcsv.go: data *)

Inductive error :=
| io_EOF
| errInvalidDelim
| errorsNew (msg : string)
| csv_ParseError (Line : Z) (msg : string).

Definition is_EOF (e : error) : bool :=
  match e with io_EOF => true | _ => false end.

(** An [io.Reader], as the results of its successive [Read] calls: the
    bytes delivered and the error returned with them.  Once the list is
    used up every further [Read] returns no byte and [io.EOF]. *)
Definition source := list (list byte * option error).

(** [bytes.NewReader(b)]. *)
Definition bytes_NewReader (b : list byte) : source :=
  match b with [] => [] | _ => [(b, None)] end.

(** The exported fields of [Reader]; its input [r.r] is passed on its
    own, as a [source]. *)
Record Reader := {
  Comma : Z;
  Comment : Z;
  FieldsPerRecord : Z;
  LazyQuotes : bool;
  TrimLeadingSpace : bool;
  ReuseRecord : bool
}.

Record chunkInfo := {
  ci_sequence : Z;
  ci_chunk : option (list byte);
  ci_masks : list Z;
  ci_postProc : list Z;
  ci_header : Z;
  ci_trailer : Z;
  ci_splitRow : list byte
}.

Record recordsOutput := {
  ro_sequence : Z;
  ro_records : list (list string);
  ro_err : option error
}.

Record chunkIn := { buf : list byte; last : bool }.

Definition validDelim (r : Z) : bool :=
  negb (r =? 0) && negb (r =? 34) && negb (r =? 13) && negb (r =? 10)
  && Go.ValidRune r && negb (r =? Go.RuneError).

(** ** Code of the repository and of Go's library that [simdcsv.go] calls

    [stage1PreprocessBufferEx], [stage2ParseBufferExStreaming],
    [getPostProcRows] and [SupportedCPU] are defined in other files of the
    package; [csv_ReadAll] is [encoding/csv]'s [Reader.ReadAll] for a
    reader configured by [csvConfig]; the last two are [strings.ReplaceAll]
    and [strings.TrimLeftFunc] with [unicode.IsSpace].  The pipeline is
    parameterised by them. *)

(** What a call of [stage2ParseBufferExStreaming] leaves behind: the
    returned slabs and flag, and [outputStage2.line]. *)
Record stage2Result := {
  s2_rows : list Z;
  s2_columns : list string;
  s2_parsingError : bool;
  s2_line : Z
}.

Record csvConfig := {
  csv_Comma : Z;
  csv_Comment : Z;
  csv_FieldsPerRecord : Z;
  csv_LazyQuotes : bool;
  csv_TrimLeadingSpace : bool;
  csv_ReuseRecord : bool
}.

Record postProcRow := { ppr_start : Z; ppr_end : Z }.

Class Externals := {
  SupportedCPU : bool;
  (* buf, separatorChar, quoted; returns masks, postProc, quoted *)
  stage1PreprocessBufferEx : list byte -> Z -> Z -> list Z * list Z * Z;
  (* buf, masks, outputStage2.strData on entry *)
  stage2ParseBufferExStreaming : list byte -> list Z -> Z -> stage2Result;
  getPostProcRows :
    list byte -> list Z -> list (list string) -> list postProcRow;
  csv_ReadAll : csvConfig -> source -> list (list string) * option error;
  strings_ReplaceAll : string -> string -> string -> string;
  strings_TrimLeftSpace : string -> string
}.

(** ** The producer goroutine of [readAllStreaming] *)

Inductive producerResult :=
| Produced (bufchan : list chunkIn)
| ProducerPanic (bufchan : list chunkIn) (msg : string).

Definition sendFirst (c : chunkIn) (r : producerResult) : producerResult :=
  match r with
  | Produced l => Produced (c :: l)
  | ProducerPanic l msg => ProducerPanic (c :: l) msg
  end.

(** The [for] loop; [chunk] is the buffer read last and not yet sent. *)
Fixpoint producer_loop (chunk : list byte) (br : source) : producerResult :=
  match br with
  | [] => Produced [ {| buf := chunk; last := true |} ]
  | (chunkNext, err) :: br' =>
      match err with
      | Some e =>
          if is_EOF e then
            if 0 <? Z.of_nat (length chunkNext)
            then ProducerPanic [] "last buffer should be empty"
            else Produced [ {| buf := chunk; last := true |} ]
          else Produced [ {| buf := chunk; last := true |} ]
      | None =>
          sendFirst {| buf := chunk; last := false |}
                    (producer_loop chunkNext br')
      end
  end.

Definition producer (br : source) : producerResult :=
  match br with
  | [] => Produced []
  | (chunk, err) :: br' =>
      match err with
      | Some _ => Produced []
      | None => producer_loop chunk br'
      end
  end.

(** [chunkSize := 320000; chunkSize = (chunkSize + 63) &^ 63]. *)
Definition chunkSize : Z := Z.ldiff (320000 + 63) 63.

(** [masksSize := ((chunkSize >> 6) + 2) * 3]. *)
Definition masksSize : Z := (Z.shiftr chunkSize 6 + 2) * 3.

(** What the io.Reader contract asks of a source read with buffers of
    [chunkSize] bytes. *)
Definition source_ok (br : source) : Prop :=
  Forall (fun rd => Z.of_nat (length (fst rd)) <= chunkSize) br.

(** The precondition under which the producer is free of panics: end of
    input is signalled by a read that delivers no byte. *)
Definition eof_by_empty_read (br : source) : Prop :=
  Forall (fun rd => snd rd = Some io_EOF -> fst rd = []) br.

(** ** The three ways of [readAllStreaming] *)

Inductive streamPlan := PlanInvalidDelim | PlanFallback | PlanSimd.

Definition readAllStreaming_plan (r : Reader) : streamPlan :=
  if (Comma r =? Comment r) || negb (validDelim (Comma r))
     || (negb (Comment r =? 0) && negb (validDelim (Comment r)))
  then PlanInvalidDelim
  else if LazyQuotes r
          || (negb (Comma r =? 0) && (Comma r >? Go.MaxLatin1))
          || (negb (Comment r =? 0) && (Comment r >? Go.MaxLatin1))
  then PlanFallback
  else PlanSimd.

(** ** The reassembly loop of [ReadAll] *)

(** The inner [for] loop: append the blocks waiting in [hash]. *)
Fixpoint flushHash (fuel : nat) (records : list (list string))
    (hash : gmap Z (list (list string))) (sequence : Z)
  : list (list string) * gmap Z (list (list string)) * Z :=
  match fuel with
  | O => (records, hash, sequence)
  | S fuel' =>
      match hash !! sequence with
      | Some val =>
          flushHash fuel' (records ++ val) (delete sequence hash) (sequence + 1)
      | None => (records, hash, sequence)
      end
  end.

(** [for rcrds := range out]; every pass of the inner loop deletes a key,
    so [size hash] passes are all it can make. *)
Fixpoint ReadAll_loop (out : list recordsOutput) (records : list (list string))
    (hash : gmap Z (list (list string))) (sequence : Z)
  : list (list string) * option error :=
  match out with
  | [] => (records, None)
  | rcrds :: out' =>
      match ro_err rcrds with
      | Some e => ([], Some e)
      | None =>
          if ro_sequence rcrds >? sequence
          then ReadAll_loop out' records
                 (<[ro_sequence rcrds := ro_records rcrds]> hash) sequence
          else
            let '(records', hash', sequence') :=
              flushHash (size hash) (records ++ ro_records rcrds) hash
                        (sequence + 1) in
            ReadAll_loop out' records' hash' sequence'
      end
  end.

(** [ReadAll] from the point where [out] is known; a [nil] slice is the
    empty list. *)
Definition ReadAll_collect (out : list recordsOutput)
  : list (list string) * option error :=
  ReadAll_loop out [] ∅ 0.

(** ** [ensureFieldsPerRecord], [filterOutComments], [trimLeadingSpace] *)

(** [fmt.Sprintf] of the message of [ensureFieldsPerRecord]. *)
Definition wrongFieldsMsg (line : Z) : string :=
  "record on line " +:+ pretty line +:+ ": wrong number of fields".

(** [for i, record := range *records]. *)
Fixpoint checkFields (records : list (list string)) (i : Z) (fpr : Z)
  : option error :=
  match records with
  | [] => None
  | record :: rest =>
      if negb (Z.of_nat (length record) =? fpr)
      then Some (errorsNew (wrongFieldsMsg (i + 1)))
      else checkFields rest (i + 1) fpr
  end.

(** The call as a whole, run without interference: the records left in
    [*records], the value left in [*fieldsPerRecord], the result. *)
Definition ensureFieldsPerRecord (records : list (list string))
    (fieldsPerRecord : Z) : list (list string) * Z * option error :=
  let fieldsPerRecord :=
    if fieldsPerRecord =? 0 then
      match records with
      | first :: _ => Z.of_nat (length first)
      | [] => fieldsPerRecord
      end
    else fieldsPerRecord in
  let fpr := fieldsPerRecord in
  if fpr >? 0 then
    match checkFields records 0 fpr with
    | Some e => ([], fieldsPerRecord, Some e)
    | None => (records, fieldsPerRecord, None)
    end
  else (records, fieldsPerRecord, None).

(** [byte(r)] for a rune. *)
Definition byte_of_rune (r : Z) : byte :=
  default x00 (Byte.of_N (Z.to_N (r mod 256))).

(** [len(record) > 0 && len(record[0]) > 0 && record[0][0] == comment]. *)
Definition isCommentRecord (record : list string) (comment : byte) : bool :=
  match record with
  | String c _ :: _ => Byte.eqb (Ascii.byte_of_ascii c) comment
  | _ => false
  end.

(** [for i := len(records) - 1; i >= 0; i--], entered with [n = i + 1]. *)
Fixpoint filterOutComments_from (n : nat) (records : list (list string))
    (comment : byte) : list (list string) :=
  match n with
  | O => records
  | S i =>
      let records' :=
        match records !! i with
        | Some record =>
            if isCommentRecord record comment
            then take i records ++ drop (S i) records
            else records
        | None => records
        end in
      filterOutComments_from i records' comment
  end.

Definition filterOutComments (records : list (list string)) (comment : byte)
  : list (list string) :=
  filterOutComments_from (length records) records comment.

(** ** The pipeline behind [readAllStreaming] *)

Section Pipeline.

Context `{Externals}.
Variable r : Reader.

Definition trimLeadingSpace (records : list (list string))
  : list (list string) :=
  map (map strings_TrimLeftSpace) records.

(** The [fallback] closure. *)
Definition fallback (ioReader : source) : recordsOutput :=
  let '(rcds, err) :=
    csv_ReadAll {| csv_Comma := Comma r; csv_Comment := Comment r;
                   csv_FieldsPerRecord := FieldsPerRecord r;
                   csv_LazyQuotes := LazyQuotes r;
                   csv_TrimLeadingSpace := TrimLeadingSpace r;
                   csv_ReuseRecord := ReuseRecord r |} ioReader in
  {| ro_sequence := -1; ro_records := rcds; ro_err := err |}.

(** [encodingCsv]: a fresh [csv.Reader] with only [Comma] set. *)
Definition encodingCsv (csvData : list byte) (sep : Z)
  : list (list string) * option error :=
  csv_ReadAll {| csv_Comma := sep; csv_Comment := 0;
                 csv_FieldsPerRecord := 0; csv_LazyQuotes := false;
                 csv_TrimLeadingSpace := false;
                 csv_ReuseRecord := false |} (bytes_NewReader csvData).

(** *** [stage1Streaming] *)

(** The loop that sums the trailing zeros of the first word of each
    mask triple, from index [index] on. *)
Fixpoint headerScan (fuel : nat) (masksStream : list Z) (index : nat)
    (header : Z) : Z :=
  match fuel with
  | O => header
  | S fuel' =>
      match masksStream !! index with
      | None => header
      | Some m =>
          let hr := Go.TrailingZeros64 m in
          let header := header + hr in
          if hr <? 64 then header
          else headerScan fuel' masksStream (index + 3) header
      end
  end.

(** The loop that sums the leading zeros, from the last triple back;
    it runs while [index < len(masksStream)]. *)
Fixpoint trailerScan (fuel : nat) (masksStream : list Z) (index : nat)
    (trailer : Z) : Z :=
  match fuel with
  | O => trailer
  | S fuel' =>
      if (index <? length masksStream)%nat then
        match masksStream !! (length masksStream - index)%nat with
        | None => trailer
        | Some m =>
            let tr := Go.LeadingZeros64 m in
            let trailer := trailer + tr in
            if tr <? 64 then trailer
            else trailerScan fuel' masksStream (index + 3) trailer
        end
      else trailer
  end.

Definition computeHeader (sequence : Z) (masksStream : list Z)
    (chunk : chunkIn) : Z :=
  if sequence >? 0 then
    let header :=
      headerScan (S (length masksStream)) masksStream 0 0 in
    if header =? Z.of_nat (length masksStream) / 3 * 64
    then Z.of_nat (length (buf chunk))
    else header
  else 0.

Definition computeTrailer (header : Z) (masksStream : list Z)
    (chunk : chunkIn) : Z :=
  if negb (last chunk) && (header <? Z.of_nat (length (buf chunk)))
  then trailerScan (S (length masksStream)) masksStream 3 0
  else 0.

(** [for chunk := range bufchan], with the loop-carried variables. *)
Fixpoint stage1Streaming_loop (bufchan : list chunkIn) (sequence : Z)
    (quoted : Z) (splitRow : list byte) : option (list chunkInfo) :=
  match bufchan with
  | [] => Some []
  | chunk :: bufchan' =>
      let '(masksStream, postProcStream, quoted') :=
        stage1PreprocessBufferEx (buf chunk) (Go.u64 (Comma r)) quoted in
      let header := computeHeader sequence masksStream chunk in
      let trailer := computeTrailer header masksStream chunk in
      head ← Go.slice (buf chunk) 0 header;
      let splitRow := splitRow ++ head in
      let info :=
        if header <? Z.of_nat (length (buf chunk))
        then {| ci_sequence := sequence; ci_chunk := Some (buf chunk);
                ci_masks := masksStream; ci_postProc := postProcStream;
                ci_header := header; ci_trailer := trailer;
                ci_splitRow := splitRow |}
        else {| ci_sequence := sequence; ci_chunk := None;
                ci_masks := []; ci_postProc := [];
                ci_header := 0; ci_trailer := 0;
                ci_splitRow := splitRow |} in
      tail ← Go.slice (buf chunk)
               (Z.of_nat (length (buf chunk)) - trailer)
               (Z.of_nat (length (buf chunk)));
      infos ← stage1Streaming_loop bufchan' (sequence + 1) quoted' tail;
      Some (info :: infos)
  end.

Definition stage1Streaming (bufchan : list chunkIn)
  : option (list chunkInfo) :=
  stage1Streaming_loop bufchan 0 0 [].

(** *** [stage2Streaming]: the work on one chunk *)

(** [m &= ^uint64((1 << shift) - 1)]. *)
Definition clearBelow (m shift : Z) : Z :=
  Z.land m (Go.u64 (Z.lnot (Go.u64 (Z.shiftl 1 shift - 1)))).

(** [m <<= shiftTz; m >>= shiftTz]. *)
Definition clearAbove (m shiftTz : Z) : Z :=
  Z.shiftr (Go.u64 (Z.shiftl m shiftTz)) shiftTz.

(** [masks[i] = f(masks[i])]. *)
Definition updateAt (masks : list Z) (i : Z) (f : Z -> Z)
  : option (list Z) :=
  m ← Go.index masks i;
  Go.store masks i (f m).

(** The ten mask assignments that follow [chunkInfo.chunk != nil]. *)
Definition clipMasks (masks : list Z) (header trailer : Z)
  : option (list Z) :=
  let skip := Z.shiftr header 6 in
  let shift := Z.land header 63 in
  masks ← updateAt masks (skip * 3 + 0) (fun m => clearBelow m shift);
  masks ← updateAt masks (skip * 3 + 1) (fun m => clearBelow m shift);
  masks ← updateAt masks (skip * 3 + 2) (fun m => clearBelow m shift);
  let skipTz := Z.shiftr trailer 6 + 1 in
  let shiftTz := Z.land trailer 63 in
  let base := Z.of_nat (length masks) - skipTz * 3 in
  masks ← updateAt masks (base + 0) (fun m => Go.u64 (Z.shiftl m shiftTz));
  masks ← updateAt masks (base + 1) (fun m => Go.u64 (Z.shiftl m shiftTz));
  masks ← updateAt masks (base + 2) (fun m => Go.u64 (Z.shiftl m shiftTz));
  masks ← updateAt masks (base + 0) (fun m => Z.shiftr m shiftTz);
  masks ← updateAt masks (base + 1) (fun m => Z.shiftr m shiftTz);
  updateAt masks (base + 2) (fun m => Z.shiftr m shiftTz).

(** [chunk[skip*0x40 : len(chunk)-int(trailer)]]. *)
Definition payload (chunk : list byte) (header trailer : Z)
  : option (list byte) :=
  Go.slice chunk (Z.shiftr header 6 * 64)
           (Z.of_nat (length chunk) - trailer).

(** [for line := 0; line < outputStage2.line; line += 2]. *)
Fixpoint collectRows (fuel : nat) (rows : list Z) (columns : list string)
    (lines line : Z) (simdrecords : list (list string))
  : option (list (list string)) :=
  match fuel with
  | O => Some simdrecords
  | S fuel' =>
      if line <? lines then
        start ← Go.index rows line;
        count ← Go.index rows (line + 1);
        row ← Go.slice columns start (start + count);
        collectRows fuel' rows columns lines (line + 2)
                    (simdrecords ++ [row])
      else Some simdrecords
  end.

(** The two [strings.ReplaceAll] of the post-processing. *)
Definition postProcField (f : string) : string :=
  strings_ReplaceAll
    (strings_ReplaceAll f (String "034"%char (String "034"%char EmptyString))
                        (String "034"%char EmptyString))
    (String "013"%char (String "010"%char EmptyString))
    (String "010"%char EmptyString).

(** [for r := ppr.start + skip; r < ppr.end + skip; r++]. *)
Definition postProcRows (simdrecords : list (list string))
    (ppr : postProcRow) (skipRowsForPostProcessing : Z)
  : option (list (list string)) :=
  foldl (fun acc row =>
           recs ← acc;
           rec ← Go.index recs row;
           Go.store recs row (map postProcField rec))
        (Some simdrecords)
        (seqZ (ppr_start ppr + skipRowsForPostProcessing)
              (ppr_end ppr - ppr_start ppr)).

Definition postProcess (chunk : list byte) (postProc : list Z)
    (simdrecords : list (list string)) (skipRowsForPostProcessing : Z)
  : option (list (list string)) :=
  if 0 <? Z.of_nat (length postProc) then
    tail ← Go.slice simdrecords skipRowsForPostProcessing
             (Z.of_nat (length simdrecords));
    foldl (fun acc ppr =>
             recs ← acc;
             postProcRows recs ppr skipRowsForPostProcessing)
          (Some simdrecords)
          (getPostProcRows chunk postProc tail)
  else Some simdrecords.

(** How far a worker gets on a chunk before it touches the shared
    counter. *)
Inductive parsed :=
| ParsedEmit (o : recordsOutput)
    (* [out <- o; break] *)
| ParsedCheck (simdrecords : list (list string)) (payload : list byte)
    (* arrived at [ensureFieldsPerRecord] *)
| ParsedSkip (simdrecords : list (list string)).
    (* [chunkInfo.chunk == nil] *)

(** From the top of the loop body to [ensureFieldsPerRecord].  The
    capacity hints [simdlines], [rowsSize], [columnsSize] and the two
    reslicings [columns = columns[:index/2]], [rows = rows[:line]], which
    only feed these hints, have no part in what is sent and are left
    out. *)
Definition stage2_parse (ci : chunkInfo) : option parsed :=
  let '(records, err) :=
    if 0 <? Z.of_nat (length (ci_splitRow ci))
    then encodingCsv (ci_splitRow ci) (Comma r)
    else ([], None) in
  match err with
  | Some e =>
      Some (ParsedEmit
              {| ro_sequence := -1; ro_records := []; ro_err := Some e |})
  | None =>
      let simdrecords := records in
      let skipRowsForPostProcessing := Z.of_nat (length simdrecords) in
      match ci_chunk ci with
      | None => Some (ParsedSkip simdrecords)
      | Some chunk =>
          let strData := Z.land (ci_header ci) 63 in
          let skip := Z.shiftr (ci_header ci) 6 in
          masks ← clipMasks (ci_masks ci) (ci_header ci) (ci_trailer ci);
          input ← payload chunk (ci_header ci) (ci_trailer ci);
          masksTail ← Go.slice masks (skip * 3) (Z.of_nat (length masks));
          let res := stage2ParseBufferExStreaming input masksTail strData in
          if s2_parsingError res
          then Some (ParsedEmit (fallback (bytes_NewReader input)))
          else
            simdrecords ←
              collectRows (S (Z.to_nat (s2_line res))) (s2_rows res)
                          (s2_columns res) (s2_line res) 0 simdrecords;
            simdrecords ←
              postProcess chunk (ci_postProc ci) simdrecords
                          skipRowsForPostProcessing;
            Some (ParsedCheck simdrecords input)
      end
  end.

(** From after [ensureFieldsPerRecord] to the last send of the body. *)
Definition stage2_finish (ci : chunkInfo)
    (simdrecords : list (list string)) : recordsOutput :=
  let simdrecords :=
    if negb (Comment r =? 0)
    then filterOutComments simdrecords (byte_of_rune (Comment r))
    else simdrecords in
  let simdrecords :=
    if TrimLeadingSpace r then trimLeadingSpace simdrecords
    else simdrecords in
  {| ro_sequence := ci_sequence ci; ro_records := simdrecords;
     ro_err := None |}.

(** One pass of the loop body on its own: the value sent on [out],
    whether the loop goes on, and the counter left behind. *)
Definition stage2_body (ci : chunkInfo) (fieldsPerRecord : Z)
  : option (recordsOutput * bool * Z) :=
  p ← stage2_parse ci;
  match p with
  | ParsedEmit o => Some (o, false, fieldsPerRecord)
  | ParsedSkip simdrecords =>
      Some (stage2_finish ci simdrecords, true, fieldsPerRecord)
  | ParsedCheck simdrecords input =>
      let '(_, fieldsPerRecord', errSimd) :=
        ensureFieldsPerRecord simdrecords fieldsPerRecord in
      match errSimd with
      | Some _ =>
          Some (fallback (bytes_NewReader input), false, fieldsPerRecord')
      | None =>
          Some (stage2_finish ci simdrecords, true, fieldsPerRecord')
      end
  end.

End Pipeline.

(** ** The two Stage 2 workers and the channels between the goroutines

    A worker runs [stage2Streaming]; between two of its communications
    (a receive on [chunks], an atomic access to [fieldsPerRecord], a send
    on [out]) it works on data of its own, so one step of a worker is one
    communication together with the local work that follows it.  The
    producer and Stage 1 are sequential and only feed [chunks], which the
    workers read in order: [chunks] starts with all that Stage 1 sends. *)

Inductive worker :=
| WRecv
    (* at [for chunkInfo := range chunks] *)
| WLoad1 (ci : chunkInfo) (simdrecords : list (list string)) (input : list byte)
    (* at the first [atomic.LoadInt64] of [ensureFieldsPerRecord] *)
| WStore (ci : chunkInfo) (simdrecords : list (list string)) (input : list byte)
    (* at [atomic.StoreInt64] *)
| WLoad2 (ci : chunkInfo) (simdrecords : list (list string)) (input : list byte)
    (* at the second [atomic.LoadInt64] *)
| WSend (o : recordsOutput) (continue : bool)
    (* at [out <- o]; [continue = false] when a [break] follows *)
| WDone
    (* returned: [wg.Done()] *)
| WPanic.

(** What the goroutines share. *)
Record shared := {
  chunks : list chunkInfo;
  fieldsPerRecord : Z;
  out : list recordsOutput
}.

(** [const cores = 2]. *)
Record pipe := { sh : shared; worker1 : worker; worker2 : worker }.

Inductive workerId := W1 | W2.

Section Workers.

Context `{Externals}.
Variable r : Reader.

(** Where a worker stands once it has received [ci] and parsed it. *)
Definition afterRecv (ci : chunkInfo) : worker :=
  match stage2_parse r ci with
  | None => WPanic
  | Some (ParsedEmit o) => WSend o false
  | Some (ParsedSkip simdrecords) =>
      WSend (stage2_finish r ci simdrecords) true
  | Some (ParsedCheck simdrecords input) => WLoad1 ci simdrecords input
  end.

Definition workerStep (s : shared) (w : worker) : option (shared * worker) :=
  match w with
  | WRecv =>
      match chunks s with
      | [] => Some (s, WDone)
      | ci :: rest =>
          Some ({| chunks := rest; fieldsPerRecord := fieldsPerRecord s;
                   out := out s |}, afterRecv ci)
      end
  | WLoad1 ci simdrecords input =>
      if fieldsPerRecord s =? 0 then
        if 0 <? Z.of_nat (length simdrecords)
        then Some (s, WStore ci simdrecords input)
        else Some (s, WLoad2 ci simdrecords input)
      else Some (s, WLoad2 ci simdrecords input)
  | WStore ci simdrecords input =>
      Some ({| chunks := chunks s;
               fieldsPerRecord :=
                 match simdrecords with
                 | first :: _ => Z.of_nat (length first)
                 | [] => fieldsPerRecord s
                 end;
               out := out s |}, WLoad2 ci simdrecords input)
  | WLoad2 ci simdrecords input =>
      let fpr := fieldsPerRecord s in
      let errSimd :=
        if fpr >? 0 then checkFields simdrecords 0 fpr else None in
      match errSimd with
      | Some _ => Some (s, WSend (fallback r (bytes_NewReader input)) false)
      | None => Some (s, WSend (stage2_finish r ci simdrecords) true)
      end
  | WSend o continue =>
      Some ({| chunks := chunks s; fieldsPerRecord := fieldsPerRecord s;
               out := out s ++ [o] |},
            if continue then WRecv else WDone)
  | WDone | WPanic => None
  end.

Definition pipeStep (i : workerId) (p : pipe) : option pipe :=
  match i with
  | W1 =>
      '(s, w) ← workerStep (sh p) (worker1 p);
      Some {| sh := s; worker1 := w; worker2 := worker2 p |}
  | W2 =>
      '(s, w) ← workerStep (sh p) (worker2 p);
      Some {| sh := s; worker1 := worker1 p; worker2 := w |}
  end.

(** The pipeline under a schedule: which worker moves next. *)
Fixpoint run (schedule : list workerId) (p : pipe) : option pipe :=
  match schedule with
  | [] => Some p
  | i :: schedule' => p' ← pipeStep i p; run schedule' p'
  end.

Definition step (p p' : pipe) : Prop := exists i, pipeStep i p = Some p'.

(** [fieldsPerRecord := int64(r.FieldsPerRecord)] and the two [go]. *)
Definition start (infos : list chunkInfo) : pipe :=
  {| sh := {| chunks := infos; fieldsPerRecord := FieldsPerRecord r;
              out := [] |};
     worker1 := WRecv; worker2 := WRecv |}.

(** [wg.Wait()] returns and [out] is closed. *)
Definition closed (p : pipe) : Prop :=
  worker1 p = WDone /\ worker2 p = WDone.

Definition panicked (p : pipe) : Prop :=
  worker1 p = WPanic \/ worker2 p = WPanic.

(** *** [ReadAll] *)

Inductive outcome :=
| Returns (records : list (list string)) (err : option error)
| Crashes.

Definition returns (res : list (list string) * option error) : outcome :=
  Returns (fst res) (snd res).

Definition readerConfig : csvConfig :=
  {| csv_Comma := Comma r; csv_Comment := Comment r;
     csv_FieldsPerRecord := FieldsPerRecord r;
     csv_LazyQuotes := LazyQuotes r;
     csv_TrimLeadingSpace := TrimLeadingSpace r;
     csv_ReuseRecord := ReuseRecord r |}.

(** The runs of [ReadAll] on a reader that is not streaming yet and
    whose input is [src]. *)
Inductive ReadAll (src : source) : outcome -> Prop :=
| ReadAll_unsupported :
    SupportedCPU = false ->
    ReadAll src (returns (csv_ReadAll readerConfig src))
| ReadAll_invalidDelim :
    SupportedCPU = true ->
    readAllStreaming_plan r = PlanInvalidDelim ->
    ReadAll src (returns (ReadAll_collect
               [ {| ro_sequence := -1; ro_records := [];
                    ro_err := Some errInvalidDelim |} ]))
| ReadAll_fallback :
    SupportedCPU = true ->
    readAllStreaming_plan r = PlanFallback ->
    ReadAll src (returns (ReadAll_collect [ fallback r src ]))
| ReadAll_simd bufchan infos p :
    SupportedCPU = true ->
    readAllStreaming_plan r = PlanSimd ->
    producer src = Produced bufchan ->
    stage1Streaming r bufchan = Some infos ->
    rtc step (start infos) p ->
    closed p ->
    ReadAll src (returns (ReadAll_collect (out (sh p))))
| ReadAll_producerPanic bufchan msg :
    SupportedCPU = true ->
    readAllStreaming_plan r = PlanSimd ->
    producer src = ProducerPanic bufchan msg ->
    ReadAll src Crashes
| ReadAll_stage1Panic bufchan :
    SupportedCPU = true ->
    readAllStreaming_plan r = PlanSimd ->
    producer src = Produced bufchan ->
    stage1Streaming r bufchan = None ->
    ReadAll src Crashes
| ReadAll_workerPanic bufchan infos p :
    SupportedCPU = true ->
    readAllStreaming_plan r = PlanSimd ->
    producer src = Produced bufchan ->
    stage1Streaming r bufchan = Some infos ->
    rtc step (start infos) p ->
    panicked p ->
    ReadAll src Crashes.

End Workers.

(** ** [nextblock] *)

(** The fields of [Reader] that [Read] and [nextblock] work on. *)
Record readState := {
  records : list (list string);
  hash : gmap Z recordsOutput;
  currrecord : Z;
  sequence : Z;
  readchan : list recordsOutput
}.

(** The first [for] loop: [None] when the fuel runs out, [inl] for a
    [return], [inr] for the [break]. *)
Fixpoint nextblock_waiting (fuel : nat) (st : readState)
  : option (option error * readState + readState) :=
  match fuel with
  | O => None
  | S fuel' =>
      match hash st !! sequence st with
      | Some rcrds =>
          let st1 := {| records := records st; hash := hash st;
                        currrecord := currrecord st;
                        sequence := sequence st + 1;
                        readchan := readchan st |} in
          if Z.of_nat (length (ro_records rcrds)) =? 0
          then nextblock_waiting fuel' st1
          else
            match ro_err rcrds with
            | Some e =>
                Some (inl (Some e,
                           {| records := records st1; hash := hash st1;
                              currrecord := currrecord st1;
                              sequence := sequence st1;
                              readchan := [] |}))
            | None =>
                Some (inl (None,
                           {| records := ro_records rcrds; hash := hash st1;
                              currrecord := 0;
                              sequence := sequence st1;
                              readchan := readchan st1 |}))
            end
      | None => Some (inr st)
      end
  end.

(** The second loop, [for rcrds := range r.readchan], on what the
    channel still delivers. *)
Fixpoint nextblock_receive (chan : list recordsOutput) (st : readState)
  : option error * readState :=
  match chan with
  | [] =>
      (Some io_EOF,
       {| records := records st; hash := hash st;
          currrecord := currrecord st; sequence := sequence st;
          readchan := [] |})
  | rcrds :: chan' =>
      if ro_sequence rcrds >? sequence st then
        nextblock_receive chan'
          {| records := records st;
             hash := <[ro_sequence rcrds := rcrds]> (hash st);
             currrecord := currrecord st; sequence := sequence st;
             readchan := readchan st |}
      else if ro_sequence rcrds =? sequence st then
        let st1 := {| records := records st;
                      hash := delete (ro_sequence rcrds) (hash st);
                      currrecord := currrecord st;
                      sequence := sequence st + 1;
                      readchan := readchan st |} in
        match ro_err rcrds with
        | Some e =>
            (Some e,
             {| records := records st1; hash := hash st1;
                currrecord := currrecord st1; sequence := sequence st1;
                readchan := [] |})
        | None =>
            if Z.of_nat (length (ro_records rcrds)) =? 0
            then nextblock_receive chan' st1
            else
              (None,
               {| records := ro_records rcrds; hash := hash st1;
                  currrecord := 0; sequence := sequence st1;
                  readchan := chan' |})
        end
      else nextblock_receive chan' st
  end.

(** A key found by the first loop is never deleted there, but [sequence]
    moves past it: the loop makes at most [size hash] passes that go on. *)
Definition nextblock (st : readState) : option (option error * readState) :=
  res ← nextblock_waiting (S (size (hash st))) st;
  match res with
  | inl ret => Some ret
  | inr st' => Some (nextblock_receive (readchan st') st')
  end.

(** The blocks that successive calls of [nextblock] load into
    [r.records], each with the sequence number it was found under, until
    a call returns an error. *)
Fixpoint blocksRead (calls : nat) (st : readState)
  : list (Z * list (list string)) :=
  match calls with
  | O => []
  | S calls' =>
      match nextblock st with
      | Some (None, st') =>
          (sequence st' - 1, records st') :: blocksRead calls' st'
      | _ => []
      end
  end.

(** [Read]'s initial state on the channel [out]. *)
Definition readStart (out : list recordsOutput) : readState :=
  {| records := []; hash := ∅; currrecord := 0; sequence := 0;
     readchan := out |}.

(** ** [NewReader] and [Read] *)

(** [NewReader]: [Comma] is the comma, every other field has its zero
    value. *)
Definition NewReader : Reader :=
  {| Comma := 44; Comment := 0; FieldsPerRecord := 0;
     LazyQuotes := false; TrimLeadingSpace := false;
     ReuseRecord := false |}.

Section Streaming.

Context `{Externals}.
Variable r : Reader.

(** What the channel returned by [readAllStreaming] delivers until it is
    closed, for a reader that is not streaming and whose input is [src].
    On the first two ways [IsStreaming] is false again when the call
    returns; on the third the producer goroutine clears it when it
    returns, whatever the consumer is doing. *)
Inductive readAllStreaming (src : source) : list recordsOutput -> Prop :=
| readAllStreaming_invalidDelim :
    readAllStreaming_plan r = PlanInvalidDelim ->
    readAllStreaming src
      [ {| ro_sequence := -1; ro_records := [];
           ro_err := Some errInvalidDelim |} ]
| readAllStreaming_fallback :
    readAllStreaming_plan r = PlanFallback ->
    readAllStreaming src [ fallback r src ]
| readAllStreaming_simd bufchan infos p :
    readAllStreaming_plan r = PlanSimd ->
    producer src = Produced bufchan ->
    stage1Streaming r bufchan = Some infos ->
    rtc (step r) (start r infos) p ->
    closed p ->
    readAllStreaming src (out (sh p)).

End Streaming.

(** [Read] on a supported CPU (the other branch hands the call to
    [encoding/csv]).  [isStreaming] is the value of [r.IsStreaming] that
    the call finds and [fresh] what the channel of a new
    [readAllStreaming] delivers; the result is the record, the error and
    the fields of the reader after the call. *)
Definition Read (isStreaming : bool) (fresh : list recordsOutput)
    (st : readState) : option (list string * option error * readState) :=
  let st := if isStreaming then st else readStart fresh in
  '(err, st) ←
    (if currrecord st >=? Z.of_nat (length (records st))
     then nextblock st
     else Some (None, st));
  match err with
  | Some e => Some ([], Some e, st)
  | None =>
      ret ← Go.index (records st) (currrecord st);
      Some (ret, None,
            {| records := records st; hash := hash st;
               currrecord := currrecord st + 1;
               sequence := sequence st; readchan := readchan st |})
  end.

(** Calls of [Read] in a row that all find [IsStreaming] set, up to the
    first that returns an error: the records returned and that error. *)
Fixpoint ReadLoop (calls : nat) (st : readState)
  : option (list (list string) * option error) :=
  match calls with
  | O => Some ([], None)
  | S calls' =>
      '(ret, err, st') ← Read true [] st;
      match err with
      | Some e => Some ([], Some e)
      | None =>
          '(rest, err') ← ReadLoop calls' st';
          Some (ret :: rest, err')
      end
  end.

(** ** Stand-ins for the external code, for running the pipeline

    Simple implementations of [Externals], for a reader without
    [LazyQuotes], on input made of rows of comma-separated fields ended
    by a newline, where a quote only opens or ends a field: a quoted
    field may hold separators and newlines, and one that is still open
    where the data ends is an error.  Doubled quotes and carriage returns
    are outside what they cover.  They serve to run the pipeline on
    concrete inputs; no general property depends on them. *)

Module StandIn.

(** Cut [l] at every [sep] that lies outside the quoted regions: a quote
    opens or ends a region, and [quoted] tells whether [l] starts inside
    one; [cur] holds the current piece, reversed.  Returns the pieces and
    whether [l] ends inside a region. *)
Fixpoint splitOutside (sep : byte) (l : list byte) (quoted : bool)
    (cur : list byte) : list (list byte) * bool :=
  match l with
  | [] => ([rev cur], quoted)
  | c :: l' =>
      if Byte.eqb c quoteByte
      then splitOutside sep l' (negb quoted) (c :: cur)
      else if negb quoted && Byte.eqb c sep
      then let '(pieces, q) := splitOutside sep l' quoted [] in
           (rev cur :: pieces, q)
      else splitOutside sep l' quoted (c :: cur)
  end.

(** Strip one pair of enclosing quotes. *)
Definition unquote (f : list byte) : list byte :=
  match f with
  | q :: rest =>
      match rev rest with
      | q' :: inner =>
          if Byte.eqb q quoteByte && Byte.eqb q' quoteByte
          then rev inner else f
      | [] => f
      end
  | [] => f
  end.

Definition fieldsOf (sep : byte) (line : list byte) : list string :=
  map (fun f => String.string_of_list_byte (unquote f))
      (fst (splitOutside sep line false [])).

(** The text of [csv.ErrQuote]. *)
Definition errQuoteMsg : string :=
  "extraneous or missing " +:+ String "034"%char " in quoted-field".

(** The lines that a record spans. *)
Definition linesOf (record : list byte) : Z :=
  1 + Z.of_nat (length (List.filter (Byte.eqb newlineByte) record)).

(** The reference parser on the records of its input, cut at the
    newlines outside quotes: empty lines are skipped, a record of the
    wrong length is an error naming its line, and so is a last record
    whose quoted field is still open ([openEnd]). *)
Fixpoint csvLines (sep : byte) (lines : list (list byte)) (openEnd : bool)
    (lineNo : Z) (fpr : Z) (acc : list (list string))
  : list (list string) * option error :=
  match lines with
  | [] => (acc, None)
  | [] :: rest => csvLines sep rest openEnd (lineNo + 1) fpr acc
  | line :: rest =>
      if openEnd && bool_decide (rest = [])
      then ([], Some (csv_ParseError lineNo errQuoteMsg))
      else
        let record := fieldsOf sep line in
        let fpr := if fpr =? 0 then Z.of_nat (length record) else fpr in
        if (fpr >? 0) && negb (Z.of_nat (length record) =? fpr)
        then ([], Some (csv_ParseError lineNo "wrong number of fields"))
        else csvLines sep rest openEnd (lineNo + linesOf line) fpr
                      (acc ++ [record])
  end.

(** The first error other than [io.EOF] that reading [src] meets. *)
Fixpoint readError (src : source) : option error :=
  match src with
  | [] => None
  | (_, Some e) :: rest => if is_EOF e then None else Some e
  | (_, None) :: rest => readError rest
  end.

(** The bytes that reading [src] to its end delivers. *)
Fixpoint readBytes (src : source) : list byte :=
  match src with
  | [] => []
  | (b, Some _) :: _ => b
  | (b, None) :: rest => b ++ readBytes rest
  end.

Definition csvReadAll (cfg : csvConfig) (src : source)
  : list (list string) * option error :=
  match readError src with
  | Some e => ([], Some e)
  | None =>
      let '(lines, openEnd) :=
        splitOutside newlineByte (readBytes src) false [] in
      csvLines (byte_of_rune (csv_Comma cfg)) lines openEnd 1
               (csv_FieldsPerRecord cfg) []
  end.

(** The bytes of [data], each with whether it lies outside the quoted
    regions, and whether [data] ends inside one. *)
Fixpoint quoteContext (quoted : bool) (data : list byte)
  : list (byte * bool) * bool :=
  match data with
  | [] => ([], quoted)
  | c :: rest =>
      let '(marked, q) :=
        quoteContext (if Byte.eqb c quoteByte then negb quoted else quoted)
                     rest in
      ((c, negb quoted) :: marked, q)
  end.

(** The word with bit [i] set iff [P] holds of element [i] of [window]. *)
Fixpoint bitmask {A} (P : A -> bool) (window : list A) : Z :=
  match window with
  | [] => 0
  | c :: rest => (if P c then 1 else 0) + 2 * bitmask P rest
  end.

(** Three masks for every 64 bytes: the newlines and the separators
    outside quotes, and the quotes. *)
Fixpoint masksOf (fuel : nat) (sep : byte) (data : list (byte * bool))
  : list Z :=
  match fuel with
  | O => []
  | S fuel' =>
      match data with
      | [] => []
      | _ =>
          let window := take 64 data in
          bitmask (fun m => snd m && Byte.eqb (fst m) newlineByte) window
          :: bitmask (fun m => snd m && Byte.eqb (fst m) sep) window
          :: bitmask (fun m => Byte.eqb (fst m) quoteByte) window
          :: masksOf fuel' sep (drop 64 data)
      end
  end.

(** Modelled from the spec: [stage1PreprocessBufferEx] is not among the
    sources.  Three masks for each window of 64 bytes, with the
    separators and newlines inside quoted fields suppressed, and the
    quoted state carried from one chunk to the next; no mark for
    post-processing. *)
Definition stage1 (data : list byte) (separatorChar quoted : Z)
  : list Z * list Z * Z :=
  let '(marked, q) := quoteContext (negb (quoted =? 0)) data in
  (masksOf (length data) (byte_of_rune separatorChar) marked, [],
   if q then 1 else 0).

(** Rows as pairs (first column, number of columns) over one slab. *)
Fixpoint slabs (recs : list (list string)) (next : Z)
  : list Z * list string :=
  match recs with
  | [] => ([], [])
  | rec :: rest =>
      let '(rows, columns) := slabs rest (next + Z.of_nat (length rec)) in
      (next :: Z.of_nat (length rec) :: rows, rec ++ columns)
  end.

(** Modelled from the spec: [stage2ParseBufferExStreaming] is not among
    the sources.  The rows of the bytes from [strData] on, cut at the
    newlines and separators outside quotes, the quotes that wrap a field
    stripped; a parsing error when the payload ends inside a quoted
    region. *)
Definition stage2 (data : list byte) (masks : list Z) (strData : Z)
  : stage2Result :=
  let region := drop (Z.to_nat strData) data in
  let '(lines, openEnd) := splitOutside newlineByte region false [] in
  if openEnd then
    {| s2_rows := []; s2_columns := []; s2_parsingError := true;
       s2_line := 0 |}
  else
    let recs :=
      map (fieldsOf commaByte) (filter (fun l => l <> []) lines) in
    let '(rows, columns) := slabs recs 0 in
    {| s2_rows := rows; s2_columns := columns; s2_parsingError := false;
       s2_line := Z.of_nat (length rows) |}.

Fixpoint trimLeft (s : string) : string :=
  match s with
  | String " " s' => trimLeft s'
  | _ => s
  end.

#[export] Instance externals : Externals := {|
  SupportedCPU := true;
  stage1PreprocessBufferEx := stage1;
  stage2ParseBufferExStreaming := stage2;
  getPostProcRows := fun _ _ _ => [];
  csv_ReadAll := csvReadAll;
  strings_ReplaceAll := fun s _ _ => s;
  strings_TrimLeftSpace := trimLeft
|}.

(** A reader with the settings of [NewReader]. *)
Definition newReader (fieldsPerRecord : Z) : Reader :=
  {| Comma := 44; Comment := 0; FieldsPerRecord := fieldsPerRecord;
     LazyQuotes := false; TrimLeadingSpace := false;
     ReuseRecord := false |}.

Definition nl : list byte := [newlineByte].

End StandIn.

(** ** Vocabulary of the properties *)

(** The output that carries the records [recs] under the number [i]. *)
Definition numbered (i : nat) (recs : list (list string)) : recordsOutput :=
  {| ro_sequence := Z.of_nat i; ro_records := recs; ro_err := None |}.

(** What [ReadAll] holds once the outputs [arr] have arrived, before
    the waiting blocks are flushed. *)
Definition pending (blocks : list (list (list string)))
    (arr : list recordsOutput)
    (records : list (list string)) (hash : gmap Z (list (list string)))
    (sequence : Z) : Prop :=
  exists n : nat,
    sequence = Z.of_nat n /\
    records = concat (take n blocks) /\
    (forall s recs, hash !! s = Some recs <->
       Z.of_nat n <= s /\
       exists i, s = Z.of_nat i /\ blocks !! i = Some recs /\
                 numbered i recs ∈ arr) /\
    (forall i recs, (i < n)%nat -> blocks !! i = Some recs ->
       numbered i recs ∈ arr).

(** Where a block can come from: the channel or the reorder buffer. *)
Definition held (st : readState) (s : Z) (recs : list (list string)) : Prop :=
  exists o, ro_sequence o = s /\ ro_records o = recs /\
            (o ∈ readchan st \/ hash st !! s = Some o).

Definition keyed (st : readState) : Prop :=
  forall k o, hash st !! k = Some o -> ro_sequence o = k.

(** The bytes of chunk [c] that Stage 1 leaves out of the part handed to
    Stage 2, as recorded in the [chunkInfo] sent for it. *)
Definition headerBytes (info : chunkInfo) (c : chunkIn) : list byte :=
  match ci_chunk info with
  | Some _ => take (Z.to_nat (ci_header info)) (buf c)
  | None => buf c
  end.

Definition trailerBytes (info : chunkInfo) (c : chunkIn) : list byte :=
  match ci_chunk info with
  | Some _ =>
      drop (Z.to_nat (Z.of_nat (length (buf c)) - ci_trailer info)) (buf c)
  | None => []
  end.

(** Every split row is the trailer carried over followed by the header. *)
Fixpoint joined (carry : list byte) (bufchan : list chunkIn)
    (infos : list chunkInfo) : Prop :=
  match bufchan, infos with
  | [], [] => True
  | c :: bufchan', info :: infos' =>
      ci_splitRow info = carry ++ headerBytes info c /\
      joined (trailerBytes info c) bufchan' infos'
  | _, _ => False
  end.

Definition noError (rd : list byte * option error) : Prop := snd rd = None.

Definition noErr (o : recordsOutput) : Prop := ro_err o = None.

Section Vocabulary.

Context `{Externals}.
Variable r : Reader.

(** The records of the split row, parsed by the reference parser. *)
Definition splitRecords (ci : chunkInfo) : list (list string) :=
  if 0 <? Z.of_nat (length (ci_splitRow ci))
  then fst (encodingCsv (ci_splitRow ci) (Comma r))
  else [].

(** The split row, if any, is accepted by the reference parser. *)
Definition splitRowOk (ci : chunkInfo) : Prop :=
  0 < Z.of_nat (length (ci_splitRow ci)) ->
  snd (encodingCsv (ci_splitRow ci) (Comma r)) = None.

End Vocabulary.

Definition closedb (p : pipe) : bool :=
  match worker1 p, worker2 p with
  | WDone, WDone => true
  | _, _ => false
  end.

(** A run of [ReadAll] on the SIMD path under a schedule of the two
    workers, when the schedule leads to the closing of [out]. *)
Definition simdRun `{Externals} (r : Reader) (src : source)
    (schedule : list workerId) : option (list (list string) * option error) :=
  match producer src with
  | Produced bufchan =>
      infos ← stage1Streaming r bufchan;
      p ← run r schedule (start r infos);
      if closedb p then Some (ReadAll_collect (out (sh p))) else None
  | ProducerPanic _ _ => None
  end.

(** The states that one step of a worker leads to, those that [n] steps
    lead to, and those that fewer than [n] steps lead to. *)
Definition moves `{Externals} (r : Reader) (p : pipe) : list pipe :=
  omap (fun i => pipeStep r i p) [W1; W2].

Fixpoint after `{Externals} (r : Reader) (n : nat) (p : pipe) : list pipe :=
  match n with
  | O => [p]
  | S n' => p' ← moves r p; after r n' p'
  end.

Definition within `{Externals} (r : Reader) (n : nat) (p : pipe)
  : list pipe :=
  k ← seq 0 n; after r k p.

#[global] Instance error_eq_dec : EqDecision error.
Proof. solve_decision. Defined.

Definition panickedb (p : pipe) : bool :=
  match worker1 p, worker2 p with
  | WPanic, _ | _, WPanic => true
  | _, _ => false
  end.

(** No worker has panicked in [p], and if [out] is closed the loop of
    [ReadAll] returns [res] on it. *)
Definition endsWith (res : list (list string) * option error) (p : pipe)
  : bool :=
  negb (panickedb p)
  && (if closedb p then bool_decide (ReadAll_collect (out (sh p)) = res)
      else true).

(** ** Vocabulary of the further properties *)

(** What [Read] relies on between two calls of [nextblock], once the
    blocks below [k] have been loaded: [sequence] is [k], whatever
    waits in [hash] or is still to come on the channel is a numbered block,
    and every block from [k] on is in one of the two. *)
Definition blocksWaiting (blocks : list (list (list string))) (k : nat)
    (chan : list recordsOutput) (st : readState) : Prop :=
  sequence st = Z.of_nat k /\
  (forall s o, hash st !! s = Some o ->
     exists (i : nat) recs,
       blocks !! i = Some recs /\ s = Z.of_nat i /\ o = numbered i recs) /\
  (forall o, o ∈ chan ->
     exists (i : nat) recs, blocks !! i = Some recs /\ o = numbered i recs) /\
  (forall (i : nat) recs,
     blocks !! i = Some recs -> (k <= i)%nat ->
     numbered i recs ∈ chan \/ hash st !! Z.of_nat i = Some (numbered i recs)).

Section CleanRuns.

Context `{Externals}.
Variable r : Reader.

(** The chunk goes through a worker without a fallback: the split row
    and the Stage 2 parse succeed, and the records pass the field-count
    check of a reader whose [FieldsPerRecord] is not 0. *)
Definition parsesCleanly (ci : chunkInfo) : Prop :=
  match stage2_parse r ci with
  | Some (ParsedSkip _) => True
  | Some (ParsedCheck simdrecords _) =>
      FieldsPerRecord r < 0 \/
      Forall (fun rec => Z.of_nat (length rec) = FieldsPerRecord r)
             simdrecords
  | _ => False
  end.

(** The output that a worker sends for such a chunk. *)
Definition chunkOutput (ci : chunkInfo) : recordsOutput :=
  match stage2_parse r ci with
  | Some (ParsedSkip simdrecords) | Some (ParsedCheck simdrecords _) =>
      stage2_finish r ci simdrecords
  | _ => {| ro_sequence := ci_sequence ci; ro_records := [];
            ro_err := None |}
  end.

(** The output that a worker in the middle of a chunk will send. *)
Definition workerOutputs (w : worker) : list recordsOutput :=
  match w with
  | WLoad1 ci _ _ | WStore ci _ _ | WLoad2 ci _ _ => [chunkOutput ci]
  | WSend o _ => [o]
  | WRecv | WDone | WPanic => []
  end.

(** Where a worker can stand while no chunk has fallen back. *)
Definition workerClean (w : worker) : Prop :=
  match w with
  | WRecv | WDone => True
  | WLoad1 ci simdrecords input | WLoad2 ci simdrecords input =>
      stage2_parse r ci = Some (ParsedCheck simdrecords input) /\
      parsesCleanly ci
  | WSend _ continue => continue = true
  | WStore _ _ _ | WPanic => False
  end.

(** What holds of the pipeline while no chunk has fallen back. *)
Definition cleanRun (infos : list chunkInfo) (p : pipe) : Prop :=
  fieldsPerRecord (sh p) = FieldsPerRecord r /\
  workerClean (worker1 p) /\ workerClean (worker2 p) /\
  (worker1 p = WDone \/ worker2 p = WDone -> chunks (sh p) = []) /\
  exists consumed,
    infos = consumed ++ chunks (sh p) /\
    out (sh p) ++ workerOutputs (worker1 p) ++ workerOutputs (worker2 p)
    ≡ₚ chunkOutput <$> consumed.

End CleanRuns.

(** The outputs sent with the sequence number -1, and whether a worker
    has returned. *)
Definition gaveUp (out : list recordsOutput) : nat :=
  length (List.filter (fun o => ro_sequence o =? -1) out).

Definition returned (w : worker) : nat :=
  match w with WDone => 1 | _ => 0 end.

(** The chunk that a worker has received and not answered yet. *)
Definition inHand (w : worker) : nat :=
  match w with
  | WLoad1 _ _ _ | WStore _ _ _ | WLoad2 _ _ _ | WSend _ _ => 1
  | WRecv | WDone | WPanic => 0
  end.

(** A worker about to send under -1 is about to return, and a worker
    that goes on sends under the number of its chunk. *)
Definition workerNumbered (w : worker) : Prop :=
  match w with
  | WLoad1 ci _ _ | WStore ci _ _ | WLoad2 ci _ _ => 0 <= ci_sequence ci
  | WSend o continue =>
      if continue then 0 <= ro_sequence o else ro_sequence o = -1
  | WRecv | WDone => True
  | WPanic => False
  end.

(** What holds of the pipeline while no worker has panicked. *)
Definition accounted (infos : list chunkInfo) (p : pipe) : Prop :=
  Forall (fun ci => 0 <= ci_sequence ci) (chunks (sh p)) /\
  workerNumbered (worker1 p) /\ workerNumbered (worker2 p) /\
  (length (out (sh p)) + inHand (worker1 p) + inHand (worker2 p)
   + length (chunks (sh p)) = length infos)%nat /\
  (gaveUp (out (sh p)) <= returned (worker1 p) + returned (worker2 p))%nat /\
  (chunks (sh p) <> [] ->
   gaveUp (out (sh p)) = returned (worker1 p) + returned (worker2 p))%nat.

(** The row delimiters as [stage1Streaming] reads them off the masks:
    bit [q mod 64] of the first word of triple [q / 64] stands for byte
    [q] of the chunk. *)
Definition delimiterBit (masksStream : list Z) (q : Z) : Prop :=
  0 <= q /\
  exists m, masksStream !! Z.to_nat (3 * (q / 64)) = Some m /\
            Z.testbit m (q mod 64) = true.

(** ** Inputs on which the pipeline is run *)

Module Scenario.

(** A first read of one row, a second read of two rows, the second of
    them with a quoted field. *)
Definition quotedChunk : list byte :=
  bytes "c,d" ++ StandIn.nl ++ [quoteByte] ++ bytes "x" ++ [quoteByte]
  ++ bytes ",y" ++ StandIn.nl.

Definition quotedSource : source :=
  [(bytes "a,b" ++ StandIn.nl, None); (quotedChunk, None)].

(** What Stage 1 sends for the second read of [quotedSource]. *)
Definition quotedInfo : chunkInfo :=
  {| ci_sequence := 1; ci_chunk := Some quotedChunk;
     ci_masks := [520; 130; 80]; ci_postProc := [];
     ci_header := 3; ci_trailer := 0; ci_splitRow := bytes "c,d" |}.

Definition quotedBufchan : list chunkIn :=
  [ {| buf := bytes "a,b" ++ StandIn.nl; last := false |};
    {| buf := quotedChunk; last := true |} ].

Definition firstInfo : chunkInfo :=
  {| ci_sequence := 0; ci_chunk := Some (bytes "a,b" ++ StandIn.nl);
     ci_masks := [8; 2; 0]; ci_postProc := [];
     ci_header := 0; ci_trailer := 0; ci_splitRow := [] |}.

(** A first read of one row and a last read of two rows, the second of
    them opening a quoted field that nothing ends. *)
Definition openQuoteChunk : list byte :=
  bytes "c,d" ++ StandIn.nl ++ [quoteByte] ++ bytes "x,y" ++ StandIn.nl.

Definition openQuoteSource : source :=
  [(bytes "a,b" ++ StandIn.nl, None); (openQuoteChunk, None)].

Definition openQuoteBufchan : list chunkIn :=
  [ {| buf := bytes "a,b" ++ StandIn.nl; last := false |};
    {| buf := openQuoteChunk; last := true |} ].

(** What Stage 1 sends for the second read of [openQuoteSource]. *)
Definition openQuoteInfo : chunkInfo :=
  {| ci_sequence := 1; ci_chunk := Some openQuoteChunk;
     ci_masks := [8; 2; 16]; ci_postProc := [];
     ci_header := 3; ci_trailer := 0; ci_splitRow := bytes "c,d" |}.

(** Three reads of one row each, the first two of two fields. *)
Definition twoFieldBufchan : list chunkIn :=
  [ {| buf := bytes "1,2" ++ StandIn.nl; last := false |};
    {| buf := bytes "3,4" ++ StandIn.nl; last := false |};
    {| buf := bytes "e,f,g" ++ StandIn.nl; last := true |} ].

(** Rows of three fields in the first read, of two in the second. *)
Definition unevenSource : source :=
  [(bytes "aa,bb,c" ++ StandIn.nl, None); (bytes "1,2" ++ StandIn.nl, None)].

(** Two reads of a row of three fields, then a read of a row of two. *)
Definition threeChunkSource : source :=
  [(bytes "aa,bb,c" ++ StandIn.nl, None);
   (bytes "dd,ee,f" ++ StandIn.nl, None);
   (bytes "1,2" ++ StandIn.nl, None)].

(** A chunk of 128 bytes that is not the last: one row, then 124 bytes
    without a newline, with a comma at byte 65. *)
Definition longTrailerChunk : list byte :=
  bytes "a,b" ++ StandIn.nl ++ repeat "x"%byte 60 ++ bytes "y,z"
  ++ repeat "x"%byte 61.

Definition longTrailerInfo : chunkInfo :=
  {| ci_sequence := 0; ci_chunk := Some longTrailerChunk;
     ci_masks := [8; 2; 0; 0; 2; 0]; ci_postProc := [];
     ci_header := 0; ci_trailer := 64; ci_splitRow := [] |}.



Definition shortRowSource1 : source :=
  [(bytes "a,b,c" ++ StandIn.nl ++ bytes "1,2" ++ StandIn.nl, None)].

(** Reads that fail with an error other than [io.EOF]. *)
Definition failingSource : source :=
  [([], Some (errorsNew "read failed"))].

Definition failingSource2 : source :=
  [(bytes "a,b" ++ StandIn.nl, None); ([], Some (errorsNew "read failed"))].

(** A second read that delivers its byte together with [io.EOF]. *)
Definition dataWithEOF : source :=
  [(bytes "a", None); (bytes "b", Some io_EOF)].

(** A delimiter outside ASCII but inside Latin-1, and one above. *)
Definition latin1Reader : Reader :=
  {| Comma := 233; Comment := 0; FieldsPerRecord := 0;
     LazyQuotes := false; TrimLeadingSpace := false;
     ReuseRecord := false |}.

Definition euroReader : Reader :=
  {| Comma := 8364; Comment := 0; FieldsPerRecord := 0;
     LazyQuotes := false; TrimLeadingSpace := false;
     ReuseRecord := false |}.

End Scenario.

(* ===================================================================== *)
(** * Properties *)

(** ** chunking.go *)

Lemma byte_eqb_eq (a b : byte) : Byte.eqb a b = true <-> a = b.
Proof. split; [apply byte_dec_bl | apply byte_dec_lb]. Qed.

Lemma isOther_spec o :
  isOther o = true <-> o <> quoteByte /\ o <> commaByte /\ o <> newlineByte.
Proof.
  unfold isOther. rewrite !andb_true_iff, !negb_true_iff.
  assert (forall b, Byte.eqb o b = false <-> o <> b) as E.
  { intros b. rewrite <- byte_eqb_eq. destruct (Byte.eqb o b); split; congruence. }
  rewrite !E. tauto.
Qed.

Lemma detectQoPattern_range_spec input qs i :
  detectQoPattern_range input i qs = true <->
  exists k : nat, qs !! k = Some quoteByte /\
                  isOther (nth (i + k + 1) input x00) = true.
Proof.
  revert i. induction qs as [|q qs IH]; intros i; simpl.
  - split; [done | intros (k & Hk & _); by rewrite lookup_nil in Hk].
  - destruct (Byte.eqb q quoteByte && isOther (nth (i + 1) input x00)) eqn:E.
    + split; [intros _ | done]. apply andb_true_iff in E as [E1 E2].
      exists 0%nat. apply byte_eqb_eq in E1. subst q.
      by rewrite Nat.add_0_r.
    + rewrite IH. split.
      * intros (k & Hk & Ho). exists (S k). split; [done |].
        by replace (i + S k + 1)%nat with (S i + k + 1)%nat by lia.
      * intros ([|k] & Hk & Ho).
        -- simpl in Hk. injection Hk as ->. rewrite Nat.add_0_r in Ho.
           rewrite Ho in E. by rewrite (byte_dec_lb eq_refl) in E.
        -- exists k. split; [done |].
           by replace (S i + k + 1)%nat with (i + S k + 1)%nat by lia.
Qed.

Lemma detectOqPattern_range_spec input qs i :
  detectOqPattern_range input i qs = true <->
  exists k : nat, qs !! k = Some quoteByte /\
                  isOther (nth (i + k) input x00) = true.
Proof.
  revert i. induction qs as [|q qs IH]; intros i; simpl.
  - split; [done | intros (k & Hk & _); by rewrite lookup_nil in Hk].
  - destruct (Byte.eqb q quoteByte && isOther (nth i input x00)) eqn:E.
    + split; [intros _ | done]. apply andb_true_iff in E as [E1 E2].
      exists 0%nat. apply byte_eqb_eq in E1. subst q.
      by rewrite Nat.add_0_r.
    + rewrite IH. split.
      * intros (k & Hk & Ho). exists (S k). split; [done |].
        by replace (i + S k)%nat with (S i + k)%nat by lia.
      * intros ([|k] & Hk & Ho).
        -- simpl in Hk. injection Hk as ->. rewrite Nat.add_0_r in Ho.
           rewrite Ho in E. by rewrite (byte_dec_lb eq_refl) in E.
        -- exists k. split; [done |].
           by replace (S i + k)%nat with (i + S k)%nat by lia.
Qed.

Lemma nth_lookup_byte (l : list byte) (i : nat) (o : byte) :
  l !! i = Some o -> nth i l x00 = o.
Proof. intros H. by apply nth_lookup_Some with (d := x00) in H. Qed.

(** [detectQoPattern] finds exactly the quote-then-other pattern. *)
Lemma detectQoPattern_hasQo (p : list byte) :
  p <> [] ->
  exists b, detectQoPattern p = Some b /\ (b = true <-> hasQo p).
Proof.
  intros Hne. destruct p as [|c p']; [done |].
  eexists; split; [reflexivity |].
  set (p := c :: p'). rewrite detectQoPattern_range_spec.
  unfold hasQo. split.
  - intros (k & Hk & Ho). apply lookup_take_Some in Hk as [Hk Hlt].
    destruct (p !! (k + 1)%nat) as [o|] eqn:Ho'.
    + exists k, o. split; [done |]. split; [done |].
      apply nth_lookup_byte in Ho'. change (0 + k + 1)%nat with (k + 1)%nat in Ho. rewrite Ho' in Ho.
      by apply isOther_spec.
    + apply lookup_ge_None in Ho'. lia.
  - intros (i & o & Hq & Ho & Hoth). exists i. split.
    + apply lookup_take_Some. split; [done |].
      apply lookup_lt_Some in Ho. lia.
    + change (0 + i + 1)%nat with (i + 1)%nat. rewrite (nth_lookup_byte _ _ _ Ho). by apply isOther_spec.
Qed.

(** [detectOqPattern] finds exactly the other-then-quote pattern. *)
Lemma detectOqPattern_hasOq (p : list byte) :
  p <> [] ->
  exists b, detectOqPattern p = Some b /\ (b = true <-> hasOq p).
Proof.
  intros Hne. destruct p as [|c p']; [done |].
  eexists; split; [reflexivity |].
  set (p := c :: p'). rewrite detectOqPattern_range_spec.
  unfold hasOq. split.
  - intros (k & Hk & Ho). rewrite lookup_drop in Hk.
    destruct (p !! k) as [o|] eqn:Ho'.
    + exists k, o. split; [done |].
      split; [by replace (k + 1)%nat with (1 + k)%nat by lia |].
      apply nth_lookup_byte in Ho'. change (0 + k)%nat with k in Ho. rewrite Ho' in Ho.
      by apply isOther_spec.
    + apply lookup_ge_None in Ho'. apply lookup_lt_Some in Hk. lia.
  - intros (i & o & Ho & Hq & Hoth). exists i. split.
    + rewrite lookup_drop. by replace (1 + i)%nat with (i + 1)%nat by lia.
    + change (0 + i)%nat with i. rewrite (nth_lookup_byte _ _ _ Ho). by apply isOther_spec.
Qed.

Lemma determineAmbiguity_spec (p : list byte) :
  p <> [] ->
  exists b, determineAmbiguity p = Some b /\
            (b = true <-> ~ hasQo p /\ ~ hasOq p).
Proof.
  intros Hne.
  destruct (detectQoPattern_hasQo p Hne) as (q & Hq & Hqs).
  destruct (detectOqPattern_hasOq p Hne) as (o & Ho & Hos).
  exists (negb q && negb o). unfold determineAmbiguity.
  rewrite Hq, Ho. split; [done |].
  rewrite andb_true_iff, !negb_true_iff.
  destruct q, o; intuition congruence.
Qed.

Lemma determineAmbiguity_empty : determineAmbiguity [] = None.
Proof. reflexivity. Qed.

Lemma containsQuote_spec (p : list byte) :
  containsQuote p = true <-> hasQuote p.
Proof.
  unfold containsQuote, hasQuote. rewrite existsb_exists. split.
  - intros (x & Hx & E). apply byte_eqb_eq in E. by subst.
  - intros H. exists quoteByte. split; [done | by apply byte_eqb_eq].
Qed.

Lemma scannedPrefix_eq (chunk : list byte) :
  scannedPrefix chunk =
  take (Z.to_nat (if Z.of_nat (length chunk) <? PREFIX_SIZE
                  then Z.of_nat (length chunk) else PREFIX_SIZE)) chunk.
Proof.
  unfold scannedPrefix. f_equal. f_equal.
  destruct (Z.ltb_spec (Z.of_nat (length chunk)) PREFIX_SIZE); lia.
Qed.

(** The status computed by [deriveChunkResult]: the guard on the quote
    byte comes first, the two patterns are consulted only behind it. *)
Lemma deriveChunkResult_status (i : chunkInput) :
  exists r, deriveChunkResult i = Some r /\
    (status r = Ambigous <->
       hasQuote (scannedPrefix (in_chunk i)) /\
       ~ hasQo (scannedPrefix (in_chunk i)) /\
       ~ hasOq (scannedPrefix (in_chunk i))).
Proof.
  unfold deriveChunkResult. rewrite <- scannedPrefix_eq.
  set (p := scannedPrefix (in_chunk i)).
  destruct (containsQuote p) eqn:Hc.
  - assert (p <> []) as Hne.
    { intros E. rewrite E in Hc. discriminate. }
    destruct (determineAmbiguity_spec p Hne) as (b & Hb & Hbs).
    rewrite Hb. simpl. eexists; split; [reflexivity |]. simpl.
    apply containsQuote_spec in Hc.
    destruct b; split; try tauto; try done.
    intros (_ & H). apply Hbs in H. done.
  - simpl. eexists; split; [reflexivity |]. simpl.
    split; [done |]. intros (Hq & _). apply containsQuote_spec in Hq.
    congruence.
Qed.

(** ** The reassembly loop of [ReadAll] *)

Section Reassembly.

Variable blocks : list (list (list string)).

Lemma flushHash_pending arr fuel records hash sequence :
  pending blocks arr records hash sequence ->
  (size hash <= fuel)%nat ->
  match flushHash fuel records hash sequence with
  | (records', hash', sequence') =>
      pending blocks arr records' hash' sequence' /\ hash' !! sequence' = None
  end.
Proof.
  revert records hash sequence.
  induction fuel as [|fuel IH]; intros records hash sequence HP Hsz; simpl.
  - split; [done |]. assert (hash = ∅) as -> by (apply map_size_empty_iff; lia).
    apply lookup_empty.
  - destruct (hash !! sequence) as [val|] eqn:Hl; [| done].
    apply IH.
    + destruct HP as (n & -> & Hrec & Hhash & Harr).
      pose proof (proj1 (Hhash _ _) Hl) as (_ & i & Hi & Hbi & Hin).
      apply Nat2Z.inj in Hi. subst i.
      exists (S n). split; [lia |]. split.
      { rewrite (take_S_r _ _ _ Hbi), concat_app. simpl.
        by rewrite app_nil_r, Hrec. }
      split.
      * intros s recs. destruct (decide (s = Z.of_nat n)) as [->|Hne].
        -- rewrite lookup_delete_eq. split; [done | lia].
        -- rewrite lookup_delete_ne by done. rewrite Hhash.
           split; intros (? & ?); (split; [lia | done]).
      * intros i recs Hlt Hbi'. destruct (decide (i = n)) as [->|Hne].
        -- rewrite Hbi in Hbi'. by injection Hbi' as <-.
        -- apply Harr; [lia | done].
    + pose proof (map_size_delete sequence hash) as Hd.
      rewrite Hl in Hd. lia.
Qed.

Lemma numbered_inj i j recs recs' :
  numbered i recs = numbered j recs' -> i = j /\ recs = recs'.
Proof. intros [= Hi ->]. split; [by apply Nat2Z.inj | done]. Qed.

Lemma NoDup_numbered : NoDup (imap numbered blocks).
Proof.
  apply NoDup_alt. intros i j x. rewrite !list_lookup_imap.
  destruct (blocks !! i) eqn:Hi, (blocks !! j) eqn:Hj; simpl; try done.
  intros [= <-] [= E _]. by apply Nat2Z.inj in E.
Qed.

Lemma ReadAll_loop_pending out arr records hash sequence :
  arr ++ out ≡ₚ imap numbered blocks ->
  pending blocks arr records hash sequence ->
  hash !! sequence = None ->
  ReadAll_loop out records hash sequence = (concat blocks, None).
Proof.
  revert arr records hash sequence.
  induction out as [|o out IH]; intros arr records hash sequence Hperm HP Hnone.
  - simpl. rewrite app_nil_r in Hperm.
    destruct HP as (n & -> & -> & Hhash & Harr).
    destruct (blocks !! n) as [recs|] eqn:Hn.
    + assert (numbered n recs ∈ arr) as Hin.
      { rewrite Hperm. apply elem_of_lookup_imap. eauto. }
      assert (hash !! Z.of_nat n = Some recs) as Hs.
      { apply Hhash. split; [lia |]. eauto. }
      congruence.
    + apply lookup_ge_None in Hn. by rewrite take_ge by lia.
  - assert (NoDup (arr ++ o :: out)) as Hnd.
    { rewrite Hperm. apply NoDup_numbered. }
    assert (o ∉ arr) as Hfresh.
    { apply NoDup_app in Hnd as (_ & Hd & _). intros Hin.
      apply (Hd _ Hin). by left. }
    assert (o ∈ imap numbered blocks) as Hin.
    { rewrite <- Hperm. apply elem_of_app. right. by left. }
    apply elem_of_lookup_imap in Hin as (i & recs & -> & Hbi).
    assert (arr ++ [numbered i recs] ++ out ≡ₚ imap numbered blocks) as Hperm'
        by done.
    rewrite app_assoc in Hperm'.
    destruct HP as (n & -> & Hrec & Hhash & Harr).
    simpl. destruct (Z.gtb_spec (Z.of_nat i) (Z.of_nat n)) as [Hgt|Hle].
    + apply (IH _ _ _ _ Hperm').
      * exists n. split; [done |]. split; [done |]. split.
        -- intros s recs'. destruct (decide (s = Z.of_nat i)) as [->|Hne].
           ++ rewrite lookup_insert_eq. split.
              ** intros [= <-]. split; [lia |]. exists i.
                 split; [done |]. split; [done |].
                 apply elem_of_app. right. by left.
              ** intros (_ & j & Hj & Hbj & _). apply Nat2Z.inj in Hj.
                 subst j. congruence.
           ++ rewrite lookup_insert_ne by done. rewrite Hhash.
              split; intros (Hle & j & Hj & Hbj & Hin); (split; [done |]);
                exists j; (split; [done |]); (split; [done |]).
              ** apply elem_of_app. by left.
              ** apply elem_of_app in Hin as [Hin|Hin]; [done |].
                 apply list_elem_of_singleton in Hin.
                 apply numbered_inj in Hin as [-> _]. done.
        -- intros j recs' Hlt Hbj. apply elem_of_app. left. by apply Harr.
      * rewrite lookup_insert_ne by lia. done.
    + assert (i = n) as ->.
      { destruct (decide (i < n)%nat) as [Hlt|]; [| lia].
        exfalso. apply Hfresh. by apply Harr. }
      pose proof (flushHash_pending (arr ++ [numbered n recs]) (size hash)
                    (records ++ recs) hash (Z.of_nat n + 1)) as Hfl.
      destruct (flushHash (size hash) (records ++ recs) hash
                          (Z.of_nat n + 1)) as [[records' hash'] sequence'].
      destruct Hfl as [HP' Hnone']; [| lia |].
      * exists (S n). split; [lia |]. split.
        { rewrite (take_S_r _ _ _ Hbi), concat_app. simpl.
          by rewrite app_nil_r, Hrec. }
        split.
        -- intros s recs'. rewrite Hhash. split.
           ++ intros (Hle' & j & Hj & Hbj & Hin).
              assert (s <> Z.of_nat n).
              { intros ->. apply Nat2Z.inj in Hj. subst j.
                apply Hfresh. congruence. }
              split; [lia |]. exists j. split; [done |]. split; [done |].
              apply elem_of_app. by left.
           ++ intros (Hle' & j & Hj & Hbj & Hin). split; [lia |].
              exists j. split; [done |]. split; [done |].
              apply elem_of_app in Hin as [Hin|Hin]; [done |].
              apply list_elem_of_singleton in Hin.
              apply numbered_inj in Hin as [-> _]. lia.
        -- intros j recs' Hlt Hbj. apply elem_of_app.
           destruct (decide (j = n)) as [->|Hne].
           ++ right. apply list_elem_of_singleton. congruence.
           ++ left. apply Harr; [lia | done].
      * by apply (IH _ _ _ _ Hperm').
Qed.

End Reassembly.

Lemma ReadAll_collect_permutation blocks out :
  out ≡ₚ imap numbered blocks ->
  ReadAll_collect out = (concat blocks, None).
Proof.
  intros Hperm. apply (ReadAll_loop_pending blocks out []); [done | | done].
  exists 0%nat. split; [done |]. split; [done |]. split.
  - intros s recs. rewrite lookup_empty. split; [done |].
    intros (_ & i & _ & _ & Hin). by apply elem_of_nil in Hin.
  - intros i recs Hlt. lia.
Qed.

(** ** [nextblock] *)

(** The first loop of [nextblock] never runs out of fuel: the keys it
    passes are distinct keys of [hash]. *)
Lemma nextblock_waiting_fuel fuel st (m : gmap Z recordsOutput) :
  (forall k, sequence st <= k -> is_Some (hash st !! k) -> is_Some (m !! k)) ->
  (size m < fuel)%nat ->
  is_Some (nextblock_waiting fuel st).
Proof.
  revert st m. induction fuel as [|fuel IH]; intros st m Hm Hsz; [lia |].
  simpl. destruct (hash st !! sequence st) as [rcrds|] eqn:Hl; [| by eexists].
  destruct (Z.of_nat (length (ro_records rcrds)) =? 0).
  - apply (IH _ (delete (sequence st) m)); simpl.
    + intros k Hk Hs. rewrite lookup_delete_ne by lia. apply Hm; [lia | done].
    + assert (is_Some (m !! sequence st)) as [x Hx]
        by (apply Hm; [lia | by eexists]).
      assert (size m <> 0%nat) as Hnz.
      { apply map_size_non_empty_iff. intros ->. by rewrite lookup_empty in Hx. }
      pose proof (map_size_delete (sequence st) m) as Hd.
      rewrite Hx in Hd. lia.
  - destruct (ro_err rcrds); by eexists.
Qed.

Lemma nextblock_total st : is_Some (nextblock st).
Proof.
  unfold nextblock.
  destruct (nextblock_waiting_fuel (S (size (hash st))) st (hash st))
    as [res Hres]; [done | lia |].
  rewrite Hres. simpl. destruct res; by eexists.
Qed.

(** A block loaded by the first loop was waiting in [hash] under the
    number that [sequence] has just left. *)
Lemma nextblock_waiting_return fuel st st' :
  nextblock_waiting fuel st = Some (inl (None, st')) ->
  sequence st < sequence st' /\
  hash st' = hash st /\ readchan st' = readchan st /\
  exists rcrds, hash st !! (sequence st' - 1) = Some rcrds /\
                records st' = ro_records rcrds.
Proof.
  revert st. induction fuel as [|fuel IH]; intros st; simpl; [done |].
  destruct (hash st !! sequence st) as [rcrds|] eqn:Hl; [| done].
  destruct (Z.of_nat (length (ro_records rcrds)) =? 0).
  - intros Hr. apply IH in Hr as (Hlt & Hh & Hc & Hex). simpl in *.
    split; [lia |]. done.
  - destruct (ro_err rcrds); [done |]. intros [= <-]. simpl.
    split; [lia |]. split; [done |]. split; [done |].
    exists rcrds. by replace (sequence st + 1 - 1) with (sequence st) by lia.
Qed.

Lemma nextblock_waiting_break fuel st st' :
  nextblock_waiting fuel st = Some (inr st') ->
  sequence st <= sequence st' /\
  hash st' = hash st /\ readchan st' = readchan st.
Proof.
  revert st. induction fuel as [|fuel IH]; intros st; simpl; [done |].
  destruct (hash st !! sequence st) as [rcrds|] eqn:Hl.
  - destruct (Z.of_nat (length (ro_records rcrds)) =? 0).
    + intros Hr. apply IH in Hr as (Hlt & Hh & Hc). simpl in *.
      split; [lia |]. done.
    + destruct (ro_err rcrds); done.
  - intros [= <-]. split; [lia |]. done.
Qed.

(** A block loaded by the second loop came off the channel carrying the
    number that [sequence] has just left; what the loop stores in [hash]
    came off the channel under its own number. *)
Lemma nextblock_receive_return chan st st' :
  nextblock_receive chan st = (None, st') ->
  sequence st < sequence st' /\
  (exists rcrds, rcrds ∈ chan /\ ro_sequence rcrds = sequence st' - 1 /\
                 records st' = ro_records rcrds) /\
  (forall o, o ∈ readchan st' -> o ∈ chan) /\
  (forall k o, hash st' !! k = Some o ->
     hash st !! k = Some o \/ (o ∈ chan /\ ro_sequence o = k)).
Proof.
  revert st. induction chan as [|rcrds chan IH]; intros st; simpl; [done |].
  destruct (Z.gtb_spec (ro_sequence rcrds) (sequence st)) as [Hgt|Hle].
  - intros Hr. apply IH in Hr as (Hlt & (o & Ho & Hs & Hrec) & Hch & Hh).
    simpl in *. split; [done |]. split.
    { exists o. split; [by right | done]. }
    split.
    { intros o' Ho'. right. by apply Hch. }
    intros k o' Hk. destruct (Hh k o' Hk) as [Hk'|[Hk' Hs']].
    + destruct (decide (k = ro_sequence rcrds)) as [->|Hne].
      * rewrite lookup_insert_eq in Hk'. injection Hk' as <-.
        right. split; [by left | done].
      * rewrite lookup_insert_ne in Hk' by done. by left.
    + right. split; [by right | done].
  - destruct (Z.eqb_spec (ro_sequence rcrds) (sequence st)) as [Heq|Hne].
    + destruct (ro_err rcrds) eqn:He; [done |].
      destruct (Z.of_nat (length (ro_records rcrds)) =? 0).
      * intros Hr. apply IH in Hr as (Hlt & (o & Ho & Hs & Hrec) & Hch & Hh).
        simpl in *. split; [lia |]. split.
        { exists o. split; [by right | done]. }
        split.
        { intros o' Ho'. right. by apply Hch. }
        intros k o' Hk. destruct (Hh k o' Hk) as [Hk'|[Hk' Hs']].
        -- left. apply lookup_delete_Some in Hk'. tauto.
        -- right. split; [by right | done].
      * intros [= <-]. simpl. split; [lia |]. split.
        { exists rcrds. split; [by left |]. split; [lia | done]. }
        split.
        { intros o' Ho'. by right. }
        intros k o' Hk. left. apply lookup_delete_Some in Hk. tauto.
    + intros Hr. apply IH in Hr as (Hlt & (o & Ho & Hs & Hrec) & Hch & Hh).
      split; [done |]. split.
      { exists o. split; [by right | done]. }
      split.
      { intros o' Ho'. right. by apply Hch. }
      intros k o' Hk. destruct (Hh k o' Hk) as [Hk'|[Hk' Hs']]; [by left |].
      right. split; [by right | done].
Qed.

Lemma nextblock_return st st' :
  keyed st ->
  nextblock st = Some (None, st') ->
  sequence st < sequence st' /\ keyed st' /\
  held st (sequence st' - 1) (records st') /\
  (forall s recs, held st' s recs -> held st s recs).
Proof.
  intros Hkey. unfold nextblock.
  destruct (nextblock_waiting (S (size (hash st))) st) as [[[e st1]|st1]|] eqn:Hw;
    simpl; [| | done].
  - intros [= -> ->].
    apply nextblock_waiting_return in Hw as (Hlt & Hh & Hc & o & Ho & Hrec).
    split; [done |]. split.
    { unfold keyed. by rewrite Hh. }
    split.
    { exists o. split; [by apply Hkey |]. split; [done | by right]. }
    intros s recs (o' & Hs & Hr & Hfrom). exists o'.
    rewrite Hh, Hc in Hfrom. done.
  - intros [= Hr].
    apply nextblock_waiting_break in Hw as (Hle & Hh & Hc).
    apply nextblock_receive_return in Hr
      as (Hlt & (o & Ho & Hs & Hrec) & Hch & Hhash).
    rewrite Hc in *. rewrite Hh in *.
    split; [lia |]. split.
    { intros k o' Hk. destruct (Hhash k o' Hk) as [Hk'|[_ Hk']]; [| done].
      by apply Hkey. }
    split.
    { exists o. split; [done |]. split; [done | by left]. }
    intros s recs (o' & Hs' & Hr' & [Hfrom|Hfrom]).
    + exists o'. split; [done |]. split; [done |]. left. by apply Hch.
    + exists o'. split; [done |]. split; [done |].
      destruct (Hhash s o' Hfrom) as [Hk'|[Hk' _]]; [by right | by left].
Qed.

(** The blocks that successive calls load have strictly increasing
    sequence numbers, and each was received under its number. *)
Lemma blocksRead_ascending calls st :
  keyed st ->
  StronglySorted Z.lt (map fst (blocksRead calls st)) /\
  Forall (fun b => sequence st <= fst b /\ held st (fst b) (snd b))
         (blocksRead calls st).
Proof.
  revert st. induction calls as [|calls IH]; intros st Hkey; simpl.
  { split; constructor. }
  destruct (nextblock st) as [[[e|] st']|] eqn:Hn;
    [split; constructor | | split; constructor].
  apply (nextblock_return _ _ Hkey) in Hn as (Hlt & Hkey' & Hheld & Hmono).
  destruct (IH st' Hkey') as [Hsorted Hall]. split.
  - simpl. constructor; [done |].
    apply Forall_map. eapply Forall_impl; [apply Hall |].
    intros b [Hb _]. simpl in *. lia.
  - constructor.
    + simpl. split; [lia | done].
    + eapply Forall_impl; [apply Hall |]. intros b [Hb Hh]. simpl in *.
      split; [lia | by apply Hmono].
Qed.

(** ** Split rows *)

Lemma slice_prefix {A} (s : list A) (h : Z) (l : list A) :
  Go.slice s 0 h = Some l -> l = take (Z.to_nat h) s /\ 0 <= h <= Z.of_nat (length s).
Proof.
  unfold Go.slice. destruct (_ && _) eqn:E; [| done]. intros [= <-].
  rewrite !andb_true_iff in E. rewrite drop_0, Z.sub_0_r. split; [done | lia].
Qed.

Lemma slice_suffix {A} (s : list A) (a : Z) (l : list A) :
  Go.slice s a (Z.of_nat (length s)) = Some l ->
  l = drop (Z.to_nat a) s /\ 0 <= a <= Z.of_nat (length s).
Proof.
  unfold Go.slice. destruct (_ && _) eqn:E; [| done]. intros [= <-].
  rewrite !andb_true_iff in E. split; [| lia].
  apply take_ge. rewrite length_drop. lia.
Qed.

Section Stage1.

Context `{Externals}.
Variable r : Reader.

Lemma stage1Streaming_loop_joined bufchan sequence quoted splitRow infos :
  stage1Streaming_loop r bufchan sequence quoted splitRow = Some infos ->
  joined splitRow bufchan infos.
Proof.
  revert sequence quoted splitRow infos.
  induction bufchan as [|c bufchan IH]; intros sequence quoted splitRow infos.
  - simpl. by intros [= <-].
  - simpl.
    destruct (stage1PreprocessBufferEx (buf c) (Go.u64 (Comma r)) quoted)
      as [[masksStream postProcStream] quoted'].
    set (header := computeHeader sequence masksStream c).
    set (trailer := computeTrailer header masksStream c).
    destruct (Go.slice (buf c) 0 header) as [head|] eqn:Hh; [| done]. simpl.
    destruct (Go.slice (buf c) (Z.of_nat (length (buf c)) - trailer) _)
      as [tail|] eqn:Ht; [| done]. simpl.
    destruct (stage1Streaming_loop r bufchan (sequence + 1) quoted' tail)
      as [infos'|] eqn:Hrec; [| done]. simpl.
    intros [= <-]. apply IH in Hrec.
    apply slice_prefix in Hh as [-> Hhr].
    apply slice_suffix in Ht as [-> Htr].
    destruct (Z.ltb_spec header (Z.of_nat (length (buf c)))) as [Hlt|Hge];
      unfold headerBytes, trailerBytes; simpl.
    + done.
    + assert (header = Z.of_nat (length (buf c))) as Hhd by lia.
      assert (trailer = 0) as Htz.
      { unfold trailer, computeTrailer.
        destruct (Z.ltb_spec header (Z.of_nat (length (buf c)))); [lia |].
        by rewrite andb_false_r. }
      rewrite Htz, Z.sub_0_r, Nat2Z.id, drop_all in Hrec.
      rewrite Hhd, Nat2Z.id, take_ge by lia. done.
Qed.

Lemma stage1Streaming_loop_length bufchan sequence quoted splitRow infos :
  stage1Streaming_loop r bufchan sequence quoted splitRow = Some infos ->
  length infos = length bufchan.
Proof.
  revert sequence quoted splitRow infos.
  induction bufchan as [|c bufchan IH]; intros sequence quoted splitRow infos;
    simpl.
  - by intros [= <-].
  - destruct (stage1PreprocessBufferEx _ _ _) as [[? ?] quoted'].
    destruct (Go.slice (buf c) 0 _); [| done]. simpl.
    destruct (Go.slice (buf c) _ _); [| done]. simpl.
    destruct (stage1Streaming_loop r bufchan _ _ _) eqn:Hrec; [| done].
    simpl. intros [= <-]. simpl. f_equal. by eapply IH.
Qed.

Lemma stage1Streaming_loop_sequence bufchan sequence quoted splitRow infos :
  stage1Streaming_loop r bufchan sequence quoted splitRow = Some infos ->
  forall (k : nat) info, infos !! k = Some info ->
                         ci_sequence info = sequence + Z.of_nat k.
Proof.
  revert sequence quoted splitRow infos.
  induction bufchan as [|c bufchan IH]; intros sequence quoted splitRow infos;
    simpl.
  - intros [= <-] k info Hk. by rewrite lookup_nil in Hk.
  - destruct (stage1PreprocessBufferEx _ _ _) as [[? ?] quoted'].
    destruct (Go.slice (buf c) 0 _); [| done]. simpl.
    destruct (Go.slice (buf c) _ _); [| done]. simpl.
    destruct (stage1Streaming_loop r bufchan _ _ _) eqn:Hrec; [| done].
    simpl. intros [= <-] [|k] info Hk; simpl in Hk.
    + injection Hk as <-. destruct (_ <? _); simpl; lia.
    + rewrite (IH _ _ _ _ Hrec k info Hk). lia.
Qed.

Lemma joined_lookup carry bufchan infos (k : nat) c c' info info' :
  joined carry bufchan infos ->
  bufchan !! k = Some c -> bufchan !! S k = Some c' ->
  infos !! k = Some info -> infos !! S k = Some info' ->
  ci_splitRow info' = trailerBytes info c ++ headerBytes info' c'.
Proof.
  revert carry bufchan infos.
  induction k as [|k IH]; intros carry bufchan infos HJ Hc Hc' Hi Hi'.
  - destruct bufchan as [|c0 [|c1 bufchan]]; simplify_eq/=.
    destruct infos as [|i0 [|i1 infos]]; simplify_eq/=.
    by destruct HJ as (_ & ? & _).
  - destruct bufchan as [|c0 bufchan]; simplify_eq/=.
    destruct infos as [|i0 infos]; simplify_eq/=.
    destruct HJ as [_ HJ]. by eapply IH.
Qed.

End Stage1.

(** ** The masks handed to Stage 2 *)

Lemma u64_testbit x b :
  Z.testbit (Go.u64 x) b = (b <? 64) && Z.testbit x b.
Proof. unfold Go.u64. by rewrite Z.testbit_mod_pow2 by lia. Qed.

(** [clearBelow] zeroes the [shift] low bits and keeps the other 64. *)
Lemma clearBelow_testbit m shift b :
  0 <= shift -> 0 <= b < 64 ->
  Z.testbit (clearBelow m shift) b = Z.testbit m b && (shift <=? b).
Proof.
  intros Hs Hb. unfold clearBelow.
  rewrite Z.land_spec, u64_testbit, Z.lnot_spec, u64_testbit by lia.
  replace (Z.shiftl 1 shift - 1) with (Z.ones shift)
    by (unfold Z.ones; lia).
  rewrite Z.testbit_ones_nonneg by lia.
  destruct (Z.ltb_spec b 64); [| lia]. simpl.
  destruct (Z.ltb_spec b shift), (Z.leb_spec shift b); try lia; done.
Qed.

(** [clearAbove] zeroes the [shiftTz] high bits of the 64 and keeps the
    others. *)
Lemma clearAbove_testbit m shiftTz b :
  0 <= shiftTz -> 0 <= b ->
  Z.testbit (clearAbove m shiftTz) b = Z.testbit m b && (b + shiftTz <? 64).
Proof.
  intros Hs Hb. unfold clearAbove.
  rewrite Z.shiftr_spec, u64_testbit, Z.shiftl_spec by lia.
  replace (b + shiftTz - shiftTz) with b by lia. apply andb_comm.
Qed.

Lemma clearAbove_two_steps m shiftTz :
  Z.shiftr (Go.u64 (Z.shiftl m shiftTz)) shiftTz = clearAbove m shiftTz.
Proof. reflexivity. Qed.

Lemma updateAt_lookup masks i f masks' :
  updateAt masks i f = Some masks' ->
  0 <= i < Z.of_nat (length masks) /\
  length masks' = length masks /\
  forall idx : nat,
    masks' !! idx =
    (if decide (idx = Z.to_nat i) then f else id) <$> masks !! idx.
Proof.
  unfold updateAt, Go.index, Go.store.
  destruct (Z.leb_spec 0 i) as [Hi|]; [| done]. simpl.
  destruct (masks !! Z.to_nat i) as [m|] eqn:Hm; [| done]. simpl.
  destruct (Z.ltb_spec i (Z.of_nat (length masks))) as [Hlt|]; [| done].
  simpl. intros [= <-]. split; [lia |]. split; [apply length_insert |].
  intros idx. case_decide as Hd.
  - subst idx. rewrite list_lookup_insert_eq by lia. by rewrite Hm.
  - rewrite list_lookup_insert_ne by done. by destruct (masks !! idx).
Qed.

(** Three assignments of the same kind to the words of one triple. *)
Lemma updateAt_triple masks a f m1 m2 m3 :
  updateAt masks (a + 0) f = Some m1 ->
  updateAt m1 (a + 1) f = Some m2 ->
  updateAt m2 (a + 2) f = Some m3 ->
  length m3 = length masks /\
  0 <= a /\ a + 2 < Z.of_nat (length masks) /\
  forall idx : nat,
    m3 !! idx =
    (if decide (a <= Z.of_nat idx < a + 3) then f else id) <$> masks !! idx.
Proof.
  intros E1 E2 E3.
  apply updateAt_lookup in E1 as (B1 & L1 & K1).
  apply updateAt_lookup in E2 as (B2 & L2 & K2).
  apply updateAt_lookup in E3 as (B3 & L3 & K3).
  rewrite L2, L1 in *. split; [congruence |]. split; [lia |]. split; [lia |].
  intros idx. rewrite K3, K2, K1.
  destruct (masks !! idx) as [m|]; [| done]. simpl. f_equal.
  destruct (decide (idx = Z.to_nat (a + 0))),
           (decide (idx = Z.to_nat (a + 1))),
           (decide (idx = Z.to_nat (a + 2)));
    try lia; case_decide; try lia; reflexivity.
Qed.

(** The masks after the ten assignments, word by word. *)
Lemma clipMasks_lookup masks header trailer masks' :
  clipMasks masks header trailer = Some masks' ->
  let skip := Z.shiftr header 6 in
  let base := Z.of_nat (length masks) - (Z.shiftr trailer 6 + 1) * 3 in
  length masks' = length masks /\
  0 <= skip * 3 /\ skip * 3 + 2 < Z.of_nat (length masks) /\
  0 <= base /\ base + 2 < Z.of_nat (length masks) /\
  forall idx : nat,
    masks' !! idx =
    (fun m =>
       let m1 := if decide (skip * 3 <= Z.of_nat idx < skip * 3 + 3)
                 then clearBelow m (Z.land header 63) else m in
       if decide (base <= Z.of_nat idx < base + 3)
       then clearAbove m1 (Z.land trailer 63) else m1) <$> masks !! idx.
Proof.
  unfold clipMasks.
  destruct (updateAt masks _ _) as [m1|] eqn:E1; [| done]. simpl.
  destruct (updateAt m1 _ _) as [m2|] eqn:E2; [| done]. simpl.
  destruct (updateAt m2 _ _) as [m3|] eqn:E3; [| done]. simpl.
  destruct (updateAt m3 _ _) as [m4|] eqn:E4; [| done]. simpl.
  destruct (updateAt m4 _ _) as [m5|] eqn:E5; [| done]. simpl.
  destruct (updateAt m5 _ _) as [m6|] eqn:E6; [| done]. simpl.
  destruct (updateAt m6 _ _) as [m7|] eqn:E7; [| done]. simpl.
  destruct (updateAt m7 _ _) as [m8|] eqn:E8; [| done]. simpl.
  intros E9.
  destruct (updateAt_triple _ _ _ _ _ _ E1 E2 E3) as (LA & BA1 & BA2 & KA).
  destruct (updateAt_triple _ _ _ _ _ _ E4 E5 E6) as (LB & BB1 & BB2 & KB).
  destruct (updateAt_triple _ _ _ _ _ _ E7 E8 E9) as (LC & BC1 & BC2 & KC).
  rewrite LA in *.
  split; [congruence |]. split; [lia |]. split; [lia |].
  split; [lia |]. split; [lia |].
  intros idx. rewrite KC, KB, KA.
  destruct (masks !! idx) as [m|]; [| done]. simpl. f_equal.
  destruct (decide (Z.shiftr header 6 * 3 <= Z.of_nat idx
                    < Z.shiftr header 6 * 3 + 3));
    destruct (decide (Z.of_nat (length masks) - (Z.shiftr trailer 6 + 1) * 3
                      <= Z.of_nat idx
                      < Z.of_nat (length masks)
                        - (Z.shiftr trailer 6 + 1) * 3 + 3));
    reflexivity.
Qed.

(** Below the header: the bits that precede it in its own window are
    clear in all three masks.  Above the trailer: the bits that follow
    it in the window the code addresses are clear in all three masks. *)
Lemma clipMasks_clears masks header trailer masks' :
  clipMasks masks header trailer = Some masks' ->
  (forall j b, 0 <= j < 3 -> 0 <= b < Z.land header 63 ->
     exists m, masks' !! Z.to_nat (Z.shiftr header 6 * 3 + j) = Some m /\
               Z.testbit m b = false) /\
  (forall j b, 0 <= j < 3 -> 64 - Z.land trailer 63 <= b < 64 ->
     exists m,
       masks' !! Z.to_nat (Z.of_nat (length masks)
                           - (Z.shiftr trailer 6 + 1) * 3 + j) = Some m /\
       Z.testbit m b = false).
Proof.
  intros Hc.
  destruct (clipMasks_lookup _ _ _ _ Hc) as (Hlen & Hs0 & Hs & Hb & Hb2 & Hl).
  assert (0 <= Z.land header 63 < 64) as Hsh.
  { change 63 with (Z.ones 6). rewrite Z.land_ones by lia.
    apply Z.mod_pos_bound. lia. }
  assert (0 <= Z.land trailer 63 < 64) as Hst.
  { change 63 with (Z.ones 6). rewrite Z.land_ones by lia.
    apply Z.mod_pos_bound. lia. }
  split.
  - intros j b Hj Hbit. rewrite Hl.
    destruct (masks !! Z.to_nat (Z.shiftr header 6 * 3 + j)) as [m|] eqn:Hm.
    2:{ apply lookup_ge_None in Hm. lia. }
    simpl. eexists. split; [reflexivity |].
    assert (Z.testbit (clearBelow m (Z.land header 63)) b = false) as Hcb.
    { rewrite clearBelow_testbit by lia.
      destruct (Z.leb_spec (Z.land header 63) b); [lia |].
      by rewrite andb_false_r. }
    repeat case_decide; try lia.
    + rewrite clearAbove_testbit by lia. by rewrite Hcb.
    + done.
  - intros j b Hj Hbit. rewrite Hl.
    destruct (masks !! Z.to_nat (Z.of_nat (length masks)
                - (Z.shiftr trailer 6 + 1) * 3 + j)) as [m|] eqn:Hm.
    2:{ apply lookup_ge_None in Hm. lia. }
    simpl. eexists. split; [reflexivity |].
    assert (forall x, Z.testbit (clearAbove x (Z.land trailer 63)) b = false)
      as Hca.
    { intros x. rewrite clearAbove_testbit by lia.
      destruct (Z.ltb_spec (b + Z.land trailer 63) 64); [lia |].
      by rewrite andb_false_r. }
    repeat case_decide; try lia; apply Hca.
Qed.

(** ** The records a worker passes on *)

Lemma slice_spec {A} (s : list A) (a b : Z) (l : list A) :
  Go.slice s a b = Some l ->
  0 <= a <= b /\ b <= Z.of_nat (length s) /\
  l = take (Z.to_nat (b - a)) (drop (Z.to_nat a) s).
Proof.
  unfold Go.slice. destruct (_ && _) eqn:E; [| done]. intros [= <-].
  rewrite !andb_true_iff in E. split; [lia |]. split; [lia | done].
Qed.

(** Indexed stores at or above [skip] leave the first [skip] rows alone. *)
Lemma foldl_store_prefix {A} (f : A -> A) (skip : Z) (rows : list Z)
    (recs recs' : list A) :
  Forall (fun row => skip <= row) rows ->
  foldl (fun acc row =>
           recs ← acc; rec ← Go.index recs row; Go.store recs row (f rec))
        (Some recs) rows = Some recs' ->
  take (Z.to_nat skip) recs' = take (Z.to_nat skip) recs /\
  length recs' = length recs.
Proof.
  revert recs. induction rows as [|row rows IH]; intros recs Hall; simpl.
  - by intros [= <-].
  - apply Forall_cons in Hall as [Hrow Hall].
    destruct (Go.index recs row) as [rec|] eqn:Hi; simpl.
    + unfold Go.store. destruct (_ && _) eqn:Hb; simpl.
      * intros Hf. apply IH in Hf as [Ht Hl]; [| done].
        rewrite length_insert in Hl. split; [| done].
        rewrite Ht. apply andb_true_iff in Hb as [Hb1 Hb2].
        apply take_insert_ge. lia.
      * intros Hf. exfalso. clear -Hf.
        induction rows as [|? ? IH']; simpl in *; [done | by apply IH'].
    + intros Hf. exfalso. clear -Hf.
      induction rows as [|? ? IH']; simpl in *; [done | by apply IH'].
Qed.

Lemma collectRows_app fuel rows columns lines line acc res :
  collectRows fuel rows columns lines line acc = Some res ->
  exists own, res = acc ++ own.
Proof.
  revert line acc. induction fuel as [|fuel IH]; intros line acc; simpl.
  - intros [= <-]. exists []. by rewrite app_nil_r.
  - destruct (line <? lines).
    + destruct (Go.index rows line) as [start|]; [| done]. simpl.
      destruct (Go.index rows (line + 1)) as [count|]; [| done]. simpl.
      destruct (Go.slice columns start (start + count)) as [row|]; [| done].
      simpl. intros Hr. apply IH in Hr as [own ->].
      exists (row :: own). by rewrite <- app_assoc.
    + intros [= <-]. exists []. by rewrite app_nil_r.
Qed.

#[local] Arguments collectRows : simpl never.
#[local] Arguments postProcess : simpl never.

Section Stage2.

Context `{Externals}.
Variable r : Reader.

Lemma postProcRows_prefix simdrecords ppr skip res :
  0 <= ppr_start ppr ->
  postProcRows simdrecords ppr skip = Some res ->
  take (Z.to_nat skip) res = take (Z.to_nat skip) simdrecords /\
  length res = length simdrecords.
Proof.
  intros Hs. unfold postProcRows. apply foldl_store_prefix.
  apply Forall_forall. intros row Hin. apply elem_of_seqZ in Hin. lia.
Qed.

Lemma postProcess_prefix chunk postProc simdrecords skip res :
  (forall tail, Forall (fun p => 0 <= ppr_start p)
                       (getPostProcRows chunk postProc tail)) ->
  postProcess chunk postProc simdrecords skip = Some res ->
  take (Z.to_nat skip) res = take (Z.to_nat skip) simdrecords.
Proof.
  intros Hwf. unfold postProcess. destruct (0 <? _); [| by intros [= <-]].
  destruct (Go.slice simdrecords skip _) as [tail|]; [| done]. simpl.
  specialize (Hwf tail). revert Hwf.
  generalize (getPostProcRows chunk postProc tail). intros pprs.
  revert simdrecords. induction pprs as [|ppr pprs IH];
    intros simdrecords Hall; simpl.
  - by intros [= <-].
  - apply Forall_cons in Hall as [Hp Hall].
    destruct (postProcRows simdrecords ppr skip) as [recs1|] eqn:Hpp.
    + intros Hf. apply IH in Hf; [| done]. rewrite Hf.
      by apply (postProcRows_prefix _ _ _ _ Hp) in Hpp as [-> _].
    + intros Hf. exfalso. clear -Hf.
      induction pprs as [|? ? IH']; simpl in *; [done | by apply IH'].
Qed.

(** Whatever a worker passes on for a chunk starts with the records of
    the split row. *)
Lemma stage2_parse_splitRecords_first ci simdrecords input :
  (forall chunk postProc tail,
      Forall (fun p => 0 <= ppr_start p)
             (getPostProcRows chunk postProc tail)) ->
  stage2_parse r ci = Some (ParsedCheck simdrecords input) ->
  take (length (splitRecords r ci)) simdrecords = splitRecords r ci.
Proof.
  intros Hwf. unfold stage2_parse, splitRecords.
  destruct (if 0 <? Z.of_nat (length (ci_splitRow ci))
            then encodingCsv (ci_splitRow ci) (Comma r)
            else ([], None)) as [records err] eqn:Hsplit.
  assert ((if 0 <? Z.of_nat (length (ci_splitRow ci))
           then fst (encodingCsv (ci_splitRow ci) (Comma r))
           else []) = records) as ->.
  { destruct (0 <? _); by rewrite Hsplit || by injection Hsplit as <- <-. }
  destruct err; [done |].
  destruct (ci_chunk ci) as [chunk|]; [| done].
  destruct (clipMasks _ _ _) as [masks|]; [| done]. simpl.
  destruct (payload _ _ _) as [inp|]; [| done]. simpl.
  destruct (Go.slice masks _ _) as [masksTail|]; [| done]. simpl.
  destruct (s2_parsingError _); [done |].
  destruct (collectRows _ _ _ _ _ _) as [recs1|] eqn:Hc; [| done]. simpl.
  destruct (postProcess _ _ _ _) as [recs2|] eqn:Hp; [| done]. simpl.
  intros [= <- <-].
  apply collectRows_app in Hc as [own ->].
  apply (postProcess_prefix _ _ _ _ _ (Hwf _ _)) in Hp.
  rewrite Nat2Z.id in Hp. rewrite Hp. by rewrite take_app_length.
Qed.

Lemma stage2_parse_skip ci simdrecords :
  stage2_parse r ci = Some (ParsedSkip simdrecords) ->
  ci_chunk ci = None /\ simdrecords = splitRecords r ci.
Proof.
  unfold stage2_parse, splitRecords.
  destruct (if 0 <? Z.of_nat (length (ci_splitRow ci))
            then encodingCsv (ci_splitRow ci) (Comma r)
            else ([], None)) as [records err] eqn:Hsplit.
  assert ((if 0 <? Z.of_nat (length (ci_splitRow ci))
           then fst (encodingCsv (ci_splitRow ci) (Comma r))
           else []) = records) as ->.
  { destruct (0 <? _); by rewrite Hsplit || by injection Hsplit as <- <-. }
  destruct err; [done |].
  destruct (ci_chunk ci) as [chunk|]; [| by intros [= <-]].
  destruct (clipMasks _ _ _) as [masks|]; [| done]. simpl.
  destruct (payload _ _ _) as [inp|]; [| done]. simpl.
  destruct (Go.slice masks _ _) as [masksTail|]; [| done]. simpl.
  destruct (s2_parsingError _); [done |].
  destruct (collectRows _ _ _ _ _ _) as [recs1|] eqn:Hc; [| done]. simpl.
  destruct (postProcess _ _ _ _) as [recs2|] eqn:Hp; done.
Qed.

(** The bytes that Stage 2 is given: from the start of the window that
    holds the end of the header up to where the trailer begins. *)
Lemma payload_spec chunk header trailer input :
  payload chunk header trailer = Some input ->
  0 <= Z.shiftr header 6 * 64 <= Z.of_nat (length chunk) - trailer /\
  0 <= trailer /\
  input = take (Z.to_nat (Z.of_nat (length chunk) - trailer
                          - Z.shiftr header 6 * 64))
               (drop (Z.to_nat (Z.shiftr header 6 * 64)) chunk) /\
  chunk = take (Z.to_nat (Z.shiftr header 6 * 64)) chunk ++ input
          ++ drop (Z.to_nat (Z.of_nat (length chunk) - trailer)) chunk.
Proof.
  unfold payload. intros Hs. apply slice_spec in Hs as (H1 & H2 & ->).
  split; [lia |]. split; [lia |]. split; [done |].
  set (a := Z.to_nat (Z.shiftr header 6 * 64)).
  set (n := Z.to_nat (Z.of_nat (length chunk) - trailer
                      - Z.shiftr header 6 * 64)).
  replace (Z.to_nat (Z.of_nat (length chunk) - trailer)) with (a + n)%nat
    by lia.
  rewrite <- drop_drop, take_drop. by rewrite take_drop.
Qed.

End Stage2.

(** ** The producer *)

Lemma producer_loop_stops_at_error chunk pre b e rest :
  Forall noError pre -> is_EOF e = false ->
  producer_loop chunk (pre ++ (b, Some e) :: rest) = producer_loop chunk pre.
Proof.
  revert chunk. induction pre as [|[c err] pre IH]; intros chunk Hpre He; simpl.
  - by rewrite He.
  - apply Forall_cons in Hpre as [Hc Hpre]. unfold noError in Hc. simpl in Hc.
    subst err. by rewrite IH.
Qed.

Lemma producer_stops_at_error pre b e rest :
  Forall noError pre -> is_EOF e = false ->
  producer (pre ++ (b, Some e) :: rest) = producer pre.
Proof.
  intros Hpre He. destruct pre as [|[c err] pre]; simpl; [done |].
  apply Forall_cons in Hpre as [Hc Hpre]. unfold noError in Hc. simpl in Hc.
  subst err. by apply producer_loop_stops_at_error.
Qed.

Lemma producer_loop_panics chunk pre b rest :
  Forall noError pre -> b <> [] ->
  exists sent,
    producer_loop chunk (pre ++ (b, Some io_EOF) :: rest)
    = ProducerPanic sent "last buffer should be empty".
Proof.
  revert chunk. induction pre as [|[c err] pre IH]; intros chunk Hpre Hb; simpl.
  - destruct b; [done |]. simpl. by eexists.
  - apply Forall_cons in Hpre as [Hc Hpre]. unfold noError in Hc. simpl in Hc.
    subst err. destruct (IH c Hpre Hb) as [sent ->]. simpl. by eexists.
Qed.

Lemma producer_loop_no_panic chunk br :
  eof_by_empty_read br -> exists bufchan, producer_loop chunk br = Produced bufchan.
Proof.
  revert chunk. induction br as [|[b err] br IH]; intros chunk Hbr; simpl.
  - by eexists.
  - apply Forall_cons in Hbr as [Hb Hbr]. simpl in Hb.
    destruct err as [e|].
    + destruct e; simpl; try by eexists.
      rewrite (Hb eq_refl). simpl. by eexists.
    + destruct (IH b Hbr) as [l ->]. simpl. by eexists.
Qed.

Lemma producer_no_panic br :
  eof_by_empty_read br -> exists bufchan, producer br = Produced bufchan.
Proof.
  intros Hbr. destruct br as [|[b [e|]] br]; simpl; try by eexists.
  apply Forall_cons in Hbr as [_ Hbr]. by apply producer_loop_no_panic.
Qed.

(** ** Running the workers *)

Section Runs.

Context `{Externals}.
Variable r : Reader.

Lemma run_rtc schedule p p' :
  run r schedule p = Some p' -> rtc (step r) p p'.
Proof.
  revert p. induction schedule as [|i schedule IH]; intros p; simpl.
  - intros [= <-]. apply rtc_refl.
  - destruct (pipeStep r i p) as [p1|] eqn:Hs; [| done]. simpl.
    intros Hr. eapply rtc_l; [by exists i | by apply IH].
Qed.

(** With nothing to receive the workers can only return. *)
Lemma idle_workers p :
  rtc (step r) (start r []) p ->
  chunks (sh p) = [] /\ out (sh p) = [] /\
  (worker1 p = WRecv \/ worker1 p = WDone) /\
  (worker2 p = WRecv \/ worker2 p = WDone).
Proof.
  revert p. apply rtc_ind_r.
  - simpl. tauto.
  - intros p1 p2 Hr Hs IH.
    destruct IH as (Hc & Ho & H1 & H2). destruct Hs as [[|] Hs].
    + unfold pipeStep in Hs. destruct H1 as [H1|H1]; rewrite H1 in Hs;
        simpl in Hs; [| done]. rewrite Hc in Hs. simpl in Hs.
      injection Hs as <-. simpl. tauto.
    + unfold pipeStep in Hs. destruct H2 as [H2|H2]; rewrite H2 in Hs;
        simpl in Hs; [| done]. rewrite Hc in Hs. simpl in Hs.
      injection Hs as <-. simpl. tauto.
Qed.

(** [ReadAll] sees its input only through what the producer sends. *)
Lemma ReadAll_simd_producer src src' o :
  SupportedCPU = true ->
  readAllStreaming_plan r = PlanSimd ->
  producer src = producer src' ->
  ReadAll r src o -> ReadAll r src' o.
Proof.
  intros Hcpu Hplan Hp HR.
  inversion HR; subst; try congruence;
    match goal with Hq : producer src = _ |- _ => rewrite Hp in Hq end.
  - eapply ReadAll_simd; eassumption.
  - eapply ReadAll_producerPanic; eassumption.
  - eapply ReadAll_stage1Panic; eassumption.
  - eapply ReadAll_workerPanic; eassumption.
Qed.

Lemma ReadAll_no_chunk src o :
  SupportedCPU = true ->
  readAllStreaming_plan r = PlanSimd ->
  producer src = Produced [] ->
  ReadAll r src o -> o = Returns [] None.
Proof.
  intros Hcpu Hplan Hp HR.
  inversion HR as [| | |bufchan infos p _ _ Hq Hs1 Hr Hcl
                   |bufchan msg _ _ Hq
                   |bufchan _ _ Hq Hs1
                   |bufchan infos p _ _ Hq Hs1 Hr Hpn];
    subst; try congruence; rewrite Hp in Hq; injection Hq as <-.
  - injection Hs1 as <-. by apply idle_workers in Hr as (_ & -> & _).
  - done.
  - injection Hs1 as <-. apply idle_workers in Hr as (_ & _ & H1 & H2).
    destruct Hpn as [Hpn|Hpn], H1 as [H1|H1], H2 as [H2|H2]; congruence.
Qed.

Lemma ReadAll_fallback_only src o :
  SupportedCPU = true ->
  readAllStreaming_plan r = PlanFallback ->
  ReadAll r src o -> o = returns (ReadAll_collect [fallback r src]).
Proof. intros Hcpu Hplan HR. inversion HR; subst; congruence. Qed.

End Runs.

(** ** Every run of the workers *)

Section EveryRun.

Context `{Externals}.
Variable r : Reader.

Lemma step_moves p p' : step r p p' <-> p' ∈ moves r p.
Proof.
  unfold step, moves. rewrite list_elem_of_omap. split.
  - intros [i Hi]. exists i. split; [| done].
    destruct i; [apply list_elem_of_here |].
    apply list_elem_of_further, list_elem_of_here.
  - intros (i & _ & Hi). by exists i.
Qed.

Lemma bind_empty {A B} (f : A -> list B) (l : list A) :
  l ≫= f = [] <-> forall x, x ∈ l -> f x = [].
Proof.
  induction l as [|a l IH].
  - split; [| done]. intros _ x Hx. by apply elem_of_nil in Hx.
  - rewrite bind_cons. split.
    + intros Hnil x Hx. apply app_eq_nil in Hnil as [Ha Hl].
      apply elem_of_cons in Hx as [->|Hx]; [done |].
      by apply (proj1 IH).
    + intros Hall. rewrite (Hall a) by apply list_elem_of_here. simpl.
      apply IH. intros x Hx. by apply Hall, list_elem_of_further.
Qed.

Lemma after_empty n p : after r n p = [] -> after r (S n) p = [].
Proof.
  revert p. induction n as [|n IH]; intros p; [done |].
  change (after r (S n) p) with (moves r p ≫= after r n).
  change (after r (S (S n)) p) with (moves r p ≫= after r (S n)).
  rewrite !bind_empty. intros Hall p' Hp'. by apply IH, Hall.
Qed.

Lemma after_empty_le n m p :
  (n <= m)%nat -> after r n p = [] -> after r m p = [].
Proof. induction 1; [done |]. intros Hn. by apply after_empty, IHle. Qed.

Lemma rtc_after p p' : rtc (step r) p p' -> exists n, p' ∈ after r n p.
Proof.
  induction 1 as [p|p p1 p' Hs _ [n IH]].
  - exists 0%nat. apply list_elem_of_here.
  - exists (S n). apply list_elem_of_bind. exists p1.
    split; [done |]. by apply step_moves.
Qed.

(** When no run has [n] steps, every run ends in fewer. *)
Lemma rtc_within n p p' :
  after r n p = [] -> rtc (step r) p p' -> p' ∈ within r n p.
Proof.
  intros Hn Hrun. apply rtc_after in Hrun as [k Hk].
  destruct (decide (k < n)%nat) as [Hlt|Hge].
  - apply list_elem_of_bind. exists k. split; [done |].
    apply elem_of_seq. lia.
  - rewrite (after_empty_le n k p) in Hk by (lia || done).
    by apply elem_of_nil in Hk.
Qed.

Lemma closed_closedb p : closed p -> closedb p = true.
Proof. unfold closedb, closed. by intros [-> ->]. Qed.

Lemma panicked_panickedb p : panicked p -> panickedb p = true.
Proof.
  unfold panickedb, panicked. intros [->| ->]; [done |].
  by destruct (worker1 p).
Qed.

(** The result of [ReadAll] when the runs of the workers can be told one
    by one. *)
Lemma ReadAll_every_run src bufchan infos n res o :
  SupportedCPU = true ->
  readAllStreaming_plan r = PlanSimd ->
  producer src = Produced bufchan ->
  stage1Streaming r bufchan = Some infos ->
  after r n (start r infos) = [] ->
  forallb (endsWith res) (within r n (start r infos)) = true ->
  ReadAll r src o -> o = returns res.
Proof.
  intros Hcpu Hplan Hp Hs1 Hn Hall HR.
  assert (Hend : forall p, rtc (step r) (start r infos) p ->
                           endsWith res p = true).
  { intros p Hr. rewrite forallb_forall in Hall. apply Hall.
    apply list_elem_of_In. by apply rtc_within. }
  inversion HR as [| | |bufchan' infos' p _ _ Hq Hs1' Hr Hcl
                   |bufchan' msg _ _ Hq
                   |bufchan' _ _ Hq Hs1'
                   |bufchan' infos' p _ _ Hq Hs1' Hr Hpn];
    subst; try congruence; rewrite Hp in Hq; simplify_eq.
  - apply Hend in Hr. unfold endsWith in Hr.
    apply andb_prop in Hr as [_ Hr].
    apply closed_closedb in Hcl. rewrite Hcl in Hr.
    apply bool_decide_eq_true in Hr. by rewrite Hr.
  - apply Hend in Hr. unfold endsWith in Hr.
    apply andb_prop in Hr as [Hr _].
    apply panicked_panickedb in Hpn. by rewrite Hpn in Hr.
Qed.

End EveryRun.

(** ** The three ways of [readAllStreaming] *)

Lemma plan_fallback_above_Latin1 r :
  readAllStreaming_plan r <> PlanInvalidDelim ->
  Comma r > Go.MaxLatin1 ->
  readAllStreaming_plan r = PlanFallback.
Proof.
  unfold readAllStreaming_plan, Go.MaxLatin1. intros Hv Hc.
  destruct (_ || _ || _); [done |].
  destruct (Z.eqb_spec (Comma r) 0); [lia |].
  destruct (Z.gtb_spec (Comma r) 255); [| lia].
  simpl. by rewrite orb_true_r.
Qed.

Lemma validDelim_Latin1 c :
  127 < c <= 255 -> validDelim c = true.
Proof.
  intros Hc. unfold validDelim, Go.ValidRune, Go.RuneError.
  repeat match goal with
         | |- context [?a =? ?b] => destruct (Z.eqb_spec a b); [lia |]
         end.
  destruct (Z.leb_spec 0 c); [| lia]. destruct (Z.ltb_spec c 55296); [| lia].
  done.
Qed.

Lemma plan_simd_Latin1 r :
  127 < Comma r <= 255 -> Comment r = 0 -> LazyQuotes r = false ->
  readAllStreaming_plan r = PlanSimd.
Proof.
  intros Hc Hm Hl. unfold readAllStreaming_plan, Go.MaxLatin1.
  rewrite (validDelim_Latin1 _ Hc), Hm, Hl.
  destruct (Z.eqb_spec (Comma r) 0); [lia |].
  destruct (Z.gtb_spec (Comma r) 255); [lia |]. done.
Qed.

Lemma chunkSize_value : chunkSize = 320000.
Proof. reflexivity. Qed.

Lemma closedb_closed p : closedb p = true -> closed p.
Proof.
  unfold closedb, closed. destruct (worker1 p), (worker2 p); done.
Qed.

Lemma simdRun_ReadAll `{Externals} r src schedule res :
  SupportedCPU = true ->
  readAllStreaming_plan r = PlanSimd ->
  simdRun r src schedule = Some res ->
  ReadAll r src (returns res).
Proof.
  intros Hcpu Hplan. unfold simdRun.
  destruct (producer src) as [bufchan|] eqn:Hp; [| done].
  destruct (stage1Streaming r bufchan) as [infos|] eqn:Hs; [| done]. simpl.
  destruct (run r schedule (start r infos)) as [p|] eqn:Hr; [| done]. simpl.
  destruct (closedb p) eqn:Hc; [| done]. intros [= <-].
  eapply ReadAll_simd; eauto using run_rtc, closedb_closed.
Qed.

(** ** [ensureFieldsPerRecord] *)

Lemma checkFields_spec records i fpr :
  match checkFields records i fpr with
  | Some e =>
      exists (k : nat) rec,
        records !! k = Some rec /\ Z.of_nat (length rec) <> fpr /\
        Forall (fun rec' => Z.of_nat (length rec') = fpr) (take k records) /\
        e = errorsNew (wrongFieldsMsg (i + Z.of_nat k + 1))
  | None => Forall (fun rec => Z.of_nat (length rec) = fpr) records
  end.
Proof.
  revert i. induction records as [|rec records IH]; intros i; simpl; [done |].
  destruct (Z.eqb_spec (Z.of_nat (length rec)) fpr) as [Heq|Hne]; simpl.
  - specialize (IH (i + 1)). destruct (checkFields records (i + 1) fpr).
    + destruct IH as (k & rec' & Hk & Hl & Hall & ->).
      exists (S k), rec'. simpl. split; [done |]. split; [done |].
      split; [by constructor |]. do 2 f_equal. lia.
    + by constructor.
  - exists 0%nat, rec. simpl. split; [done |]. split; [done |].
    split; [constructor |]. do 2 f_equal. lia.
Qed.


(** ** Errors on [out] *)

Lemma ReadAll_loop_error pre o post e records hash sequence :
  Forall noErr pre -> ro_err o = Some e ->
  ReadAll_loop (pre ++ o :: post) records hash sequence = ([], Some e).
Proof.
  revert records hash sequence.
  induction pre as [|x pre IH]; intros records hash sequence Hpre He; simpl.
  - by rewrite He.
  - apply Forall_cons in Hpre as [Hx Hpre]. unfold noErr in Hx. rewrite Hx.
    destruct (ro_sequence x >? sequence); [by apply IH |].
    destruct (flushHash _ _ _ _) as [[? ?] ?]. by apply IH.
Qed.

Lemma ReadAll_collect_error pre o post e :
  Forall noErr pre -> ro_err o = Some e ->
  ReadAll_collect (pre ++ o :: post) = ([], Some e).
Proof. apply ReadAll_loop_error. Qed.

(** ** What a worker sends when it gives a chunk up *)

#[local] Arguments collectRows : simpl never.
#[local] Arguments postProcess : simpl never.
#[local] Arguments checkFields : simpl never.

Section GiveUp.

Context `{Externals}.
Variable r : Reader.

Lemma stage2_parse_parsingError ci chunk masks input masksTail :
  splitRowOk r ci ->
  ci_chunk ci = Some chunk ->
  clipMasks (ci_masks ci) (ci_header ci) (ci_trailer ci) = Some masks ->
  payload chunk (ci_header ci) (ci_trailer ci) = Some input ->
  Go.slice masks (Z.shiftr (ci_header ci) 6 * 3)
           (Z.of_nat (length masks)) = Some masksTail ->
  s2_parsingError
    (stage2ParseBufferExStreaming input masksTail
                                  (Z.land (ci_header ci) 63)) = true ->
  stage2_parse r ci = Some (ParsedEmit (fallback r (bytes_NewReader input))).
Proof.
  intros Hok Hc Hm Hp Hs He. unfold stage2_parse, splitRowOk in *.
  destruct (Z.ltb_spec 0 (Z.of_nat (length (ci_splitRow ci)))) as [Hlt|Hge].
  - specialize (Hok Hlt).
    destruct (encodingCsv (ci_splitRow ci) (Comma r)) as [records err].
    simpl in Hok. subst err. rewrite Hc, Hm. simpl. rewrite Hp. simpl.
    rewrite Hs. simpl. by rewrite He.
  - rewrite Hc, Hm. simpl. rewrite Hp. simpl. rewrite Hs. simpl.
    by rewrite He.
Qed.

Lemma stage2_body_parsingError ci input fpr :
  stage2_parse r ci = Some (ParsedEmit (fallback r (bytes_NewReader input))) ->
  stage2_body r ci fpr = Some (fallback r (bytes_NewReader input), false, fpr).
Proof. intros Hp. unfold stage2_body. by rewrite Hp. Qed.


Lemma fallback_sequence src : ro_sequence (fallback r src) = -1.
Proof. unfold fallback. by destruct (csv_ReadAll _ _). Qed.

(** A worker that nothing interrupts goes through [stage2_body]. *)
Lemma worker_alone s ci rest o continue fpr' :
  chunks s = ci :: rest ->
  stage2_body r ci (fieldsPerRecord s) = Some (o, continue, fpr') ->
  exists n s',
    Nat.iter n (fun sw => sw ≫= fun '(s, w) => workerStep r s w)
             (Some (s, WRecv)) = Some (s', WSend o continue) /\
    chunks s' = rest /\ fieldsPerRecord s' = fpr' /\ out s' = out s.
Proof.
  intros Hc. unfold stage2_body.
  destruct (stage2_parse r ci) as [[o1|recs input|recs]|] eqn:Hp; [| | | done];
    simpl.
  - intros [= <- <- <-]. exists 1%nat. eexists. split.
    { simpl. rewrite Hc. unfold afterRecv. by rewrite Hp. }
    done.
  - unfold ensureFieldsPerRecord.
    destruct (fieldsPerRecord s =? 0) eqn:Hz.
    + destruct recs as [|first recs].
      * destruct (fieldsPerRecord s >? 0) eqn:Hg; simpl;
          intros [= <- <- <-]; exists 3%nat; eexists;
          (split; [simpl; rewrite Hc; unfold afterRecv; rewrite Hp; simpl;
                   rewrite Hz; simpl; rewrite Hg; reflexivity | done]).
      * destruct (Z.of_nat (length first) >? 0) eqn:Hg;
          [destruct (checkFields (first :: recs) 0 (Z.of_nat (length first)))
             eqn:Hk |];
          intros [= <- <- <-]; exists 4%nat; eexists;
          (split; [simpl; rewrite Hc; unfold afterRecv; rewrite Hp; simpl;
                   rewrite Hz; simpl; rewrite Hg, ?Hk; reflexivity | done]).
    + destruct (fieldsPerRecord s >? 0) eqn:Hg;
        [destruct (checkFields recs 0 (fieldsPerRecord s)) eqn:Hk |];
        intros [= <- <- <-]; exists 3%nat; eexists;
        (split; [simpl; rewrite Hc; unfold afterRecv; rewrite Hp; simpl;
                 rewrite Hz; simpl; rewrite Hg, ?Hk; reflexivity | done]).
  - intros [= <- <- <-]. exists 1%nat. eexists. split.
    { simpl. rewrite Hc. unfold afterRecv. by rewrite Hp. }
    done.
Qed.

End GiveUp.

Import StandIn.

(** ** The chunk ambiguity scanner *)

Lemma deriveChunkResult_classifies (i : chunkInput) :
  exists res, deriveChunkResult i = Some res /\
    (status res = Ambigous <->
       hasQuote (scannedPrefix (in_chunk i)) /\
       ~ hasQo (scannedPrefix (in_chunk i)) /\
       ~ hasOq (scannedPrefix (in_chunk i))) /\
    (status res = Unambigous <->
       ~ hasQuote (scannedPrefix (in_chunk i)) \/
       hasQo (scannedPrefix (in_chunk i)) \/
       hasOq (scannedPrefix (in_chunk i))).
Proof.
  unfold deriveChunkResult. rewrite <- scannedPrefix_eq.
  set (p := scannedPrefix (in_chunk i)).
  destruct (containsQuote p) eqn:Hc.
  - assert (p <> []) as Hne.
    { intros E. rewrite E in Hc. discriminate. }
    destruct (detectQoPattern_hasQo p Hne) as (q & Hq & Hqs).
    destruct (detectOqPattern_hasOq p Hne) as (o & Ho & Hos).
    unfold determineAmbiguity. rewrite Hq, Ho. simpl.
    eexists; split; [reflexivity |]. simpl.
    apply containsQuote_spec in Hc.
    destruct q, o; simpl; intuition congruence.
  - simpl. eexists; split; [reflexivity |]. simpl.
    assert (~ hasQuote p) as Hnq.
    { intros Hq. apply containsQuote_spec in Hq. congruence. }
    intuition congruence.
Qed.

(** C8 (as amended).  The status that [deriveChunkResult] gives a chunk
    is decided on its first [PREFIX_SIZE] bytes: the chunk is [Ambigous]
    exactly when that prefix holds a quote byte but neither a
    quote-then-other nor an other-then-quote pattern, and [Unambigous]
    exactly when it holds no quote byte at all, or one of the two
    patterns.  [determineAmbiguity] on its own, on a non-empty prefix,
    answers [true] exactly when neither pattern occurs. *)
Theorem C8_ambiguity_classification (i : chunkInput) :
  (exists res, deriveChunkResult i = Some res /\
     (status res = Ambigous <->
        hasQuote (scannedPrefix (in_chunk i)) /\
        ~ hasQo (scannedPrefix (in_chunk i)) /\
        ~ hasOq (scannedPrefix (in_chunk i))) /\
     (status res = Unambigous <->
        ~ hasQuote (scannedPrefix (in_chunk i)) \/
        hasQo (scannedPrefix (in_chunk i)) \/
        hasOq (scannedPrefix (in_chunk i)))) /\
  (forall p : list byte, p <> [] ->
     exists b, determineAmbiguity p = Some b /\
               (b = true <-> ~ hasQo p /\ ~ hasOq p)).
Proof.
  split; [apply deriveChunkResult_classifies | apply determineAmbiguity_spec].
Qed.

(** C8, counterexample to the claim as stated: the prefix [abc] holds
    neither pattern, and its chunk is classified [Unambigous]. *)
Lemma C8_counterexample :
  ~ hasQo (scannedPrefix (bytes "abc")) /\
  ~ hasOq (scannedPrefix (bytes "abc")) /\
  exists res,
    deriveChunkResult {| in_part := 0; in_chunk := bytes "abc" |} = Some res /\
    status res = Unambigous.
Proof.
  split; [| split].
  - intros (i & o & Hi & _). by destruct i as [|[|[|i]]].
  - intros (i & o & _ & Hi & _). by destruct i as [|[|[|i]]].
  - eexists. split; reflexivity.
Qed.

(** ** The producer *)

Lemma producer_loop_chunk_sizes chunk br bufchan :
  source_ok br -> Z.of_nat (length chunk) <= chunkSize ->
  producer_loop chunk br = Produced bufchan ->
  Forall (fun c => Z.of_nat (length (buf c)) <= chunkSize) bufchan.
Proof.
  revert chunk bufchan. induction br as [|[b err] br IH];
    intros chunk bufchan Hok Hc; simpl.
  - intros [= <-]. constructor; [done | constructor].
  - apply Forall_cons in Hok as [Hb Hok]. simpl in Hb.
    destruct err as [e|].
    + destruct (is_EOF e).
      * destruct (0 <? Z.of_nat (length b)); [done |].
        intros [= <-]. constructor; [done | constructor].
      * intros [= <-]. constructor; [done | constructor].
    + destruct (producer_loop b br) as [l|] eqn:Hl; simpl; [| done].
      intros [= <-]. constructor; [done |]. exact (IH b l Hok Hb Hl).
Qed.

Lemma producer_chunk_sizes br bufchan :
  source_ok br -> producer br = Produced bufchan ->
  Forall (fun c => Z.of_nat (length (buf c)) <= chunkSize) bufchan.
Proof.
  intros Hok. destruct br as [|[b [e|]] br]; simpl.
  - intros [= <-]. constructor.
  - intros [= <-]. constructor.
  - apply Forall_cons in Hok as [Hb Hok]. by apply producer_loop_chunk_sizes.
Qed.

(** C9 (as amended).  The producer reads into buffers of [chunkSize] =
    320000 bytes; this is a multiple of 64 as it stands (5000 times 64),
    so the rounding leaves it unchanged; every chunk it sends holds at
    most that many bytes. *)
Theorem C9_chunk_size :
  chunkSize = 320000 /\ chunkSize = 64 * 5000 /\ chunkSize mod 64 = 0 /\
  masksSize = 15006 /\
  forall br bufchan,
    source_ok br -> producer br = Produced bufchan ->
    Forall (fun c => Z.of_nat (length (buf c)) <= chunkSize) bufchan.
Proof.
  repeat split; try reflexivity. apply producer_chunk_sizes.
Qed.

(** C9, counterexample to the claim as stated: the chunk size is not
    320 KiB. *)
Lemma C9_counterexample : chunkSize <> 320 * 1024 /\ chunkSize <> 327680.
Proof. split; discriminate. Qed.

(** C10.  A source whose second read delivers a byte together with
    [io.EOF] makes the producer panic with "last buffer should be
    empty", and with it [ReadAll]; so does every source whose first
    failing read comes after a successful one and delivers bytes with
    [io.EOF]; a source that signals the end of input by reads without
    bytes never does. *)
Theorem C10_producer_panics_on_data_with_EOF `{Externals} (r : Reader) :
  (source_ok Scenario.dataWithEOF /\
   producer Scenario.dataWithEOF
   = ProducerPanic [] "last buffer should be empty" /\
   (SupportedCPU = true -> readAllStreaming_plan r = PlanSimd ->
    ReadAll r Scenario.dataWithEOF Crashes /\
    forall o, ReadAll r Scenario.dataWithEOF o -> o = Crashes)) /\
  (forall c pre b rest,
      Forall noError pre -> b <> [] ->
      exists sent,
        producer ((c, None) :: pre ++ (b, Some io_EOF) :: rest)
        = ProducerPanic sent "last buffer should be empty") /\
  (forall br, eof_by_empty_read br ->
              exists bufchan, producer br = Produced bufchan).
Proof.
  split; [| split].
  - split; [| split].
    + repeat constructor; simpl; unfold chunkSize; simpl; lia.
    + reflexivity.
    + intros Hcpu Hplan. split.
      * eapply ReadAll_producerPanic; [done | done | reflexivity].
      * intros o HR. inversion HR; subst; try congruence; discriminate.
  - intros c pre b rest Hpre Hb. simpl. by apply producer_loop_panics.
  - apply producer_no_panic.
Qed.

(** ** The three ways of [readAllStreaming] *)

(** C7 (as amended).  For a valid configuration whose delimiter is
    above [unicode.MaxLatin1] (U+00FF) the SIMD path is not run: the
    only output is the reference parser's result on the whole stream.
    A delimiter in U+0080..U+00FF, with no comment rune and without lazy
    quotes, takes the SIMD path. *)
Theorem C7_fallback_above_Latin1 `{Externals} (r : Reader) (src : source)
    (o : outcome) :
  readAllStreaming_plan r <> PlanInvalidDelim ->
  Comma r > Go.MaxLatin1 ->
  SupportedCPU = true ->
  ReadAll r src o ->
  readAllStreaming_plan r = PlanFallback /\
  o = returns (ReadAll_collect [fallback r src]) /\
  forall r' : Reader,
    127 < Comma r' <= Go.MaxLatin1 -> Comment r' = 0 ->
    LazyQuotes r' = false ->
    readAllStreaming_plan r' = PlanSimd.
Proof.
  intros Hv Hc Hcpu HR.
  pose proof (plan_fallback_above_Latin1 r Hv Hc) as Hplan.
  split; [done |]. split; [by apply ReadAll_fallback_only |].
  apply plan_simd_Latin1.
Qed.

Lemma C7_witness :
  Comma Scenario.euroReader > Go.MaxLatin1 /\
  ReadAll Scenario.euroReader Scenario.unevenSource
    (returns (ReadAll_collect
       [fallback Scenario.euroReader Scenario.unevenSource])) /\
  readAllStreaming_plan Scenario.euroReader = PlanFallback.
Proof.
  assert (ReadAll Scenario.euroReader Scenario.unevenSource
            (returns (ReadAll_collect
               [fallback Scenario.euroReader Scenario.unevenSource]))) as HR
    by (apply ReadAll_fallback; reflexivity).
  split; [reflexivity |]. split; [exact HR |].
  refine (proj1 (C7_fallback_above_Latin1 Scenario.euroReader
                   Scenario.unevenSource _ _ _ _ HR));
    [discriminate | reflexivity | reflexivity].
Defined.

(** C7, counterexample to the claim as stated: the delimiter U+00E9
    lies outside ASCII and the SIMD path is taken. *)
Lemma C7_counterexample :
  Comma Scenario.latin1Reader > 127 /\
  readAllStreaming_plan Scenario.latin1Reader = PlanSimd.
Proof. split; reflexivity. Qed.

(** Exhibits the run of [ReadAll] that a schedule produces. *)
Ltac by_schedule r src schedule :=
  match goal with
  | |- ReadAll _ _ (Returns ?a ?b) =>
      change (Returns a b) with (returns (a, b));
      apply (simdRun_ReadAll r src schedule); reflexivity
  end.

(** ** Read errors *)

(** C3 (as amended).  A read that fails with an error other than
    [io.EOF] ends the stream where it happens, as the end of input does:
    the producer sends what the earlier reads delivered and drops the
    bytes of the failing read, and [ReadAll] does what it does on the
    input cut there; the error reaches nobody. *)
Theorem C3_read_error_ends_stream `{Externals} (r : Reader)
    (pre : source) (b : list byte) (e : error) (rest : source) (o : outcome) :
  Forall noError pre ->
  is_EOF e = false ->
  SupportedCPU = true ->
  readAllStreaming_plan r = PlanSimd ->
  producer (pre ++ (b, Some e) :: rest) = producer pre /\
  (ReadAll r (pre ++ (b, Some e) :: rest) o <-> ReadAll r pre o).
Proof.
  intros Hpre He Hcpu Hplan.
  pose proof (producer_stops_at_error pre b e rest Hpre He) as Hp.
  split; [done |]. split; by apply ReadAll_simd_producer.
Qed.

Lemma C3_witness :
  ReadAll (newReader 0) Scenario.failingSource2 (Returns [["a"; "b"]] None)
  <-> ReadAll (newReader 0) [(bytes "a,b" ++ nl, None)]
              (Returns [["a"; "b"]] None).
Proof.
  refine (proj2 (C3_read_error_ends_stream (newReader 0)
                   [(bytes "a,b" ++ nl, None)] []
                   (errorsNew "read failed") [] _ _ _ _ _));
    [repeat constructor | reflexivity | reflexivity | reflexivity].
Defined.

(** C3, counterexample to the claim as stated: when the first read
    fails, every run of [ReadAll] returns no record and no error; when
    the second read fails, a run returns the records read so far and no
    error. *)
Lemma C3_counterexample :
  ReadAll (newReader 0) Scenario.failingSource (Returns [] None) /\
  (forall o, ReadAll (newReader 0) Scenario.failingSource o ->
             o = Returns [] None) /\
  ReadAll (newReader 0) Scenario.failingSource2 (Returns [["a"; "b"]] None).
Proof.
  split; [| split].
  - by_schedule (newReader 0) Scenario.failingSource [W1; W2].
  - intros o. by apply ReadAll_no_chunk.
  - by_schedule (newReader 0) Scenario.failingSource2 [W1; W1; W1; W1; W1; W1; W2].
Qed.

(** ** Reassembly *)

(** Whatever the order in which the outputs numbered 0, 1, ... arrive
    on [out], and provided no other output arrives, [ReadAll] returns
    their records in the order of the numbers; and the blocks that
    successive calls of [nextblock] load carry strictly increasing
    sequence numbers, each block being an output received under that
    number. *)
Lemma reassembly_in_sequence_order (blocks : list (list (list string)))
    (out : list recordsOutput) (calls : nat) :
  out ≡ₚ imap numbered blocks ->
  ReadAll_collect out = (concat blocks, None) /\
  StronglySorted Z.lt (map fst (blocksRead calls (readStart out))) /\
  Forall (fun b => exists o, o ∈ out /\ ro_sequence o = fst b /\
                             ro_records o = snd b)
         (blocksRead calls (readStart out)).
Proof.
  intros Hperm. split; [by apply ReadAll_collect_permutation |].
  assert (keyed (readStart out)) as Hkey.
  { intros k o Hk. simpl in Hk. by rewrite lookup_empty in Hk. }
  destruct (blocksRead_ascending calls _ Hkey) as [Hs Hall].
  split; [done |]. eapply Forall_impl; [apply Hall |].
  intros b (_ & o & Hseq & Hrec & [Hin|Hin]).
  - by exists o.
  - simpl in Hin. by rewrite lookup_empty in Hin.
Qed.

Example reassembly_of_two_blocks :
  ReadAll_collect [numbered 1 [["c"; "d"]]; numbered 0 [["a"; "b"]]]
  = ([["a"; "b"]; ["c"; "d"]], None).
Proof.
  refine (proj1 (reassembly_in_sequence_order
                   [[["a"; "b"]]; [["c"; "d"]]]
                   [numbered 1 [["c"; "d"]]; numbered 0 [["a"; "b"]]]
                   2 _)).
  apply perm_swap.
Qed.

(** C2, the code at the failing input: with [FieldsPerRecord = 0], two
    chunks of one row of three fields and a third of one row of two, a
    schedule puts on [out] the output numbered 1, then the third chunk's
    records under the number -1, then the output numbered 0; [ReadAll]
    appends the second on arrival and so returns the records of the
    output numbered 1 before those of the output numbered 0. *)
Theorem C2_order_lost_after_fallback :
  simdRun (newReader 0) Scenario.threeChunkSource
          [W1; W2; W2; W2; W2; W2; W2; W2; W2; W2; W1; W1; W1; W1]
  = Some ([["1"; "2"]; ["dd"; "ee"; "f"]; ["aa"; "bb"; "c"]], None) /\
  ReadAll (newReader 0) Scenario.threeChunkSource
    (Returns [["1"; "2"]; ["dd"; "ee"; "f"]; ["aa"; "bb"; "c"]] None) /\
  ReadAll_collect
    [ {| ro_sequence := 1; ro_records := [["dd"; "ee"; "f"]];
         ro_err := None |};
      {| ro_sequence := -1; ro_records := [["1"; "2"]]; ro_err := None |};
      {| ro_sequence := 0; ro_records := [["aa"; "bb"; "c"]];
         ro_err := None |} ]
  = ([["1"; "2"]; ["dd"; "ee"; "f"]; ["aa"; "bb"; "c"]], None).
Proof.
  split; [reflexivity |]. split; [| reflexivity].
  by_schedule (newReader 0) Scenario.threeChunkSource
    [W1; W2; W2; W2; W2; W2; W2; W2; W2; W2; W1; W1; W1; W1].
Qed.

(** ** Chunks that a worker gives up *)

(** A quoted field that is closed is no parsing error: on the input of
    the rows [a,b], [c,d] and [x,y] with the x in quotes, read in two
    chunks, every run of [ReadAll] returns the three records in the order
    of the input. *)
Lemma quoted_field_every_run (o : outcome) :
  ReadAll (newReader (-1)) Scenario.quotedSource o ->
  o = Returns [["a"; "b"]; ["c"; "d"]; ["x"; "y"]] None.
Proof.
  intros Ho.
  change (Returns [["a"; "b"]; ["c"; "d"]; ["x"; "y"]] None)
    with (returns ([["a"; "b"]; ["c"; "d"]; ["x"; "y"]], None)).
  eapply (ReadAll_every_run (newReader (-1)) Scenario.quotedSource
            Scenario.quotedBufchan
            [Scenario.firstInfo; Scenario.quotedInfo] 11);
    [reflexivity | reflexivity | reflexivity | reflexivity
     | vm_compute; reflexivity | vm_compute; reflexivity | exact Ho].
Qed.

(** C1 (as amended).  When Stage 2 reports a parsing error on a chunk,
    what the worker sends for the chunk is the result of the reference
    parser, configured like the reader, on the bytes that had been handed
    to Stage 2: that parser's records and its error.  If it reports an
    error, and no earlier output on [out] carries one, [ReadAll] returns
    that error and no record at all. *)
Theorem C1_parsing_error_surfaced `{Externals} (r : Reader) (ci : chunkInfo)
    (chunk : list byte) (masks : list Z) (input : list byte)
    (masksTail : list Z) (fpr : Z) :
  splitRowOk r ci ->
  ci_chunk ci = Some chunk ->
  clipMasks (ci_masks ci) (ci_header ci) (ci_trailer ci) = Some masks ->
  payload chunk (ci_header ci) (ci_trailer ci) = Some input ->
  Go.slice masks (Z.shiftr (ci_header ci) 6 * 3)
           (Z.of_nat (length masks)) = Some masksTail ->
  s2_parsingError
    (stage2ParseBufferExStreaming input masksTail
                                  (Z.land (ci_header ci) 63)) = true ->
  exists o continue,
    stage2_body r ci fpr = Some (o, continue, fpr) /\
    (ro_records o, ro_err o)
    = csv_ReadAll (readerConfig r) (bytes_NewReader input) /\
    forall pre post e,
      Forall noErr pre ->
      ro_err o = Some e ->
      ReadAll_collect (pre ++ o :: post) = ([], Some e).
Proof.
  intros Hok Hc Hm Hp Hs He.
  exists (fallback r (bytes_NewReader input)), false. split; [| split].
  - apply stage2_body_parsingError. by eapply stage2_parse_parsingError.
  - unfold fallback, readerConfig. by destruct (csv_ReadAll _ _).
  - intros pre post e. apply ReadAll_collect_error.
Qed.

Lemma C1_witness :
  clipMasks (ci_masks Scenario.openQuoteInfo)
            (ci_header Scenario.openQuoteInfo)
            (ci_trailer Scenario.openQuoteInfo) = Some [8; 0; 16] /\
  s2_parsingError
    (stage2ParseBufferExStreaming Scenario.openQuoteChunk [8; 0; 16] 3)
  = true /\
  exists o continue,
    stage2_body (newReader (-1)) Scenario.openQuoteInfo (-1)
    = Some (o, continue, -1) /\
    (ro_records o, ro_err o)
    = csv_ReadAll (readerConfig (newReader (-1)))
                  (bytes_NewReader Scenario.openQuoteChunk) /\
    forall pre post e,
      Forall noErr pre ->
      ro_err o = Some e ->
      ReadAll_collect (pre ++ o :: post) = ([], Some e).
Proof.
  split; [reflexivity |]. split; [reflexivity |].
  refine (C1_parsing_error_surfaced (newReader (-1))
            Scenario.openQuoteInfo Scenario.openQuoteChunk [8; 0; 16]
            Scenario.openQuoteChunk [8; 0; 16] (-1) _ _ _ _ _ _);
    [intros _; reflexivity | reflexivity | reflexivity | reflexivity
     | reflexivity | reflexivity].
Defined.

(** C1, counterexample to the claim as stated: an input of three rows,
    [a,b], [c,d] and a row that opens a quoted field and never ends it,
    read in two chunks.  Stage 2 parses the first chunk into the record
    [a b] and reports a parsing error on the second, whose payload ends
    inside the quoted field; the reference parser reports an error on
    that payload too, and every run of [ReadAll] returns this error and
    no record: the consumer does not see the record of the first chunk,
    let alone the list it would have seen had Stage 2 succeeded. *)
Lemma C1_counterexample :
  producer Scenario.openQuoteSource = Produced Scenario.openQuoteBufchan /\
  stage1Streaming (newReader (-1)) Scenario.openQuoteBufchan
  = Some [Scenario.firstInfo; Scenario.openQuoteInfo] /\
  stage2_body (newReader (-1)) Scenario.firstInfo (-1)
  = Some ({| ro_sequence := 0; ro_records := [["a"; "b"]];
             ro_err := None |}, true, -1) /\
  s2_parsingError
    (stage2ParseBufferExStreaming Scenario.openQuoteChunk [8; 0; 16] 3)
  = true /\
  exists e,
    csv_ReadAll (readerConfig (newReader (-1)))
                (bytes_NewReader Scenario.openQuoteChunk) = ([], Some e) /\
    ReadAll (newReader (-1)) Scenario.openQuoteSource
            (Returns [] (Some e)) /\
    forall o,
      ReadAll (newReader (-1)) Scenario.openQuoteSource o ->
      o = Returns [] (Some e).
Proof.
  split; [reflexivity |]. split; [reflexivity |].
  split; [reflexivity |]. split; [reflexivity |].
  exists (csv_ParseError 2 errQuoteMsg).
  split; [reflexivity |]. split.
  - by_schedule (newReader (-1)) Scenario.openQuoteSource
      [W1; W2; W2; W1; W1; W1; W1].
  - intros o Ho.
    change (Returns [] (Some (csv_ParseError 2 errQuoteMsg)))
      with (returns ([], Some (csv_ParseError 2 errQuoteMsg))).
    eapply (ReadAll_every_run (newReader (-1)) Scenario.openQuoteSource
              Scenario.openQuoteBufchan
              [Scenario.firstInfo; Scenario.openQuoteInfo] 8);
      [reflexivity | reflexivity | reflexivity | reflexivity
       | vm_compute; reflexivity | vm_compute; reflexivity | exact Ho].
Qed.




(** The input of the specification's scenario read as one chunk: the
    error names line 2. *)
Lemma shortRow_one_chunk :
  ReadAll (newReader 3) Scenario.shortRowSource1
    (Returns [] (Some (csv_ParseError 2 "wrong number of fields"))).
Proof.
  by_schedule (newReader 3) Scenario.shortRowSource1 [W1; W1; W1; W1; W2].
Qed.

(** C4, the code at the failing input: with [FieldsPerRecord = 0], rows
    of three fields in the first chunk and of two in the second, one
    schedule of the two workers makes [ReadAll] return the records in
    the order of the input and another in the opposite order, both
    without an error, where the reference parser reports the row on
    line 2. *)
Theorem C4_schedule_changes_result :
  ReadAll (newReader 0) Scenario.unevenSource
    (Returns [["aa"; "bb"; "c"]; ["1"; "2"]] None) /\
  ReadAll (newReader 0) Scenario.unevenSource
    (Returns [["1"; "2"]; ["aa"; "bb"; "c"]] None) /\
  csv_ReadAll (readerConfig (newReader 0)) Scenario.unevenSource
  = ([], Some (csv_ParseError 2 "wrong number of fields")).
Proof.
  split; [| split; [| reflexivity]].
  - by_schedule (newReader 0) Scenario.unevenSource [W1; W2; W2; W2; W2; W2; W1; W1; W1; W2].
  - by_schedule (newReader 0) Scenario.unevenSource [W1; W2; W1; W1; W1; W2; W2; W2; W1; W1].
Qed.

Lemma header_split (h : Z) : Z.shiftr h 6 * 64 + Z.land h 63 = h.
Proof.
  rewrite Z.shiftr_div_pow2 by lia. change 63 with (Z.ones 6).
  rewrite Z.land_ones by lia. change (2 ^ 6) with 64.
  pose proof (Z.div_mod h 64). lia.
Qed.

(** C6 (as amended).  For the chunks that Stage 1 sends: the split row of a chunk is
    the trailer of the chunk before it followed by its own header (and
    the header alone for the first chunk); Stage 2 is given the bytes
    between the start of the 64-byte window in which the header ends and
    the start of the trailer, with masks in which the bits of the header
    bytes of that window are cleared, as are the bits above the trailer
    boundary in the window the code addresses for it; and the records of
    the split row, parsed by the reference parser, come first in what
    the worker passes on.  The rows named by [getPostProcRows] are taken
    to be rows of the chunk ([start >= 0]). *)
Theorem C6_chunk_boundaries `{Externals} (r : Reader)
    (bufchan : list chunkIn) (infos : list chunkInfo) :
  stage1Streaming r bufchan = Some infos ->
  (forall chunk postProc tail,
      Forall (fun p => 0 <= ppr_start p)
             (getPostProcRows chunk postProc tail)) ->
  length infos = length bufchan /\
  (forall c info,
      bufchan !! 0%nat = Some c -> infos !! 0%nat = Some info ->
      ci_splitRow info = headerBytes info c) /\
  (forall (k : nat) c c' info info',
      bufchan !! k = Some c -> bufchan !! S k = Some c' ->
      infos !! k = Some info -> infos !! S k = Some info' ->
      ci_splitRow info' = trailerBytes info c ++ headerBytes info' c') /\
  (forall ci chunk masks input,
      ci ∈ infos ->
      ci_chunk ci = Some chunk ->
      clipMasks (ci_masks ci) (ci_header ci) (ci_trailer ci) = Some masks ->
      payload chunk (ci_header ci) (ci_trailer ci) = Some input ->
      chunk = take (Z.to_nat (Z.shiftr (ci_header ci) 6 * 64)) chunk
              ++ input
              ++ drop (Z.to_nat (Z.of_nat (length chunk) - ci_trailer ci))
                      chunk /\
      ci_header ci = Z.shiftr (ci_header ci) 6 * 64 + Z.land (ci_header ci) 63 /\
      (forall j b, 0 <= j < 3 -> 0 <= b < Z.land (ci_header ci) 63 ->
         exists m,
           masks !! Z.to_nat (Z.shiftr (ci_header ci) 6 * 3 + j) = Some m /\
           Z.testbit m b = false) /\
      (forall j b, 0 <= j < 3 -> 64 - Z.land (ci_trailer ci) 63 <= b < 64 ->
         exists m,
           masks !! Z.to_nat (Z.of_nat (length (ci_masks ci))
                              - (Z.shiftr (ci_trailer ci) 6 + 1) * 3 + j)
           = Some m /\
           Z.testbit m b = false)) /\
  (forall ci,
      ci ∈ infos ->
      (forall simdrecords input,
          stage2_parse r ci = Some (ParsedCheck simdrecords input) ->
          take (length (splitRecords r ci)) simdrecords = splitRecords r ci) /\
      (forall simdrecords,
          stage2_parse r ci = Some (ParsedSkip simdrecords) ->
          ci_chunk ci = None /\ simdrecords = splitRecords r ci)).
Proof.
  intros Hs Hwf. unfold stage1Streaming in Hs.
  pose proof (stage1Streaming_loop_joined r _ _ _ _ _ Hs) as HJ.
  split; [by eapply stage1Streaming_loop_length |].
  split; [| split; [| split]].
  - intros c info Hc Hi.
    destruct bufchan as [|c0 bufchan]; [done |].
    destruct infos as [|i0 infos]; [done |].
    simpl in *. simplify_eq. by destruct HJ as [-> _].
  - intros k c c' info info'. by apply (joined_lookup [] bufchan infos).
  - intros ci chunk masks input _ Hc Hm Hp.
    apply payload_spec in Hp as (_ & _ & _ & Hparts).
    destruct (clipMasks_clears _ _ _ _ Hm) as [Hlow Hhigh].
    split; [done |]. split; [by rewrite header_split |]. done.
  - intros ci _. split.
    + intros simdrecords input. by apply stage2_parse_splitRecords_first.
    + intros simdrecords. apply stage2_parse_skip.
Qed.

Lemma C6_witness :
  stage1Streaming (newReader (-1)) Scenario.quotedBufchan
  = Some [Scenario.firstInfo; Scenario.quotedInfo] /\
  ci_splitRow Scenario.quotedInfo
  = trailerBytes Scenario.firstInfo
                 {| buf := bytes "a,b" ++ nl; last := false |}
    ++ headerBytes Scenario.quotedInfo
                   {| buf := Scenario.quotedChunk; last := true |}.
Proof.
  split; [reflexivity |].
  refine (proj1 (proj2 (proj2 (C6_chunk_boundaries (newReader (-1))
                   Scenario.quotedBufchan
                   [Scenario.firstInfo; Scenario.quotedInfo] _ _)))
            0%nat _ _ _ _ _ _ _ _);
    [reflexivity | intros; constructor | reflexivity | reflexivity
     | reflexivity | reflexivity].
Defined.

(** C6, counterexample to the claim as stated: the trailer of this chunk
    is its last 64 bytes, byte 65 is a comma, and after the mask
    assignments of the worker the bit of byte 65 (bit 1 of the second
    word of the second window) is still set in the masks that Stage 2 is
    given; the bytes themselves are cut off the payload. *)
Lemma C6_counterexample :
  stage1Streaming (newReader 0)
                  [ {| buf := Scenario.longTrailerChunk; last := false |} ]
  = Some [Scenario.longTrailerInfo] /\
  Scenario.longTrailerChunk !! 65%nat = Some commaByte /\
  Z.of_nat (length Scenario.longTrailerChunk)
  - ci_trailer Scenario.longTrailerInfo <= 65 /\
  clipMasks (ci_masks Scenario.longTrailerInfo)
            (ci_header Scenario.longTrailerInfo)
            (ci_trailer Scenario.longTrailerInfo)
  = Some [8; 2; 0; 0; 2; 0] /\
  Go.slice [8; 2; 0; 0; 2; 0] 0 6 = Some [8; 2; 0; 0; 2; 0] /\
  Z.testbit 2 1 = true /\
  payload Scenario.longTrailerChunk 0 64
  = Some (take 64 Scenario.longTrailerChunk).
Proof. repeat split; try reflexivity. simpl. lia. Qed.

(* ===================================================================== *)
(** * Further properties *)

(** ** [deriveChunkResult]: widow and orphan *)

Lemma rev_reverse {A} (l : list A) : rev l = reverse l.
Proof. unfold reverse. apply rev_alt. Qed.


Lemma widowScan_bounds (chunk : list byte) :
  0 <= widowScan chunk <= Z.of_nat (length chunk).
Proof.
  induction chunk as [|c rest IH]; simpl; [lia|].
  destruct (Byte.eqb c newlineByte); lia.
Qed.

Lemma widowScan_prefix (chunk : list byte) :
  Forall (fun c => c <> newlineByte) (take (Z.to_nat (widowScan chunk)) chunk).
Proof.
  induction chunk as [|c rest IH]; simpl; [constructor|].
  destruct (Byte.eqb c newlineByte) eqn:E; simpl; [constructor|].
  pose proof (widowScan_bounds rest).
  replace (Z.to_nat (1 + widowScan rest))
    with (S (Z.to_nat (widowScan rest))) by lia.
  simpl. constructor; [|exact IH].
  intros ->. rewrite (proj2 (byte_eqb_eq _ _) eq_refl) in E. discriminate.
Qed.

Lemma widowScan_newline (chunk : list byte) :
  widowScan chunk < Z.of_nat (length chunk) ->
  chunk !! Z.to_nat (widowScan chunk) = Some newlineByte.
Proof.
  induction chunk as [|c rest IH]; simpl; [lia|].
  destruct (Byte.eqb c newlineByte) eqn:E; simpl.
  - intros _. apply byte_eqb_eq in E. by subst.
  - intros Hlt. pose proof (widowScan_bounds rest).
    replace (Z.to_nat (1 + widowScan rest))
      with (S (Z.to_nat (widowScan rest))) by lia.
    simpl. apply IH. lia.
Qed.

Lemma widowScan_all (chunk : list byte) :
  widowScan chunk = Z.of_nat (length chunk) <-> newlineByte ∉ chunk.
Proof.
  split.
  - intros Heq Hin.
    pose proof (widowScan_prefix chunk) as Hp.
    rewrite Heq, Nat2Z.id, firstn_all in Hp.
    rewrite Forall_forall in Hp. by apply (Hp _ Hin).
  - intros Hnot.
    destruct (Z.eq_dec (widowScan chunk) (Z.of_nat (length chunk)))
      as [|Hne]; [done|].
    pose proof (widowScan_bounds chunk).
    exfalso. apply Hnot.
    eapply list_elem_of_lookup_2. apply widowScan_newline. lia.
Qed.

Lemma widowScan_app (a b : list byte) :
  (newlineByte ∈ a -> widowScan (a ++ b) = widowScan a) /\
  (newlineByte ∉ a ->
   widowScan (a ++ b) = Z.of_nat (length a) + widowScan b).
Proof.
  induction a as [|c a [IH1 IH2]]; simpl.
  - split; [set_solver|]. intros _. lia.
  - destruct (Byte.eqb c newlineByte) eqn:E.
    + apply byte_eqb_eq in E. subst. split; [done|set_solver].
    + assert (c <> newlineByte).
      { intros ->. rewrite (proj2 (byte_eqb_eq _ _) eq_refl) in E.
        discriminate. }
      split.
      * intros [?|?]%elem_of_cons; [congruence|]. by rewrite IH1.
      * intros Hnot. rewrite IH2; [lia|set_solver].
Qed.

Lemma deriveChunkResult_fields (i : chunkInput) (res : chunkResult) :
  deriveChunkResult i = Some res ->
  part res = in_part i /\
  widowSize res = widowScan (in_chunk i) /\
  orphanSize res = widowScan (rev (in_chunk i)).
Proof.
  unfold deriveChunkResult. intros Hres.
  apply bind_Some in Hres as (st & _ & [= <-]). done.
Qed.

(** X1 (widow).  [deriveChunkResult] returns on every input, and the widow
    it reports is what precedes the first newline of the chunk:
    [widowSize] is at most the length of the chunk, none of the first
    [widowSize] bytes is a newline, and the byte at index [widowSize], if
    there is one, is a newline. *)
Theorem deriveChunkResult_widow (i : chunkInput) :
  exists res,
    deriveChunkResult i = Some res /\
    part res = in_part i /\
    0 <= widowSize res <= Z.of_nat (length (in_chunk i)) /\
    Forall (fun c => c <> newlineByte)
           (take (Z.to_nat (widowSize res)) (in_chunk i)) /\
    (widowSize res < Z.of_nat (length (in_chunk i)) ->
     in_chunk i !! Z.to_nat (widowSize res) = Some newlineByte).
Proof.
  destruct (deriveChunkResult_status i) as (res & Hres & _).
  exists res. split; [done|].
  destruct (deriveChunkResult_fields i res Hres) as (-> & -> & _).
  split; [done|]. split; [apply widowScan_bounds|].
  split; [apply widowScan_prefix|apply widowScan_newline].
Qed.

(** [widowScan] on the reversed chunk: what follows the last newline. *)
Lemma orphanScan_spec (chunk : list byte) :
  let n := length chunk in
  let o := widowScan (rev chunk) in
  0 <= o <= Z.of_nat n /\
  Forall (fun c => c <> newlineByte) (drop (n - Z.to_nat o) chunk) /\
  (o < Z.of_nat n ->
   chunk !! (n - 1 - Z.to_nat o)%nat = Some newlineByte).
Proof.
  cbn zeta.
  pose proof (widowScan_bounds (rev chunk)) as Hb.
  pose proof (widowScan_prefix (rev chunk)) as Hp.
  pose proof (widowScan_newline (rev chunk)) as Hn.
  rewrite length_rev in Hb, Hn.
  rewrite rev_reverse in *.
  split; [done|]. split.
  - rewrite take_reverse in Hp.
    apply (proj1 (Forall_reverse _ _)) in Hp. exact Hp.
  - intros Hlt. specialize (Hn Hlt).
    rewrite reverse_lookup in Hn by lia.
    rewrite <- Hn. f_equal. lia.
Qed.

(** X2 (orphan).  The orphan is what follows the last newline of the
    chunk: none of the last [orphanSize] bytes is a newline, and the byte
    before them, if there is one, is a newline. *)
Theorem deriveChunkResult_orphan (i : chunkInput) :
  exists res,
    deriveChunkResult i = Some res /\
    let n := length (in_chunk i) in
    0 <= orphanSize res <= Z.of_nat n /\
    Forall (fun c => c <> newlineByte)
           (drop (n - Z.to_nat (orphanSize res)) (in_chunk i)) /\
    (orphanSize res < Z.of_nat n ->
     in_chunk i !! (n - 1 - Z.to_nat (orphanSize res))%nat
     = Some newlineByte).
Proof.
  destruct (deriveChunkResult_status i) as (res & Hres & _).
  exists res. split; [done|].
  destruct (deriveChunkResult_fields i res Hres) as (_ & _ & ->).
  apply orphanScan_spec.
Qed.

(** X3 (widow and orphan together).  In a chunk with a newline the widow
    and the orphan lie on either side of it and do not overlap; in a
    chunk without newline each of them is the whole chunk. *)
Theorem deriveChunkResult_widow_orphan (i : chunkInput) :
  exists res,
    deriveChunkResult i = Some res /\
    (newlineByte ∈ in_chunk i ->
     widowSize res + orphanSize res + 1 <= Z.of_nat (length (in_chunk i))) /\
    (newlineByte ∉ in_chunk i ->
     widowSize res = Z.of_nat (length (in_chunk i)) /\
     orphanSize res = Z.of_nat (length (in_chunk i))).
Proof.
  destruct (deriveChunkResult_status i) as (res & Hres & _).
  exists res. split; [done|].
  destruct (deriveChunkResult_fields i res Hres) as (_ & Hw & Ho).
  destruct (orphanScan_spec (in_chunk i)) as (Hob & Hlast & Hnl).
  pose proof (widowScan_bounds (in_chunk i)) as Hwb.
  pose proof (widowScan_prefix (in_chunk i)) as Hwp.
  pose proof (widowScan_all (in_chunk i)) as Hwa.
  pose proof (widowScan_all (rev (in_chunk i))) as Hoa.
  rewrite length_rev in Hoa.
  rewrite <- Hw in Hwb, Hwp, Hwa. rewrite <- Ho in Hoa, Hob, Hlast, Hnl.
  split.
  - intros Hin.
    assert (Hlt : orphanSize res < Z.of_nat (length (in_chunk i))).
    { destruct (Z.eq_dec (orphanSize res) (Z.of_nat (length (in_chunk i))))
        as [Heq|]; [|lia].
      apply Hoa in Heq. exfalso. apply Heq.
      rewrite rev_reverse. by apply elem_of_reverse. }
    specialize (Hnl Hlt).
    (* the last newline is not among the first [widowSize] bytes *)
    destruct (Z.lt_ge_cases
                (Z.of_nat (length (in_chunk i)) - 1 - orphanSize res)
                (widowSize res)) as [Hbad|]; [|lia].
    exfalso.
    rewrite Forall_forall in Hwp.
    apply (Hwp newlineByte); [|done].
    eapply (list_elem_of_lookup_2 _
              (length (in_chunk i) - 1 - Z.to_nat (orphanSize res))).
    rewrite lookup_take_lt by lia. exact Hnl.
  - intros Hnot. split; [by apply Hwa|].
    apply Hoa. rewrite rev_reverse. by rewrite elem_of_reverse.
Qed.

(** X4 (adjacent chunks).  The widow and the orphan of two chunks joined
    together follow from those of the two: the widow is that of the
    first chunk if it has a newline, and the whole first chunk followed
    by the widow of the second otherwise; symmetrically for the
    orphan. *)
Theorem deriveChunkResult_app (pa pb pab : Z) (a b : list byte) :
  exists ra rb rab,
    deriveChunkResult {| in_part := pa; in_chunk := a |} = Some ra /\
    deriveChunkResult {| in_part := pb; in_chunk := b |} = Some rb /\
    deriveChunkResult {| in_part := pab; in_chunk := a ++ b |} = Some rab /\
    (newlineByte ∈ a -> widowSize rab = widowSize ra) /\
    (newlineByte ∉ a ->
     widowSize rab = Z.of_nat (length a) + widowSize rb) /\
    (newlineByte ∈ b -> orphanSize rab = orphanSize rb) /\
    (newlineByte ∉ b ->
     orphanSize rab = Z.of_nat (length b) + orphanSize ra).
Proof.
  destruct (deriveChunkResult_status {| in_part := pa; in_chunk := a |})
    as (ra & Hra & _).
  destruct (deriveChunkResult_status {| in_part := pb; in_chunk := b |})
    as (rb & Hrb & _).
  destruct (deriveChunkResult_status {| in_part := pab; in_chunk := a ++ b |})
    as (rab & Hrab & _).
  exists ra, rb, rab. do 3 (split; [done|]).
  destruct (deriveChunkResult_fields _ _ Hra) as (_ & -> & ->).
  destruct (deriveChunkResult_fields _ _ Hrb) as (_ & -> & ->).
  destruct (deriveChunkResult_fields _ _ Hrab) as (_ & -> & ->).
  cbn [in_chunk]. rewrite rev_app_distr.
  destruct (widowScan_app a b) as [H1 H2].
  destruct (widowScan_app (rev b) (rev a)) as [H3 H4].
  rewrite length_rev in H4.
  split; [done|]. split; [done|]. split.
  - intros Hin. apply H3. rewrite rev_reverse. by apply elem_of_reverse.
  - intros Hnot. apply H4. rewrite rev_reverse. by rewrite elem_of_reverse.
Qed.


(** ** [ChunkBlob]: the chunks pushed *)

Lemma u64_small (z : Z) : 0 <= z < 2 ^ 64 -> Go.u64 z = z.
Proof. intros Hz. unfold Go.u64. by apply Z.mod_small. Qed.

(** What the pushing loop does from offset [start] on: it never panics,
    it closes the channel if the fuel allows, and when it does the
    chunks are the consecutive pieces of [size] bytes of the rest of the
    blob. *)
Lemma ChunkBlob_push_from (fuel : nat) (blob : list byte) (size part start : Z)
    (chunks : list chunkInput) (e : pushEnd) :
  0 < size < 2 ^ 64 ->
  Z.of_nat (length blob) < 2 ^ 63 ->
  0 <= start <= Z.of_nat (length blob) ->
  start = 0 \/ size <= start ->
  ChunkBlob_push fuel blob size part start = (chunks, e) ->
  e <> PushPanic /\
  (Z.of_nat (length blob) - start < Z.of_nat fuel -> e = PushClosed) /\
  (e = PushClosed ->
    concat (in_chunk <$> chunks) = drop (Z.to_nat start) blob /\
    in_part <$> chunks = seqZ part (Z.of_nat (length chunks)) /\
    (forall (k : nat) c, chunks !! k = Some c ->
       Z.of_nat (length (in_chunk c)) <= size /\
       (S k < length chunks -> Z.of_nat (length (in_chunk c)) = size)%nat /\
       (start < Z.of_nat (length blob) -> in_chunk c <> [])) /\
    Z.of_nat (length chunks)
    = Z.max 1 ((Z.of_nat (length blob) - start + size - 1) / size)).
Proof.
  revert part start chunks e.
  induction fuel as [|fuel IH];
    intros part start chunks e Hsize Hlen Hstart Hmult.
  { intros [= <- <-]. split; [done|]. split; [lia|done]. }
  cbn [ChunkBlob_push].
  assert (Hu : Go.u64 (start + size) = start + size) by (apply u64_small; lia).
  rewrite Hu.
  destruct (start + size >? Z.of_nat (length blob)) eqn:Hgt.
  - (* the last chunk *)
    apply Z.gtb_lt in Hgt.
    unfold Go.slice.
    replace ((0 <=? start) && (start <=? Z.of_nat (length blob))
             && (Z.of_nat (length blob) <=? Z.of_nat (length blob)))
      with true by (symmetry; repeat (apply andb_true_iff; split); lia).
    replace (Z.of_nat (length blob) >=? Z.of_nat (length blob)) with true
      by (symmetry; apply Z.geb_le; lia).
    intros [= <- <-]. split; [done|]. split; [done|]. intros _. cbn.
    rewrite app_nil_r.
    assert (Htake : take (Z.to_nat (Z.of_nat (length blob) - start))
                         (drop (Z.to_nat start) blob)
                    = drop (Z.to_nat start) blob).
    { apply take_ge. rewrite length_drop. lia. }
    rewrite Htake.
    split; [done|]. split; [done|]. split.
    + intros [|k] c; [|done]. intros [= <-]. cbn.
      rewrite length_drop. split; [lia|]. split; [lia|].
      intros Hlt Hnil. apply (f_equal length) in Hnil.
      rewrite length_drop in Hnil. simpl in Hnil. lia.
    + destruct (Z.eq_dec (Z.of_nat (length blob) - start) 0) as [H0|H0].
      * rewrite H0, Z.div_small by lia. lia.
      * replace (Z.of_nat (length blob) - start + size - 1)
          with (Z.of_nat (length blob) - start - 1 + 1 * size) by lia.
        rewrite Z.div_add, Z.div_small by lia. lia.
  - (* a full chunk *)
    assert (Hle : start + size <= Z.of_nat (length blob)).
    { destruct (Z.gtb_spec (start + size) (Z.of_nat (length blob)));
        [done|lia]. }
    unfold Go.slice.
    replace ((0 <=? start) && (start <=? start + size)
             && (start + size <=? Z.of_nat (length blob)))
      with true by (symmetry; repeat (apply andb_true_iff; split); lia).
    replace (start + size - start) with size by lia.
    destruct (start + size >=? Z.of_nat (length blob)) eqn:Hge.
    + (* it ends the blob *)
      apply Z.geb_le in Hge.
      assert (Heq : start + size = Z.of_nat (length blob)) by lia.
      intros [= <- <-]. split; [done|]. split; [done|]. intros _. cbn.
      rewrite app_nil_r.
      assert (Htake : take (Z.to_nat size) (drop (Z.to_nat start) blob)
                      = drop (Z.to_nat start) blob).
      { apply take_ge. rewrite length_drop. lia. }
      rewrite Htake.
      split; [done|]. split; [done|]. split.
      * intros [|k] c; [|done]. intros [= <-]. cbn.
        rewrite length_drop. split; [lia|]. split; [lia|].
        intros Hlt Hnil. apply (f_equal length) in Hnil.
        rewrite length_drop in Hnil. simpl in Hnil. lia.
      * replace (Z.of_nat (length blob) - start + size - 1)
          with (size - 1 + 1 * size) by lia.
        rewrite Z.div_add, Z.div_small by lia. lia.
    + (* the loop goes on *)
      assert (Hlt : start + size < Z.of_nat (length blob)).
      { destruct (Z.geb_spec (start + size) (Z.of_nat (length blob)));
          [done|lia]. }
      destruct (ChunkBlob_push fuel blob size (part + 1) (start + size))
        as [rest e'] eqn:Hrest.
      intros [= <- <-].
      destruct (IH (part + 1) (start + size) rest e')
        as (Hpanic & Hfuel & Hclosed); [lia|lia|lia|right; lia|done|].
      split; [done|]. split; [intros ?; apply Hfuel; lia|].
      intros He. destruct (Hclosed He) as (Hcat & Hparts & Hsz & Hcount).
      assert (Hlen1 : length (take (Z.to_nat size) (drop (Z.to_nat start) blob))
                      = Z.to_nat size).
      { rewrite length_take, length_drop. lia. }
      split.
      { cbn. rewrite Hcat.
        replace (Z.to_nat (start + size))
          with (Z.to_nat start + Z.to_nat size)%nat by lia.
        rewrite <- drop_drop. apply take_drop. }
      split.
      { cbn [fmap list_fmap length in_part]. rewrite Hparts.
        rewrite Nat2Z.inj_succ, (seqZ_cons part) by lia.
        f_equal. f_equal; lia. }
      split.
      { intros [|k] c.
        - intros [= <-]. cbn [in_chunk]. rewrite Hlen1.
          split; [lia|]. split; [lia|].
          intros _ Hnil. rewrite Hnil in Hlen1. simpl in Hlen1. lia.
        - cbn. intros Hk. destruct (Hsz k c Hk) as (H1 & H2 & H3).
          split; [done|]. split; [intros ?; apply H2; lia|].
          intros _. apply H3. lia. }
      cbn [length]. rewrite Nat2Z.inj_succ, Hcount.
      replace (Z.of_nat (length blob) - start + size - 1)
        with (Z.of_nat (length blob) - (start + size) + size - 1 + 1 * size)
        by lia.
      rewrite Z.div_add by lia.
      assert (1 <= (Z.of_nat (length blob) - (start + size) + size - 1) / size).
      { apply Z.div_le_lower_bound; lia. }
      lia.
Qed.

(** X5 (partition).  For a chunk size between 1 and 2^64 - 1 the pushing
    goroutine of [ChunkBlob] ends by closing the channel; the chunks it
    has sent, joined in order, are the blob, and they are numbered from 0
    upwards. *)
Theorem ChunkBlob_push_partition (blob : list byte) (size : Z) :
  0 < size < 2 ^ 64 ->
  Z.of_nat (length blob) < 2 ^ 63 ->
  exists chunks,
    ChunkBlob_push (S (length blob)) blob size 0 0 = (chunks, PushClosed) /\
    concat (in_chunk <$> chunks) = blob /\
    in_part <$> chunks = seqZ 0 (Z.of_nat (length chunks)).
Proof.
  intros Hsize Hlen.
  destruct (ChunkBlob_push (S (length blob)) blob size 0 0)
    as [chunks e] eqn:Hpush.
  destruct (ChunkBlob_push_from _ blob size 0 0 _ _ Hsize Hlen
              ltac:(lia) ltac:(by left) Hpush)
    as (_ & Hfuel & Hclosed).
  assert (He : e = PushClosed) by (apply Hfuel; lia). subst e.
  destruct (Hclosed eq_refl) as (Hcat & Hparts & _).
  exists chunks. done.
Qed.

Lemma ChunkBlob_push_partition_witness :
  exists chunks,
    ChunkBlob_push 6 (bytes "abcde") 2 0 0 = (chunks, PushClosed) /\
    concat (in_chunk <$> chunks) = bytes "abcde" /\
    in_part <$> chunks = seqZ 0 (Z.of_nat (length chunks)).
Proof.
  apply (ChunkBlob_push_partition (bytes "abcde") 2); simpl; lia.
Defined.

(** X6 (sizes).  Every chunk but the last has exactly [chunkSize] bytes; the
    last has at most [chunkSize] bytes, and at least one unless the blob
    is empty; there are ceil(len(blob)/chunkSize) chunks, and one chunk
    for the empty blob. *)
Theorem ChunkBlob_push_sizes (fuel : nat) (blob : list byte) (size : Z)
    (chunks : list chunkInput) :
  0 < size < 2 ^ 64 ->
  Z.of_nat (length blob) < 2 ^ 63 ->
  ChunkBlob_push fuel blob size 0 0 = (chunks, PushClosed) ->
  (forall (k : nat) c, chunks !! k = Some c ->
     Z.of_nat (length (in_chunk c)) <= size /\
     (S k < length chunks -> Z.of_nat (length (in_chunk c)) = size)%nat /\
     (blob <> [] -> in_chunk c <> [])) /\
  Z.of_nat (length chunks)
  = Z.max 1 ((Z.of_nat (length blob) + size - 1) / size).
Proof.
  intros Hsize Hlen Hpush.
  destruct (ChunkBlob_push_from _ blob size 0 0 _ _ Hsize Hlen
              ltac:(lia) ltac:(by left) Hpush)
    as (_ & _ & Hclosed).
  destruct (Hclosed eq_refl) as (_ & _ & Hsz & Hcount).
  split.
  - intros k c Hk. destruct (Hsz k c Hk) as (H1 & H2 & H3).
    split; [done|]. split; [done|].
    intros Hne. apply H3. destruct blob; [done|]. simpl. lia.
  - rewrite Hcount. do 2 f_equal. lia.
Qed.

Lemma ChunkBlob_push_sizes_witness :
  ChunkBlob_push 6 (bytes "abcde") 2 0 0
  = ([ {| in_part := 0; in_chunk := bytes "ab" |};
       {| in_part := 1; in_chunk := bytes "cd" |};
       {| in_part := 2; in_chunk := bytes "e" |} ], PushClosed) /\
  Z.of_nat 3 = Z.max 1 ((Z.of_nat 5 + 2 - 1) / 2).
Proof.
  split; [reflexivity|].
  exact (proj2 (ChunkBlob_push_sizes 6 (bytes "abcde") 2 _
                  ltac:(lia) ltac:(simpl; lia) eq_refl)).
Defined.

(** X7 (chunk size 0).  With [chunkSize = 0] and a blob that is not empty
    the pushing goroutine never leaves its loop: whatever the number of
    passes it has sent that many empty chunks and goes on, so that
    [ChunkBlob] does not return. *)
Theorem ChunkBlob_push_zero (blob : list byte) :
  blob <> [] ->
  (forall (fuel : nat) (part : Z),
     ChunkBlob_push fuel blob 0 part 0
     = ((fun p => {| in_part := p; in_chunk := [] |})
          <$> seqZ part (Z.of_nat fuel), PushRunning)) /\
  (forall numCPU results, ~ ChunkBlob numCPU blob 0 results).
Proof.
  intros Hne.
  assert (Hloop : forall (fuel : nat) (part : Z),
     ChunkBlob_push fuel blob 0 part 0
     = ((fun p => {| in_part := p; in_chunk := [] |})
          <$> seqZ part (Z.of_nat fuel), PushRunning)).
  { induction fuel as [|fuel IH]; intros part; [done|].
    cbn [ChunkBlob_push].
    change (Go.u64 (0 + 0)) with 0.
    assert (Hlen : 0 < Z.of_nat (length blob))
      by (destruct blob; [done|simpl; lia]).
    replace (0 >? Z.of_nat (length blob)) with false
      by (symmetry; rewrite Z.gtb_ltb; apply Z.ltb_ge; lia).
    unfold Go.slice.
    replace ((0 <=? 0) && (0 <=? 0) && (0 <=? Z.of_nat (length blob)))
      with true by (symmetry; repeat (apply andb_true_iff; split); lia).
    replace (0 >=? Z.of_nat (length blob)) with false
      by (symmetry; rewrite Z.geb_leb; apply Z.leb_gt; lia).
    rewrite IH, Nat2Z.inj_succ, (seqZ_cons part) by lia.
    rewrite Z.pred_succ. replace (Z.succ part) with (part + 1) by lia.
    done. }
  split; [exact Hloop|].
  intros numCPU results Hrun.
  inversion Hrun as [fuel chunks s Hpush Hsteps Hclosed Heq].
  rewrite Hloop in Hpush. discriminate.
Qed.

Lemma ChunkBlob_push_zero_witness :
  ChunkBlob_push 2 (bytes "a") 0 0 0
  = ([ {| in_part := 0; in_chunk := [] |};
       {| in_part := 1; in_chunk := [] |} ], PushRunning).
Proof.
  exact (proj1 (ChunkBlob_push_zero (bytes "a") ltac:(discriminate)) 2%nat 0).
Defined.


(** ** [ChunkBlob]: the workers *)

Lemma deriveChunkResult_total (i : chunkInput) :
  is_Some (deriveChunkResult i).
Proof. destruct (deriveChunkResult_status i) as (res & -> & _). by eexists. Qed.

(** Replacing a worker changes the held results by what the old and
    the new worker hold. *)
Lemma heldResults_insert (ws : list chunkWorkerState) (k : nat)
    (w w' : chunkWorkerState) :
  ws !! k = Some w ->
  exists others,
    heldResults ws ≡ₚ heldResults [w] ++ others /\
    heldResults (<[k := w']> ws) ≡ₚ heldResults [w'] ++ others.
Proof.
  intros Hk.
  exists (heldResults (take k ws) ++ heldResults (drop (S k) ws)).
  assert (Hlt : (k < length ws)%nat) by (eapply lookup_lt_Some; eauto).
  rewrite insert_take_drop by done.
  rewrite <- (take_drop_middle ws k w Hk) at 1.
  unfold heldResults. rewrite !omap_app.
  split.
  - destruct w; cbn; (reflexivity || (symmetry; apply Permutation_middle)).
  - destruct w'; cbn; (reflexivity || (symmetry; apply Permutation_middle)).
Qed.

Lemma blobInv_start chunks0 n :
  blobInv chunks0 n (ChunkBlob_start n chunks0).
Proof.
  unfold blobInv, ChunkBlob_start. cbn.
  split; [apply length_replicate|].
  split; [apply Forall_replicate; done|].
  split; [right; apply Forall_replicate; done|].
  exists [], []. split; [done|]. split; [constructor|].
  induction n as [|n IH]; [done|exact IH].
Qed.

Lemma blobInv_step chunks0 n k s s' :
  blobInv chunks0 n s -> ChunkBlob_step k s = Some s' ->
  blobInv chunks0 n s'.
Proof.
  intros (Hlen & Hpanic & Hdone & consumed & rs & Hcons & Hrs & Hperm) Hstep.
  unfold ChunkBlob_step in Hstep.
  destruct (bs_workers s !! k) as [w|] eqn:Hk; [|done]. cbn in Hstep.
  destruct w; cbn in Hstep.
  - (* a receive *)
    destruct (bs_chunks s) as [|i rest] eqn:Hchunks.
    + injection Hstep as <-. unfold blobInv.
      cbn [bs_workers bs_chunks bs_results].
      destruct (heldResults_insert (bs_workers s) k CWRecv CWDone Hk)
        as (others & H1 & H2).
      split; [by rewrite length_insert|].
      split; [by apply Forall_insert|].
      split; [by left|].
      exists consumed, rs. split; [done|]. split; [done|].
      rewrite H2. rewrite H1 in Hperm. exact Hperm.
    + injection Hstep as <-. unfold blobInv.
      cbn [bs_workers bs_chunks bs_results].
      destruct (deriveChunkResult_total i) as [res Hres]. rewrite Hres.
      destruct (heldResults_insert (bs_workers s) k CWRecv (CWSend res) Hk)
        as (others & H1 & H2).
      split; [by rewrite length_insert|].
      split; [by apply Forall_insert|].
      split.
      { right. destruct Hdone as [?|Hd]; [done|]. by apply Forall_insert. }
      exists (consumed ++ [i]), (rs ++ [res]).
      split; [by rewrite <- app_assoc|].
      split; [apply Forall2_app; [done|by constructor]|].
      rewrite H2. rewrite H1 in Hperm. cbn in *.
      rewrite <- Hperm. rewrite <- Permutation_middle.
      by rewrite (comm (++) _ [res]).
  - (* a send *)
    injection Hstep as <-. unfold blobInv.
    cbn [bs_workers bs_chunks bs_results].
    destruct (heldResults_insert (bs_workers s) k (CWSend res) CWRecv Hk)
      as (others & H1 & H2).
    split; [by rewrite length_insert|].
    split; [by apply Forall_insert|].
    split.
    { destruct Hdone as [?|Hd]; [by left|right]. by apply Forall_insert. }
    exists consumed, rs. split; [done|]. split; [done|].
    rewrite H2. rewrite H1 in Hperm. cbn in *.
    rewrite <- Hperm. by rewrite <- app_assoc.
  - done.
  - done.
Qed.

Lemma blobInv_steps chunks0 n s :
  ChunkBlob_steps (ChunkBlob_start n chunks0) s -> blobInv chunks0 n s.
Proof.
  unfold ChunkBlob_steps. intros Hrun.
  assert (Hgen : forall s0, blobInv chunks0 n s0 ->
            rtc (fun s s' => exists k, ChunkBlob_step k s = Some s') s0 s ->
            blobInv chunks0 n s).
  { clear Hrun. intros s0 H0 Hrun.
    induction Hrun as [|x y z [k Hxy] _ IH]; [done|].
    apply IH. eapply blobInv_step; eauto. }
  eapply Hgen; [apply blobInv_start|done].
Qed.


(** One worker alone takes every chunk and sends its result. *)
Lemma ChunkBlob_first_worker (chunks : list chunkInput)
    (ws : list chunkWorkerState) (results : list chunkResult) :
  exists results',
    ChunkBlob_steps
      {| bs_chunks := chunks; bs_workers := CWRecv :: ws;
         bs_results := results |}
      {| bs_chunks := []; bs_workers := CWRecv :: ws;
         bs_results := results' |}.
Proof.
  revert results. induction chunks as [|i rest IH]; intros results.
  - exists results. apply rtc_refl.
  - destruct (deriveChunkResult_total i) as [res Hres].
    destruct (IH (results ++ [res])) as [results' Hrun].
    exists results'.
    eapply rtc_l.
    { exists 0%nat. unfold ChunkBlob_step. cbn. rewrite Hres. reflexivity. }
    eapply rtc_l; [|exact Hrun].
    exists 0%nat. reflexivity.
Qed.

(** With no chunk left every worker returns. *)
Lemma ChunkBlob_all_return (pre : list chunkWorkerState) (m : nat)
    (results : list chunkResult) :
  ChunkBlob_steps
    {| bs_chunks := []; bs_workers := pre ++ replicate m CWRecv;
       bs_results := results |}
    {| bs_chunks := []; bs_workers := pre ++ replicate m CWDone;
       bs_results := results |}.
Proof.
  revert pre. induction m as [|m IH]; intros pre; [apply rtc_refl|].
  eapply rtc_l.
  { exists (length pre). unfold ChunkBlob_step.
    cbn [bs_workers bs_chunks bs_results replicate].
    rewrite list_lookup_middle by done. cbn. reflexivity. }
  cbn [replicate].
  replace (<[length pre:=CWDone]> (pre ++ CWRecv :: replicate m CWRecv))
    with ((pre ++ [CWDone]) ++ replicate m CWRecv).
  - replace (pre ++ CWDone :: replicate m CWDone)
      with ((pre ++ [CWDone]) ++ replicate m CWDone)
      by (by rewrite <- app_assoc).
    apply IH.
  - rewrite insert_app_r_alt, Nat.sub_diag by lia.
    by rewrite <- app_assoc.
Qed.

(** X8 (every chunk is analysed exactly once).  For a chunk size between 1
    and 2^64 - 1 and at least one worker, [ChunkBlob] returns, no worker
    panics, and whatever the interleaving of the workers, the results
    printed are the results of [deriveChunkResult] on the consecutive
    pieces of the blob, each once, in some order; their part numbers
    tell them apart. *)
Theorem ChunkBlob_each_chunk_once (numCPU : nat) (blob : list byte)
    (size : Z) :
  0 < size < 2 ^ 64 ->
  Z.of_nat (length blob) < 2 ^ 63 ->
  (0 < numCPU)%nat ->
  (exists results, ChunkBlob numCPU blob size results) /\
  (forall chunks s,
     ChunkBlob_steps (ChunkBlob_start numCPU chunks) s ->
     Forall (fun w => w <> CWPanic) (bs_workers s)) /\
  (forall results,
     ChunkBlob numCPU blob size results ->
     exists chunks rs,
       concat (in_chunk <$> chunks) = blob /\
       Forall2 (fun i res => deriveChunkResult i = Some res) chunks rs /\
       part <$> rs = seqZ 0 (Z.of_nat (length rs)) /\
       results ≡ₚ rs).
Proof.
  intros Hsize Hlen Hcpu. split; [|split].
  - destruct (ChunkBlob_push (S (length blob)) blob size 0 0)
      as [chunks e] eqn:Hpush.
    destruct (ChunkBlob_push_from _ blob size 0 0 _ _ Hsize Hlen
                ltac:(lia) ltac:(by left) Hpush) as (_ & Hfuel & _).
    assert (He : e = PushClosed) by (apply Hfuel; lia). subst e.
    destruct numCPU as [|n]; [lia|].
    destruct (ChunkBlob_first_worker chunks (replicate n CWRecv) [])
      as [results Hrun].
    exists results.
    apply (ChunkBlob_returns (S n) blob size (S (length blob)) chunks
             {| bs_chunks := []; bs_workers := replicate (S n) CWDone;
                bs_results := results |}); [done| |].
    + unfold ChunkBlob_steps in *. etrans; [exact Hrun|].
      apply (ChunkBlob_all_return [] (S n) results).
    + apply Forall_replicate. done.
  - intros chunks s Hsteps.
    by destruct (blobInv_steps chunks numCPU s Hsteps) as (_ & ? & _).
  - intros results Hrun.
    inversion Hrun as [fuel chunks s Hpush Hsteps Hclosed Heq].
    destruct (ChunkBlob_push_from _ blob size 0 0 _ _ Hsize Hlen
                ltac:(lia) ltac:(by left) Hpush) as (_ & _ & Hprops).
    destruct (Hprops eq_refl) as (Hcat & Hparts & _).
    destruct (blobInv_steps chunks numCPU s Hsteps)
      as (Hn & _ & Hdone & consumed & rs & Hcons & Hrs & Hperm).
    unfold ChunkBlob_closed in Hclosed.
    assert (Hempty : bs_chunks s = []).
    { destruct Hdone as [?|Hd]; [done|].
      destruct (bs_workers s) as [|w ws]; [simpl in Hn; lia|].
      apply Forall_cons in Hclosed as [-> _].
      apply Forall_cons in Hd as [Hd _]. done. }
    assert (Hheld : heldResults (bs_workers s) = []).
    { clear -Hclosed. induction Hclosed as [|w ws -> _ IH]; [done|exact IH]. }
    rewrite Hempty, app_nil_r in Hcons. subst consumed.
    rewrite Hheld, app_nil_r in Hperm.
    exists chunks, rs. split; [done|]. split; [done|]. split; [|done].
    assert (Hpart : part <$> rs = in_part <$> chunks).
    { clear -Hrs. induction Hrs as [|i res l k Hres _ IH]; [done|].
      cbn. rewrite IH.
      apply bind_Some in Hres as (st & _ & [= <-]). done. }
    rewrite Hpart, Hparts. f_equal. f_equal.
    apply Forall2_length in Hrs. lia.
Qed.

Lemma ChunkBlob_each_chunk_once_witness :
  exists results, ChunkBlob 2 (bytes "ab,cd") 2 results.
Proof.
  exact (proj1 (ChunkBlob_each_chunk_once 2 (bytes "ab,cd") 2
                  ltac:(lia) ltac:(simpl; lia) ltac:(lia))).
Defined.


(** ** [filterOutComments] *)

(** The loop from index [n - 1] down filters the first [n] records and
    leaves the others. *)
Lemma filterOutComments_from_filter (n : nat) (records : list (list string))
    (comment : byte) :
  (n <= length records)%nat ->
  filterOutComments_from n records comment
  = List.filter (fun rec => negb (isCommentRecord rec comment))
                (take n records)
    ++ drop n records.
Proof.
  revert records. induction n as [|i IH]; intros records Hn.
  - by rewrite take_0, drop_0.
  - cbn [filterOutComments_from].
    destruct (lookup_lt_is_Some_2 records i) as [rec Hrec]; [lia|].
    rewrite Hrec.
    rewrite (take_S_r _ _ _ Hrec), List.filter_app. cbn [List.filter].
    destruct (isCommentRecord rec comment) eqn:Hc; cbn [negb].
    + rewrite IH by (rewrite length_app, length_take, length_drop; lia).
      rewrite take_app_length' by (rewrite length_take; lia).
      rewrite drop_app_length' by (rewrite length_take; lia).
      by rewrite app_nil_r.
    + rewrite IH by lia.
      rewrite <- app_assoc. cbn [app].
      by rewrite (drop_S _ _ _ Hrec).
Qed.

(** X14 ([filterOutComments] is a filter).  Deleting in place from the last
    index down removes exactly the records whose first field starts with
    the comment byte, and keeps the others in their order; records with
    no field or with an empty first field are kept. *)
Theorem filterOutComments_filter (records : list (list string))
    (comment : byte) :
  filterOutComments records comment
  = List.filter (fun rec => negb (isCommentRecord rec comment)) records /\
  (forall rec, rec ∈ filterOutComments records comment <->
               rec ∈ records /\ isCommentRecord rec comment = false) /\
  filterOutComments (filterOutComments records comment) comment
  = filterOutComments records comment /\
  isCommentRecord [] comment = false /\
  (forall rest, isCommentRecord (EmptyString :: rest) comment = false).
Proof.
  assert (Heq : forall l,
             filterOutComments l comment
             = List.filter (fun rec => negb (isCommentRecord rec comment)) l).
  { intros l. unfold filterOutComments.
    rewrite filterOutComments_from_filter by done.
    by rewrite firstn_all, drop_all, app_nil_r. }
  split; [apply Heq|]. split; [|split; [|done]].
  - intros rec. rewrite Heq, !list_elem_of_In, List.filter_In.
    by rewrite negb_true_iff.
  - rewrite !Heq. induction records as [|rec l IH]; [done|].
    cbn [List.filter].
    destruct (negb (isCommentRecord rec comment)) eqn:Hk; [|done].
    cbn [List.filter]. by rewrite Hk, IH.
Qed.

(** ** [ensureFieldsPerRecord] *)

(** X15 (the whole of [ensureFieldsPerRecord]).  The counter changes only
    when it is 0, and then to the field count of the first record; when
    the counter is positive afterwards the call returns nil exactly if
    every record has that many fields, and leaves the records as they
    are; on an error the records are set to nil; a counter that stays 0
    or negative means no check. *)
Theorem ensureFieldsPerRecord_post (records : list (list string)) (fpr : Z) :
  match ensureFieldsPerRecord records fpr with
  | (records', fpr', err) =>
      (fpr <> 0 -> fpr' = fpr) /\
      (fpr = 0 ->
       fpr' = match records with
              | first :: _ => Z.of_nat (length first)
              | [] => 0
              end) /\
      (err = None <->
       fpr' <= 0 \/
       Forall (fun rec => Z.of_nat (length rec) = fpr') records) /\
      (err = None -> records' = records) /\
      (err <> None -> records' = [])
  end.
Proof.
  unfold ensureFieldsPerRecord.
  set (fpr' := if fpr =? 0 then _ else fpr).
  assert (H1 : fpr <> 0 -> fpr' = fpr).
  { intros Hne. unfold fpr'. by rewrite (proj2 (Z.eqb_neq _ _) Hne). }
  assert (H2 : fpr = 0 ->
               fpr' = match records with
                      | first :: _ => Z.of_nat (length first)
                      | [] => 0
                      end).
  { intros ->. unfold fpr'. cbn. by destruct records. }
  destruct (fpr' >? 0) eqn:Hpos.
  - apply Z.gtb_lt in Hpos.
    pose proof (checkFields_spec records 0 fpr') as Hspec.
    destruct (checkFields records 0 fpr') as [e|].
    + split; [done|]. split; [done|]. split; [|done].
      split; [done|]. intros [?|Hall]; [lia|].
      destruct Hspec as (k & rec & Hk & Hne & _).
      rewrite Forall_forall in Hall.
      exfalso. apply Hne, Hall. eapply list_elem_of_lookup_2; eauto.
    + split; [done|]. split; [done|]. split; [|done].
      split; [by right|done].
  - split; [done|]. split; [done|]. split; [|done].
    split; [|done]. intros _. left.
    destruct (Z.gtb_spec fpr' 0); [done|lia].
Qed.

(** ** The producer *)

Lemma last_cons_default {A} (b d : A) (bs : list A) :
  List.last (b :: bs) d = List.last bs b.
Proof.
  revert b d. induction bs as [|c bs IH]; intros b d; [done|].
  change (List.last (b :: c :: bs) d) with (List.last (c :: bs) d).
  by rewrite !IH.
Qed.

Lemma producer_loop_passes (chunk : list byte) (bs : list (list byte))
    (tail : source) :
  match tail with
  | [] => True
  | (b', Some e) :: _ => is_EOF e = true -> b' = []
  | (_, None) :: _ => False
  end ->
  producer_loop chunk (((fun b => (b, None)) <$> bs) ++ tail)
  = Produced (((fun b => {| buf := b; last := false |})
                 <$> removelast (chunk :: bs))
              ++ [ {| buf := List.last bs chunk; last := true |} ]).
Proof.
  intros Htail. revert chunk.
  induction bs as [|b bs IH]; intros chunk.
  - cbn. destruct tail as [|[b' [e|]] rest]; [done| |done].
    cbn. destruct (is_EOF e) eqn:He; [|done].
    rewrite (Htail eq_refl). done.
  - cbn [fmap list_fmap app producer_loop]. rewrite IH.
    cbn [sendFirst]. rewrite last_cons_default.
    change (removelast (chunk :: b :: bs)) with (chunk :: removelast (b :: bs)).
    done.
Qed.

(** X9 (the chunks of the producer).  When the reads succeed up to one that
    fails or finds the input used up (and does not deliver bytes together
    with io.EOF), the producer sends one chunk for each successful read,
    with the bytes of that read, in order, and flags exactly the final
    one as last. *)
Theorem producer_passes_reads (bs : list (list byte)) (b : list byte)
    (tail : source) :
  match tail with
  | [] => True
  | (b', Some e) :: _ => is_EOF e = true -> b' = []
  | (_, None) :: _ => False
  end ->
  producer (((fun b => (b, None)) <$> (bs ++ [b])) ++ tail)
  = Produced (((fun b => {| buf := b; last := false |}) <$> bs)
              ++ [ {| buf := b; last := true |} ]).
Proof.
  intros Htail. unfold producer.
  destruct bs as [|c bs]; cbn [app fmap list_fmap].
  - apply (producer_loop_passes b [] tail Htail).
  - rewrite (producer_loop_passes c (bs ++ [b]) tail Htail).
    change (c :: bs ++ [b]) with ((c :: bs) ++ [b]).
    by rewrite removelast_last, last_last.
Qed.

Lemma producer_passes_reads_witness :
  producer [(bytes "ab", None); (bytes "cd", None); ([], Some io_EOF)]
  = Produced [ {| buf := bytes "ab"; last := false |};
               {| buf := bytes "cd"; last := true |} ].
Proof.
  exact (producer_passes_reads [bytes "ab"] (bytes "cd")
           [([], Some io_EOF)] (fun _ => eq_refl)).
Defined.


(** ** [stage1Streaming]: header and trailer *)

Lemma tz_from_spec (fuel : nat) (x i : Z) :
  i <= Go.tz_from fuel x i <= i + Z.of_nat fuel /\
  (forall b, i <= b < Go.tz_from fuel x i -> Z.testbit x b = false) /\
  (Go.tz_from fuel x i < i + Z.of_nat fuel ->
   Z.testbit x (Go.tz_from fuel x i) = true).
Proof.
  revert i. induction fuel as [|fuel IH]; intros i; cbn [Go.tz_from].
  - split; [lia|]. split; intros; lia.
  - destruct (Z.testbit x i) eqn:Hi.
    + split; [lia|]. split; [intros; lia|done].
    + destruct (IH (i + 1)) as (Hb & Hz & Hs).
      split; [lia|]. split.
      * intros b Hbi. destruct (Z.eq_dec b i) as [->|]; [done|].
        apply Hz. lia.
      * intros Hlt. apply Hs. lia.
Qed.

Lemma lz_from_spec (fuel : nat) (x n : Z) :
  n <= Go.lz_from fuel x n <= n + Z.of_nat fuel /\
  (forall b, n <= b < Go.lz_from fuel x n -> Z.testbit x (63 - b) = false) /\
  (Go.lz_from fuel x n < n + Z.of_nat fuel ->
   Z.testbit x (63 - Go.lz_from fuel x n) = true).
Proof.
  revert n. induction fuel as [|fuel IH]; intros n; cbn [Go.lz_from].
  - split; [lia|]. split; intros; lia.
  - destruct (Z.testbit x (63 - n)) eqn:Hn.
    + split; [lia|]. split; [intros; lia|done].
    + destruct (IH (n + 1)) as (Hb & Hz & Hs).
      split; [lia|]. split.
      * intros b Hbn. destruct (Z.eq_dec b n) as [->|]; [done|].
        apply Hz. lia.
      * intros Hlt. apply Hs. lia.
Qed.

(** The bits of the first word of triple [j]. *)
Lemma delimiterBit_word (masks : list Z) (j : nat) (m : Z) (b : Z) :
  masks !! (3 * j)%nat = Some m -> 0 <= b < 64 ->
  delimiterBit masks (64 * Z.of_nat j + b) <-> Z.testbit m b = true.
Proof.
  intros Hm Hb. unfold delimiterBit.
  assert (Hdiv : (64 * Z.of_nat j + b) / 64 = Z.of_nat j).
  { symmetry. apply (Z.div_unique _ _ _ b); lia. }
  assert (Hmod : (64 * Z.of_nat j + b) mod 64 = b).
  { symmetry. apply (Z.mod_unique _ _ (Z.of_nat j)); lia. }
  rewrite Hdiv, Hmod.
  replace (Z.to_nat (3 * Z.of_nat j)) with (3 * j)%nat by lia.
  rewrite Hm. split.
  - intros (_ & m' & [= <-] & Hbit). done.
  - intros Hbit. split; [lia|]. by exists m.
Qed.

Lemma delimiterBit_inside (masks : list Z) (q : Z) :
  delimiterBit masks q ->
  0 <= q /\ (3 * Z.to_nat (q / 64) < length masks)%nat.
Proof.
  intros (Hq & m & Hm & _). split; [done|].
  apply lookup_lt_Some in Hm.
  assert (0 <= q / 64) by (apply Z.div_pos; lia). lia.
Qed.

(** The first loop of [stage1Streaming], entered at triple [j] with the
    64 [j] bits below it counted: it stops at the first delimiter bit,
    or past the last triple. *)
Lemma headerScan_spec (masks : list Z) (fuel j : nat) :
  (length masks < 3 * j + fuel)%nat ->
  (3 * j <= length masks + 2)%nat ->
  let h := headerScan fuel masks (3 * j) (64 * Z.of_nat j) in
  64 * Z.of_nat j <= h /\
  (forall q, 64 * Z.of_nat j <= q < h -> ~ delimiterBit masks q) /\
  (delimiterBit masks h \/
   h = 64 * Z.of_nat ((length masks + 2) / 3)).
Proof.
  assert (Hpast : forall k : nat,
             (length masks <= 3 * k)%nat -> (3 * k <= length masks + 2)%nat ->
             64 * Z.of_nat k = 64 * Z.of_nat ((length masks + 2) / 3)).
  { intros k H1 H2. f_equal. f_equal.
    pose proof (Nat.div_mod_eq (length masks + 2) 3).
    pose proof (Nat.mod_upper_bound (length masks + 2) 3). lia. }
  revert j. induction fuel as [|fuel IH]; intros j Hfuel Hj.
  { cbn. split; [lia|]. split; [intros; lia|]. right. apply Hpast; lia. }
  cbn [headerScan].
  destruct (masks !! (3 * j)%nat) as [m|] eqn:Hm.
  - pose proof (tz_from_spec 64 m 0) as (Hb & Hz & Hs).
    fold (Go.TrailingZeros64 m) in Hb, Hz, Hs.
    cbn zeta.
    destruct (Z.ltb_spec (Go.TrailingZeros64 m) 64) as [Hlt|Hge].
    + (* a delimiter in this word *)
      split; [lia|]. split.
      * intros q Hq Hbit.
        replace q with (64 * Z.of_nat j + (q - 64 * Z.of_nat j)) in Hbit
          by lia.
        apply (delimiterBit_word masks j m) in Hbit; [|done|lia].
        rewrite Hz in Hbit by lia. done.
      * left. apply (delimiterBit_word masks j m); [done|lia|].
        apply Hs. lia.
    + (* no delimiter in this word *)
      assert (Htz : Go.TrailingZeros64 m = 64) by lia. rewrite Htz.
      pose proof (lookup_lt_Some _ _ _ Hm) as Hlen.
      replace (3 * j + 3)%nat with (3 * S j)%nat by lia.
      replace (64 * Z.of_nat j + 64) with (64 * Z.of_nat (S j)) by lia.
      destruct (IH (S j)) as (Hle & Hno & Hend); [lia|lia|].
      split; [lia|]. split; [|done].
      intros q Hq.
      destruct (Z.lt_ge_cases q (64 * Z.of_nat (S j))) as [Hin|Hout].
      * intros Hbit.
        replace q with (64 * Z.of_nat j + (q - 64 * Z.of_nat j)) in Hbit
          by lia.
        apply (delimiterBit_word masks j m) in Hbit; [|done|lia].
        rewrite Hz in Hbit by lia. done.
      * apply Hno. lia.
  - (* past the last triple *)
    apply lookup_ge_None in Hm.
    split; [lia|]. split; [intros; lia|]. right. by apply Hpast.
Qed.

(** The header of a chunk after the first. *)
Lemma computeHeader_later (sequence : Z) (masks : list Z) (chunk : chunkIn) :
  (length masks mod 3 = 0)%nat ->
  0 < sequence ->
  ((exists q, delimiterBit masks q) ->
   delimiterBit masks (computeHeader sequence masks chunk) /\
   forall q, 0 <= q < computeHeader sequence masks chunk ->
             ~ delimiterBit masks q) /\
  ((forall q, ~ delimiterBit masks q) ->
   computeHeader sequence masks chunk = Z.of_nat (length (buf chunk))).
Proof.
  intros Hmod Hseq. unfold computeHeader.
  destruct (Z.gtb_spec sequence 0); [|lia].
  pose proof (headerScan_spec masks (S (length masks)) 0
                ltac:(lia) ltac:(lia)) as (Hle & Hno & Hend).
  cbn zeta in Hle, Hno, Hend.
  change (3 * 0)%nat with 0%nat in *.
  change (64 * Z.of_nat 0) with 0 in *.
  set (h := headerScan (S (length masks)) masks 0 0) in *.
  assert (Hcount : Z.of_nat (length masks) / 3 * 64
                   = 64 * Z.of_nat ((length masks + 2) / 3)).
  { pose proof (Nat.div_mod_eq (length masks) 3) as Hd.
    pose proof (Nat.div_mod_eq (length masks + 2) 3) as Hd2.
    pose proof (Nat.mod_upper_bound (length masks + 2) 3).
    rewrite Hmod in Hd.
    assert ((length masks + 2) / 3 = length masks / 3)%nat as -> by lia.
    rewrite Nat2Z.inj_div. change (Z.of_nat 3) with 3. lia. }
  assert (Hinside : forall q, delimiterBit masks q ->
                      q < 64 * Z.of_nat ((length masks + 2) / 3)).
  { intros q Hq. apply delimiterBit_inside in Hq as [Hq0 Hq].
    pose proof (Nat.div_mod_eq (length masks + 2) 3).
    pose proof (Nat.mod_upper_bound (length masks + 2) 3).
    assert (Z.of_nat (Z.to_nat (q / 64)) = q / 64)
      by (apply Z2Nat.id, Z.div_pos; lia).
    pose proof (Z.div_mod q 64). pose proof (Z.mod_pos_bound q 64). lia. }
  split.
  - intros [q Hq].
    assert (Hh : delimiterBit masks h).
    { destruct Hend as [?|Hend]; [done|].
      exfalso. apply (Hno q); [|done].
      pose proof (Hinside q Hq). destruct Hq as [? _]. lia. }
    pose proof (Hinside h Hh).
    destruct (Z.eqb_spec h (Z.of_nat (length masks) / 3 * 64)); [lia|].
    split; [done|]. intros q' Hq'. apply Hno. lia.
  - intros Hnone.
    destruct Hend as [Hh|Hend]; [by apply Hnone in Hh|].
    destruct (Z.eqb_spec h (Z.of_nat (length masks) / 3 * 64)); [done|lia].
Qed.

(** X10 (the header).  For the first chunk the header is 0.  For a later
    chunk, with masks of whole triples, the header is the position of
    the first row delimiter that the masks show, with no delimiter
    before it, and the length of the chunk when the masks show no
    delimiter at all. *)
Theorem computeHeader_first_delimiter (sequence : Z) (masks : list Z)
    (chunk : chunkIn) :
  (length masks mod 3 = 0)%nat ->
  (sequence <= 0 -> computeHeader sequence masks chunk = 0) /\
  (0 < sequence ->
   ((exists q, delimiterBit masks q) ->
    delimiterBit masks (computeHeader sequence masks chunk) /\
    forall q, 0 <= q < computeHeader sequence masks chunk ->
              ~ delimiterBit masks q) /\
   ((forall q, ~ delimiterBit masks q) ->
    computeHeader sequence masks chunk = Z.of_nat (length (buf chunk)))).
Proof.
  intros Hmod. split.
  - intros Hseq. unfold computeHeader.
    by destruct (Z.gtb_spec sequence 0); [lia|].
  - intros Hseq. by apply computeHeader_later.
Qed.

Lemma computeHeader_first_delimiter_witness :
  computeHeader 1 [8; 2; 0] {| buf := bytes "c,d" ++ nl; last := true |} = 3 /\
  delimiterBit [8; 2; 0] 3.
Proof.
  split; [reflexivity|].
  refine (proj1 (proj1 (proj2 (computeHeader_first_delimiter 1 [8; 2; 0]
            {| buf := bytes "c,d" ++ nl; last := true |} eq_refl)
            ltac:(lia)) _)).
  exists 3. split; [lia|]. by exists 8.
Defined.

(** The second loop of [stage1Streaming] over masks of [n] triples,
    entered at the [i]-th triple from the end with the 64 ([i] - 1) bits
    above it counted: it stops at the last delimiter bit of the triples
    1 to [n] - 1, or before triple 0. *)
Lemma trailerScan_spec (masks : list Z) (n fuel i : nat) :
  length masks = (3 * n)%nat ->
  (1 <= i)%nat -> (i <= n)%nat -> (n < i + fuel)%nat ->
  let t := trailerScan fuel masks (3 * i) (64 * (Z.of_nat i - 1)) in
  64 * (Z.of_nat i - 1) <= t <= 64 * (Z.of_nat n - 1) /\
  (forall p, 64 * (Z.of_nat i - 1) <= p < t ->
             ~ delimiterBit masks (64 * Z.of_nat n - 1 - p)) /\
  (t < 64 * (Z.of_nat n - 1) ->
   delimiterBit masks (64 * Z.of_nat n - 1 - t)).
Proof.
  intros Hlen. revert i. induction fuel as [|fuel IH]; intros i Hi Hin Hfuel;
    [lia|].
  cbn [trailerScan].
  destruct (Nat.ltb_spec (3 * i) (length masks)) as [Hlt|Hge].
  - (* triple [n - i] is looked at *)
    destruct (lookup_lt_is_Some_2 masks (length masks - 3 * i)) as [m Hm];
      [lia|].
    rewrite Hm. cbn zeta.
    assert (Hm' : masks !! (3 * (n - i))%nat = Some m).
    { rewrite <- Hm. f_equal. lia. }
    pose proof (lz_from_spec 64 m 0) as (Hb & Hz & Hs).
    fold (Go.LeadingZeros64 m) in Hb, Hz, Hs.
    assert (Hpos : forall p, 64 * (Z.of_nat i - 1) <= p < 64 * Z.of_nat i ->
              64 * Z.of_nat n - 1 - p
              = 64 * Z.of_nat (n - i)
                + (63 - (p - 64 * (Z.of_nat i - 1)))) by (intros; lia).
    destruct (Z.ltb_spec (Go.LeadingZeros64 m) 64) as [Hl|Hl].
    + (* a delimiter in this word *)
      split; [lia|]. split.
      * intros p Hp Hbit. rewrite Hpos in Hbit by lia.
        apply (delimiterBit_word masks (n - i) m) in Hbit; [|done|lia].
        rewrite Hz in Hbit by lia. done.
      * intros _. rewrite Hpos by lia.
        apply (delimiterBit_word masks (n - i) m); [done|lia|].
        replace (63 - (64 * (Z.of_nat i - 1) + Go.LeadingZeros64 m
                       - 64 * (Z.of_nat i - 1)))
          with (63 - Go.LeadingZeros64 m) by lia.
        apply Hs. lia.
    + (* no delimiter in this word *)
      assert (Hlz : Go.LeadingZeros64 m = 64) by lia. rewrite Hlz.
      replace (3 * i + 3)%nat with (3 * S i)%nat by lia.
      replace (64 * (Z.of_nat i - 1) + 64) with (64 * (Z.of_nat (S i) - 1))
        by lia.
      destruct (IH (S i)) as (Hle & Hno & Hend); [lia|lia|lia|].
      split; [lia|]. split; [|done].
      intros p Hp.
      destruct (Z.lt_ge_cases p (64 * Z.of_nat i)) as [Hinw|Hout].
      * intros Hbit. rewrite Hpos in Hbit by lia.
        apply (delimiterBit_word masks (n - i) m) in Hbit; [|done|lia].
        rewrite Hz in Hbit by lia. done.
      * apply Hno. lia.
  - (* triple 0 is not looked at *)
    assert (i = n) by lia. subst i.
    split; [lia|]. split; intros; lia.
Qed.

(** X11 (the trailer).  With masks of [n] whole triples the trailer is 0
    for the last chunk and for a chunk that is all header; otherwise it
    counts the positions above the last row delimiter that the masks
    show in the triples 1 to [n] - 1, from the end of the masks; the
    first triple is never looked at, so the trailer is at most
    64 ([n] - 1). *)
Theorem computeTrailer_last_delimiter (header : Z) (masks : list Z)
    (chunk : chunkIn) (n : nat) :
  length masks = (3 * n)%nat ->
  let trailer := computeTrailer header masks chunk in
  (last chunk = true \/ Z.of_nat (length (buf chunk)) <= header ->
   trailer = 0) /\
  0 <= trailer <= 64 * Z.of_nat (n - 1) /\
  (forall p, 0 <= p < trailer ->
             ~ delimiterBit masks (64 * Z.of_nat n - 1 - p)) /\
  (last chunk = false -> header < Z.of_nat (length (buf chunk)) ->
   trailer < 64 * Z.of_nat (n - 1) ->
   delimiterBit masks (64 * Z.of_nat n - 1 - trailer)).
Proof.
  intros Hlen. cbn zeta. unfold computeTrailer.
  destruct (last chunk) eqn:Hlast; cbn [negb andb].
  { split; [done|]. split; [lia|]. split; [intros; lia|done]. }
  destruct (Z.ltb_spec header (Z.of_nat (length (buf chunk)))) as [Hh|Hh].
  2:{ split; [done|]. split; [lia|]. split; [intros; lia|]. intros; lia. }
  split; [intros [?|?]; [done|lia]|].
  destruct n as [|n].
  { (* no mask at all *)
    destruct masks; [|done]. cbn. split; [lia|]. split; intros; lia. }
  pose proof (trailerScan_spec masks (S n) (S (length masks)) 1 Hlen
                ltac:(lia) ltac:(lia) ltac:(lia)) as (Hle & Hno & Hend).
  cbn zeta in Hle, Hno, Hend.
  change (3 * 1)%nat with 3%nat in *.
  change (64 * (Z.of_nat 1 - 1)) with 0 in *.
  replace (Z.of_nat (S n - 1)) with (Z.of_nat (S n) - 1) by lia.
  split; [lia|]. split; [done|]. intros _ _. exact Hend.
Qed.

Lemma computeTrailer_last_delimiter_witness :
  computeTrailer 0 [8; 2; 0; 0; 2; 0]
                 {| buf := Scenario.longTrailerChunk; last := false |} = 64 /\
  forall p, 0 <= p < 64 -> ~ delimiterBit [8; 2; 0; 0; 2; 0] (127 - p).
Proof.
  split; [reflexivity|].
  exact (proj1 (proj2 (proj2
           (computeTrailer_last_delimiter 0 [8; 2; 0; 0; 2; 0]
              {| buf := Scenario.longTrailerChunk; last := false |} 2
              eq_refl)))).
Defined.

(** X12 (a chunk without row delimiter).  When the masks of a chunk after
    the first show no row delimiter, Stage 1 sends no chunk for Stage 2
    but the whole buffer as the end of the split row, and starts the
    split row of the next chunk from nothing: a row that runs over three
    chunks is handed to the reference parser in two pieces. *)
Theorem stage1Streaming_chunk_without_delimiter `{Externals} (r : Reader)
    (c : chunkIn) (rest : list chunkIn) (sequence quoted : Z)
    (splitRow : list byte) (masks postProc : list Z) (quoted' : Z) :
  0 < sequence ->
  stage1PreprocessBufferEx (buf c) (Go.u64 (Comma r)) quoted
  = (masks, postProc, quoted') ->
  (length masks mod 3 = 0)%nat ->
  (forall q, ~ delimiterBit masks q) ->
  stage1Streaming_loop r (c :: rest) sequence quoted splitRow
  = infos ← stage1Streaming_loop r rest (sequence + 1) quoted' [];
    Some ({| ci_sequence := sequence; ci_chunk := None; ci_masks := [];
             ci_postProc := []; ci_header := 0; ci_trailer := 0;
             ci_splitRow := splitRow ++ buf c |} :: infos).
Proof.
  intros Hseq Hs1 Hmod Hnone.
  cbn [stage1Streaming_loop]. rewrite Hs1.
  destruct (computeHeader_later sequence masks c Hmod Hseq) as [_ Hlen].
  rewrite (Hlen Hnone).
  unfold computeTrailer. rewrite Z.ltb_irrefl, andb_false_r.
  unfold Go.slice.
  replace ((0 <=? 0) && (0 <=? Z.of_nat (length (buf c)))
           && (Z.of_nat (length (buf c)) <=? Z.of_nat (length (buf c))))
    with true by (symmetry; repeat (apply andb_true_iff; split); lia).
  replace ((0 <=? Z.of_nat (length (buf c)) - 0)
           && (Z.of_nat (length (buf c)) - 0 <=? Z.of_nat (length (buf c)))
           && (Z.of_nat (length (buf c)) <=? Z.of_nat (length (buf c))))
    with true by (symmetry; repeat (apply andb_true_iff; split); lia).
  cbn [mbind option_bind].
  replace (Z.of_nat (length (buf c)) - 0) with (Z.of_nat (length (buf c)))
    by lia.
  rewrite Z.sub_diag, Nat2Z.id, drop_0, firstn_all, drop_all.
  change (Z.to_nat 0) with 0%nat. rewrite take_0.
  done.
Qed.

Lemma stage1Streaming_chunk_without_delimiter_witness :
  stage1Streaming_loop (newReader 0)
    [ {| buf := bytes "b,c"; last := false |};
      {| buf := bytes "d" ++ nl; last := true |} ] 1 0 (bytes "a,")
  = infos ← stage1Streaming_loop (newReader 0)
              [ {| buf := bytes "d" ++ nl; last := true |} ] 2 0 [];
    Some ({| ci_sequence := 1; ci_chunk := None; ci_masks := [];
             ci_postProc := []; ci_header := 0; ci_trailer := 0;
             ci_splitRow := bytes "a," ++ bytes "b,c" |} :: infos).
Proof.
  apply (stage1Streaming_chunk_without_delimiter (newReader 0)
           {| buf := bytes "b,c"; last := false |}
           [ {| buf := bytes "d" ++ nl; last := true |} ] 1 0 (bytes "a,")
           [0; 2; 0] [] 0); [lia|reflexivity|reflexivity|].
  intros q (Hq & m & Hm & Hbit).
  assert (m = 0).
  { destruct (Z.to_nat (3 * (q / 64))) as [|[|[|k]]] eqn:E; cbn in Hm;
      [congruence| | |done].
    - assert (0 <= q / 64) by (apply Z.div_pos; lia). lia.
    - assert (0 <= q / 64) by (apply Z.div_pos; lia). lia. }
  subst m. by rewrite Z.bits_0 in Hbit.
Defined.


(** ** [stage2Streaming]: the rows of the slab *)

Lemma collectRows_S (fuel : nat) (rows : list Z) (columns : list string)
    (lines line : Z) (acc : list (list string)) :
  collectRows (S fuel) rows columns lines line acc
  = if line <? lines then
      start ← Go.index rows line;
      count ← Go.index rows (line + 1);
      row ← Go.slice columns start (start + count);
      collectRows fuel rows columns lines (line + 2) (acc ++ [row])
    else Some acc.
Proof. reflexivity. Qed.

Lemma collectRows_from (fuel : nat) (rows : list Z) (columns : list string)
    (lines line : Z) (acc res : list (list string)) :
  lines - line < 2 * Z.of_nat fuel ->
  collectRows fuel rows columns lines line acc = Some res ->
  exists own,
    res = acc ++ own /\
    Z.of_nat (length own) = Z.max 0 ((lines - line + 1) / 2) /\
    forall (k : nat) rec,
      own !! k = Some rec ->
      exists start count,
        Go.index rows (line + 2 * Z.of_nat k) = Some start /\
        Go.index rows (line + 2 * Z.of_nat k + 1) = Some count /\
        Go.slice columns start (start + count) = Some rec.
Proof.
  revert line acc. induction fuel as [|fuel IH]; intros line acc Hfuel.
  - change (collectRows 0 rows columns lines line acc) with (Some acc).
    intros [= <-]. exists []. rewrite app_nil_r. split; [done|].
    split; [|done]. cbn.
    assert ((lines - line + 1) / 2 < 1)
      by (apply Z.div_lt_upper_bound; lia). lia.
  - rewrite collectRows_S.
    destruct (Z.ltb_spec line lines) as [Hlt|Hge].
    + destruct (Go.index rows line) as [start|] eqn:Hs; [|done].
      destruct (Go.index rows (line + 1)) as [count|] eqn:Hc; [|done].
      cbn [mbind option_bind].
      destruct (Go.slice columns start (start + count)) as [row|] eqn:Hr;
        [|done].
      cbn [mbind option_bind]. intros Hres.
      destruct (IH (line + 2) (acc ++ [row]) ltac:(lia) Hres)
        as (own & -> & Hlen & Hown).
      exists (row :: own). split; [by rewrite <- app_assoc|]. split.
      * cbn [length]. rewrite Nat2Z.inj_succ, Hlen.
        replace (lines - line + 1) with (lines - (line + 2) + 1 + 1 * 2)
          by lia.
        rewrite Z.div_add by lia.
        assert (0 <= (lines - (line + 2) + 1) / 2)
          by (apply Z.div_pos; lia). lia.
      * intros [|k] rec.
        -- intros [= <-]. exists start, count.
           rewrite Z.add_0_r. done.
        -- intros Hk. destruct (Hown k rec Hk) as (s & c & H1 & H2 & H3).
           exists s, c. split; [|split; [|done]].
           ++ rewrite <- H1. f_equal. lia.
           ++ rewrite <- H2. f_equal. lia.
    + intros [= <-]. exists []. rewrite app_nil_r. split; [done|].
      split; [|done]. cbn.
      assert ((lines - line + 1) / 2 < 1)
        by (apply Z.div_lt_upper_bound; lia). lia.
Qed.

(** X13 (the records of a chunk).  When the loop over the rows that Stage 2
    reports does not panic, it appends ceil(line/2) records to those of
    the split row, and record [k] is the slice of the columns that the
    pair at index 2 [k] of the rows names by its start and its length. *)
Theorem collectRows_records (rows : list Z) (columns : list string)
    (lines : Z) (acc res : list (list string)) :
  collectRows (S (Z.to_nat lines)) rows columns lines 0 acc = Some res ->
  exists own,
    res = acc ++ own /\
    Z.of_nat (length own) = Z.max 0 ((lines + 1) / 2) /\
    forall (k : nat) rec,
      own !! k = Some rec ->
      exists start count,
        Go.index rows (2 * Z.of_nat k) = Some start /\
        Go.index rows (2 * Z.of_nat k + 1) = Some count /\
        Go.slice columns start (start + count) = Some rec.
Proof.
  intros Hres.
  destruct (collectRows_from (S (Z.to_nat lines)) rows columns lines 0 acc
              res ltac:(lia) Hres)
    as (own & Heq & Hlen & Hown).
  exists own. split; [done|]. split.
  - rewrite Hlen. do 2 f_equal. lia.
  - intros k rec Hk. destruct (Hown k rec Hk) as (s & c & H1 & H2 & H3).
    by exists s, c.
Qed.

Lemma collectRows_records_witness :
  exists own,
    [["s"]; ["a"; "b"]; ["c"]] = [["s"]] ++ own /\
    Z.of_nat (length own) = Z.max 0 ((4 + 1) / 2) /\
    forall (k : nat) rec,
      own !! k = Some rec ->
      exists start count,
        Go.index [0; 2; 2; 1] (2 * Z.of_nat k) = Some start /\
        Go.index [0; 2; 2; 1] (2 * Z.of_nat k + 1) = Some count /\
        Go.slice ["a"; "b"; "c"] start (start + count) = Some rec.
Proof.
  apply (collectRows_records [0; 2; 2; 1] ["a"; "b"; "c"] 4 [["s"]]).
  reflexivity.
Defined.


(** ** The pipeline when no chunk falls back *)

Lemma Permutation_first_worker {A} (a b c d e f g : list A) :
  a ++ b ++ c ≡ₚ d -> e ++ f ≡ₚ a ++ b ++ g -> e ++ f ++ c ≡ₚ d ++ g.
Proof.
  intros H1 H2. rewrite (assoc_L (++) e f c), H2, <- H1.
  rewrite <- !(assoc_L (++)). do 2 f_equiv. apply (comm (++)).
Qed.

Lemma Permutation_second_worker {A} (a b c d e f g : list A) :
  a ++ b ++ c ≡ₚ d -> e ++ f ≡ₚ a ++ c ++ g -> e ++ b ++ f ≡ₚ d ++ g.
Proof.
  intros H1 H2. rewrite (Permutation_app_swap_app e b f), H2, <- H1.
  rewrite (Permutation_app_swap_app b a (c ++ g)).
  by rewrite <- !(assoc_L (++)).
Qed.

Section CleanRunsFacts.

Context `{Externals}.
Variable r : Reader.
Hypothesis fpr_set : FieldsPerRecord r <> 0.

Lemma chunkOutput_sequence ci :
  ro_sequence (chunkOutput r ci) = ci_sequence ci /\
  ro_err (chunkOutput r ci) = None.
Proof.
  unfold chunkOutput. by destruct (stage2_parse r ci) as [[]|].
Qed.

(** One step of a worker. *)
Lemma workerStep_clean s w s' w' :
  workerStep r s w = Some (s', w') ->
  fieldsPerRecord s = FieldsPerRecord r ->
  workerClean r w ->
  Forall (parsesCleanly r) (chunks s) ->
  fieldsPerRecord s' = fieldsPerRecord s /\
  workerClean r w' /\
  (w' = WDone -> chunks s' = []) /\
  exists taken,
    chunks s = taken ++ chunks s' /\
    out s' ++ workerOutputs r w'
    ≡ₚ out s ++ workerOutputs r w ++ (chunkOutput r <$> taken).
Proof.
  intros Hstep Hfpr Hw Hall.
  destruct w as [|ci recs input|ci recs input|ci recs input|o c| |];
    cbn in Hstep, Hw; try done.
  - (* a receive *)
    destruct (chunks s) as [|ci rest] eqn:Hchunks.
    + injection Hstep as <- <-. rewrite Hchunks.
      split; [done|]. split; [done|]. split; [done|].
      exists []. by rewrite ?app_nil_r.
    + injection Hstep as <- <-.
      apply Forall_cons in Hall as [Hci _].
      cbn [chunks fieldsPerRecord out].
      split; [done|].
      assert (Hout : chunkOutput r <$> [ci] = [chunkOutput r ci]) by done.
      unfold afterRecv. pose proof Hci as Hci'.
      unfold parsesCleanly in Hci'.
      destruct (stage2_parse r ci) as [[o|recs input|recs]|] eqn:Hp;
        try done.
      * split; [done|]. split; [done|]. exists [ci]. split; [done|].
        by rewrite Hout.
      * split; [done|]. split; [done|]. exists [ci]. split; [done|].
        rewrite Hout. cbn [workerOutputs app].
        unfold chunkOutput. by rewrite Hp.
  - (* the first load *)
    rewrite Hfpr, (proj2 (Z.eqb_neq _ _) fpr_set) in Hstep.
    injection Hstep as <- <-.
    split; [done|]. split; [done|]. split; [done|].
    exists []. by rewrite ?app_nil_r.
  - (* the second load *)
    destruct Hw as [Hp Hclean].
    assert (Hok : (if fieldsPerRecord s >? 0
                   then checkFields recs 0 (fieldsPerRecord s) else None)
                  = None).
    { rewrite Hfpr. unfold parsesCleanly in Hclean. rewrite Hp in Hclean.
      destruct (Z.gtb_spec (FieldsPerRecord r) 0) as [Hpos|]; [|done].
      destruct Hclean as [?|Hall']; [lia|].
      pose proof (checkFields_spec recs 0 (FieldsPerRecord r)) as Hspec.
      destruct (checkFields recs 0 (FieldsPerRecord r)); [|done].
      destruct Hspec as (k & rec & Hk & Hne & _).
      rewrite Forall_forall in Hall'.
      exfalso. apply Hne, Hall'. by eapply list_elem_of_lookup_2. }
    rewrite Hok in Hstep. injection Hstep as <- <-.
    split; [done|]. split; [done|]. split; [done|].
    exists []. cbn. unfold chunkOutput. rewrite Hp. by rewrite ?app_nil_r.
  - (* a send *)
    subst c. injection Hstep as <- <-. cbn.
    split; [done|]. split; [done|]. split; [done|].
    exists []. by rewrite ?app_nil_r.
Qed.

Lemma cleanRun_start infos :
  cleanRun r infos (start r infos).
Proof.
  unfold cleanRun, start. cbn.
  split; [done|]. split; [done|]. split; [done|].
  split; [by intros [|]|]. by exists [].
Qed.

Lemma cleanRun_step infos p p' :
  Forall (parsesCleanly r) infos ->
  cleanRun r infos p -> step r p p' -> cleanRun r infos p'.
Proof.
  intros Hall (Hfpr & Hw1 & Hw2 & Hdone & consumed & Hcons & Hperm) [i Hstep].
  assert (Hrest : Forall (parsesCleanly r) (chunks (sh p))).
  { rewrite Hcons in Hall. by apply Forall_app in Hall as [_ ?]. }
  unfold pipeStep in Hstep. destruct i.
  - destruct (workerStep r (sh p) (worker1 p)) as [[s w]|] eqn:Hs; [|done].
    injection Hstep as <-.
    destruct (workerStep_clean _ _ _ _ Hs Hfpr Hw1 Hrest)
      as (Hf & Hw & Hd & taken & Htaken & Hout).
    unfold cleanRun. cbn.
    split; [congruence|]. split; [done|]. split; [done|].
    split.
    { intros [Hd1|Hd2]; [by apply Hd|].
      specialize (Hdone (or_intror Hd2)). rewrite Hdone in Htaken.
      symmetry in Htaken. by apply app_eq_nil in Htaken as [_ ?]. }
    exists (consumed ++ taken). split.
    { rewrite Hcons, Htaken. by rewrite app_assoc. }
    rewrite fmap_app. by eapply Permutation_first_worker.
  - destruct (workerStep r (sh p) (worker2 p)) as [[s w]|] eqn:Hs; [|done].
    injection Hstep as <-.
    destruct (workerStep_clean _ _ _ _ Hs Hfpr Hw2 Hrest)
      as (Hf & Hw & Hd & taken & Htaken & Hout).
    unfold cleanRun. cbn.
    split; [congruence|]. split; [done|]. split; [done|].
    split.
    { intros [Hd1|Hd2]; [|by apply Hd].
      specialize (Hdone (or_introl Hd1)). rewrite Hdone in Htaken.
      symmetry in Htaken. by apply app_eq_nil in Htaken as [_ ?]. }
    exists (consumed ++ taken). split.
    { rewrite Hcons, Htaken. by rewrite app_assoc. }
    rewrite fmap_app. by eapply Permutation_second_worker.
Qed.

Lemma cleanRun_steps infos p :
  Forall (parsesCleanly r) infos ->
  rtc (step r) (start r infos) p -> cleanRun r infos p.
Proof.
  intros Hall. revert p. apply rtc_ind_r.
  - apply cleanRun_start.
  - intros p p' _ Hstep IH. by eapply cleanRun_step.
Qed.

End CleanRunsFacts.

Lemma fmap_imap_numbered {A} (f : A -> recordsOutput) (l : list A)
    (n : nat) :
  (forall (k : nat) x, l !! k = Some x ->
     f x = numbered (n + k) (ro_records (f x))) ->
  f <$> l
  = imap (fun k => numbered (n + k)) ((fun x => ro_records (f x)) <$> l).
Proof.
  revert n. induction l as [|x l IH]; intros n Hl; [done|].
  cbn. f_equal.
  - rewrite (Hl 0%nat x eq_refl) at 1. done.
  - rewrite (IH (S n)).
    + apply imap_ext. intros k y _. cbn. f_equal. lia.
    + intros k y Hk. rewrite (Hl (S k) y Hk). f_equal. lia.
Qed.

(** X16 (the result without fallback).  On the SIMD path, with
    [FieldsPerRecord] not 0, when every chunk that Stage 1 sends goes
    through its worker without a fallback, no worker panics and
    [ReadAll] returns, whatever the interleaving of the two workers, the
    records of the chunks in the order of the input, and a nil error. *)
Theorem ReadAll_without_fallback `{Externals} (r : Reader) (src : source)
    (bufchan : list chunkIn) (infos : list chunkInfo) (o : outcome) :
  SupportedCPU = true ->
  readAllStreaming_plan r = PlanSimd ->
  FieldsPerRecord r <> 0 ->
  producer src = Produced bufchan ->
  stage1Streaming r bufchan = Some infos ->
  Forall (parsesCleanly r) infos ->
  ReadAll r src o ->
  o = Returns (concat ((fun ci => ro_records (chunkOutput r ci)) <$> infos))
              None.
Proof.
  intros Hcpu Hplan Hfpr Hprod Hs1 Hall HR.
  inversion HR as [| | |bufchan' infos' p _ _ Hq Hs1' Hrun Hcl
                   |bufchan' msg _ _ Hq
                   |bufchan' _ _ Hq Hs1'
                   |bufchan' infos' p _ _ Hq Hs1' Hrun Hpn];
    subst; try congruence.
  - rewrite Hprod in Hq. injection Hq as <-.
    rewrite Hs1 in Hs1'. injection Hs1' as <-.
    destruct (cleanRun_steps r Hfpr infos p Hall Hrun)
      as (_ & _ & _ & Hdone & consumed & Hcons & Hperm).
    destruct Hcl as [Hc1 Hc2].
    rewrite Hdone in Hcons by (by left).
    rewrite app_nil_r in Hcons. subst consumed.
    rewrite Hc1, Hc2 in Hperm. cbn in Hperm. rewrite app_nil_r in Hperm.
    rewrite (fmap_imap_numbered (chunkOutput r) infos 0) in Hperm.
    + change (fun k => numbered (0 + k)) with numbered in Hperm.
      by rewrite (ReadAll_collect_permutation _ _ Hperm).
    + intros k ci Hk. cbn.
      destruct (chunkOutput_sequence r ci) as [Hseq Herr].
      rewrite (stage1Streaming_loop_sequence r _ _ _ _ _ Hs1 k ci Hk) in Hseq.
      destruct (chunkOutput r ci) as [s recs e]. cbn in *. subst.
      unfold numbered. f_equal; lia.
  - rewrite Hprod in Hq. injection Hq as <-.
    rewrite Hs1 in Hs1'. injection Hs1' as <-.
    destruct (cleanRun_steps r Hfpr infos p Hall Hrun)
      as (_ & Hw1 & Hw2 & _).
    destruct Hpn as [Hpn|Hpn]; rewrite Hpn in *; done.
Qed.

Lemma ReadAll_without_fallback_witness :
  exists infos,
    stage1Streaming (newReader (-1))
      [ {| buf := bytes "aa,bb,c" ++ nl; last := false |};
        {| buf := bytes "1,2" ++ nl; last := true |} ] = Some infos /\
    Returns [["aa"; "bb"; "c"]; ["1"; "2"]] None
    = Returns (concat ((fun ci => ro_records (chunkOutput (newReader (-1)) ci))
                         <$> infos)) None.
Proof.
  eexists. split; [vm_compute; reflexivity|].
  apply (ReadAll_without_fallback (newReader (-1)) Scenario.unevenSource
           [ {| buf := bytes "aa,bb,c" ++ nl; last := false |};
             {| buf := bytes "1,2" ++ nl; last := true |} ]).
  - reflexivity.
  - reflexivity.
  - done.
  - vm_compute. reflexivity.
  - vm_compute. reflexivity.
  - repeat constructor; vm_compute; by left.
  - change (Returns [["aa"; "bb"; "c"]; ["1"; "2"]] None)
      with (returns ([["aa"; "bb"; "c"]; ["1"; "2"]], None)).
    apply (simdRun_ReadAll (newReader (-1)) Scenario.unevenSource
             [W1; W2; W2; W2; W2; W1; W1; W1; W1; W2]);
      [reflexivity|reflexivity|vm_compute; reflexivity].
Defined.


#[local] Arguments gaveUp : simpl never.
(** ** The workers give up after a fallback *)

Lemma gaveUp_snoc (out : list recordsOutput) (o : recordsOutput) :
  gaveUp (out ++ [o])
  = (gaveUp out + if (ro_sequence o =? -1)%Z then 1 else 0)%nat.
Proof.
  unfold gaveUp. rewrite List.filter_app, length_app. cbn.
  by destruct (ro_sequence o =? -1).
Qed.

Section GivingUpFacts.

Context `{Externals}.
Variable r : Reader.

Lemma afterRecv_numbered ci :
  0 <= ci_sequence ci ->
  afterRecv r ci = WPanic \/
  (workerNumbered (afterRecv r ci) /\ inHand (afterRecv r ci) = 1%nat).
Proof.
  intros Hseq. unfold afterRecv, stage2_parse.
  destruct (if 0 <? Z.of_nat (length (ci_splitRow ci))
            then encodingCsv (ci_splitRow ci) (Comma r) else ([], None))
    as [records [e|]]; [by right|].
  destruct (ci_chunk ci) as [chunk|]; [|by right].
  destruct (clipMasks _ _ _) as [masks|]; [|by left]. cbn.
  destruct (payload _ _ _) as [input|]; [|by left]. cbn.
  destruct (Go.slice masks _ _) as [masksTail|]; [|by left]. cbn.
  destruct (s2_parsingError _).
  { right. split; [|done]. cbn. apply fallback_sequence. }
  destruct (collectRows _ _ _ _ _ _) as [simdrecords|]; [|by left]. cbn.
  destruct (postProcess _ _ _ _) as [simdrecords'|]; [|by left]. cbn.
  by right.
Qed.

(** One step of a worker that does not panic. *)
Lemma workerStep_accounted s w s' w' :
  workerStep r s w = Some (s', w') ->
  w' <> WPanic ->
  Forall (fun ci => 0 <= ci_sequence ci) (chunks s) ->
  workerNumbered w ->
  Forall (fun ci => 0 <= ci_sequence ci) (chunks s') /\
  workerNumbered w' /\
  (length (out s') + inHand w' + length (chunks s')
   = length (out s) + inHand w + length (chunks s))%nat /\
  (gaveUp (out s') + returned w = gaveUp (out s) + returned w'
   \/ (chunks s' = [] /\ out s' = out s /\ returned w' = 1%nat))%nat /\
  (returned w <= returned w')%nat /\
  (gaveUp (out s) <= gaveUp (out s'))%nat /\
  (chunks s = [] -> chunks s' = []).
Proof.
  intros Hstep Hnp Hall Hw.
  destruct w as [|ci recs input|ci recs input|ci recs input|o c| |];
    cbn in Hstep; try done.
  - (* a receive *)
    destruct (chunks s) as [|ci rest] eqn:Hchunks.
    + injection Hstep as <- <-. rewrite Hchunks.
      split; [done|]. split; [done|]. split; [done|].
      split; [by right|]. split; [cbn; lia|]. split; [lia|done].
    + injection Hstep as <- <-. cbn [chunks out fieldsPerRecord] in *.
      apply Forall_cons in Hall as [Hci Hrest].
      destruct (afterRecv_numbered ci Hci) as [Hp|[Hn Hh]]; [done|].
      split; [done|]. split; [done|].
      split; [rewrite Hh; cbn [inHand length]; lia|].
      split.
      { left. destruct (afterRecv r ci); cbn [returned inHand] in *; lia. }
      split; [cbn; lia|]. split; [lia|done].
  - (* the first load *)
    destruct (fieldsPerRecord s =? 0);
      [destruct (0 <? Z.of_nat (length recs))|];
      injection Hstep as <- <-; cbn;
      (split; [done|]; split; [done|]; split; [done|];
       split; [by left|]; split; [lia|]; split; [lia|done]).
  - (* the store *)
    injection Hstep as <- <-. cbn.
    split; [done|]. split; [done|]. split; [done|].
    split; [by left|]. split; [lia|]. split; [lia|done].
  - (* the second load *)
    destruct (if fieldsPerRecord s >? 0
              then checkFields recs 0 (fieldsPerRecord s) else None);
      injection Hstep as <- <-; cbn.
    + split; [done|]. split; [apply fallback_sequence|]. split; [done|].
      split; [by left|]. split; [lia|]. split; [lia|done].
    + split; [done|]. split; [done|]. split; [done|].
      split; [by left|]. split; [lia|]. split; [lia|done].
  - (* a send *)
    injection Hstep as <- <-. cbn [chunks out fieldsPerRecord] in *.
    rewrite gaveUp_snoc, length_app. cbn in Hw.
    destruct c; cbn.
    + destruct (Z.eqb_spec (ro_sequence o) (-1)); [lia|].
      split; [done|]. split; [done|]. split; [lia|].
      split; [left; lia|]. split; [lia|]. split; [lia|done].
    + rewrite Hw. cbn.
      split; [done|]. split; [done|]. split; [lia|].
      split; [left; lia|]. split; [lia|]. split; [lia|done].
Qed.

Lemma accounted_start infos :
  Forall (fun ci => 0 <= ci_sequence ci) infos ->
  accounted infos (start r infos).
Proof.
  intros Hall. unfold accounted, start, gaveUp. cbn.
  split; [done|]. split; [done|]. split; [done|].
  split; [lia|]. split; [lia|done].
Qed.

Lemma accounted_step infos p p' :
  accounted infos p -> step r p p' -> ~ panicked p' ->
  accounted infos p'.
Proof.
  intros (Hall & Hw1 & Hw2 & Hcount & Hle & Heq) [i Hstep] Hnp.
  unfold pipeStep in Hstep. destruct i.
  - destruct (workerStep r (sh p) (worker1 p)) as [[s w]|] eqn:Hs; [|done].
    injection Hstep as <-.
    assert (Hw : w <> WPanic) by (intros ->; apply Hnp; by left).
    destruct (workerStep_accounted _ _ _ _ Hs Hw Hall Hw1)
      as (Hall' & Hw' & Hc & Hg & Hr & Hm & He).
    unfold accounted. cbn.
    split; [done|]. split; [done|]. split; [done|].
    split; [lia|].
    destruct Hg as [Hg|(Hnil & Hout & Hret)].
    + split; [lia|]. intros Hne.
      assert (chunks (sh p) <> []) by (intros Hc0; by apply He in Hc0).
      specialize (Heq ltac:(done)). lia.
    + rewrite Hout. split; [lia|]. by rewrite Hnil.
  - destruct (workerStep r (sh p) (worker2 p)) as [[s w]|] eqn:Hs; [|done].
    injection Hstep as <-.
    assert (Hw : w <> WPanic) by (intros ->; apply Hnp; by right).
    destruct (workerStep_accounted _ _ _ _ Hs Hw Hall Hw2)
      as (Hall' & Hw' & Hc & Hg & Hr & Hm & He).
    unfold accounted. cbn.
    split; [done|]. split; [done|]. split; [done|].
    split; [lia|].
    destruct Hg as [Hg|(Hnil & Hout & Hret)].
    + split; [lia|]. intros Hne.
      assert (chunks (sh p) <> []) by (intros Hc0; by apply He in Hc0).
      specialize (Heq ltac:(done)). lia.
    + rewrite Hout. split; [lia|]. by rewrite Hnil.
Qed.

(** A worker that has panicked stays so. *)
Lemma panicked_step p p' : panicked p -> step r p p' -> panicked p'.
Proof.
  intros Hp [i Hstep]. unfold pipeStep in Hstep.
  destruct i.
  - destruct (workerStep r (sh p) (worker1 p)) as [[s w]|] eqn:Hs; [|done].
    injection Hstep as <-. destruct Hp as [Hp|Hp].
    + rewrite Hp in Hs. done.
    + by right.
  - destruct (workerStep r (sh p) (worker2 p)) as [[s w]|] eqn:Hs; [|done].
    injection Hstep as <-. destruct Hp as [Hp|Hp].
    + by left.
    + rewrite Hp in Hs. done.
Qed.

Lemma accounted_steps infos p :
  Forall (fun ci => 0 <= ci_sequence ci) infos ->
  rtc (step r) (start r infos) p ->
  ~ panicked p -> accounted infos p.
Proof.
  intros Hall. revert p.
  apply (rtc_ind_r (fun p => ~ panicked p -> accounted infos p)).
  - intros _. by apply accounted_start.
  - intros p p' _ Hstep IH Hnp. eapply accounted_step; [|done..].
    apply IH. intros Hp. apply Hnp. by eapply panicked_step.
Qed.

End GivingUpFacts.

(** X17 (two fallbacks at most).  A worker returns after its first output
    under -1, so whatever the interleaving, when [out] is closed it holds
    at most two such outputs; the outputs and the chunks that no worker
    has received add up to the chunks that Stage 1 has sent, and chunks
    are left over only when both workers have given up: [ReadAll] then
    returns without their records. *)
Theorem workers_give_up `{Externals} (r : Reader) (bufchan : list chunkIn)
    (infos : list chunkInfo) (p : pipe) :
  stage1Streaming r bufchan = Some infos ->
  rtc (step r) (start r infos) p ->
  closed p ->
  (gaveUp (out (sh p)) <= 2)%nat /\
  (length (out (sh p)) + length (chunks (sh p)) = length infos)%nat /\
  (chunks (sh p) <> [] -> gaveUp (out (sh p)) = 2%nat).
Proof.
  intros Hs1 Hrun [Hc1 Hc2].
  assert (Hall : Forall (fun ci => 0 <= ci_sequence ci) infos).
  { apply Forall_forall. intros ci Hci.
    apply list_elem_of_lookup in Hci as [k Hk].
    rewrite (stage1Streaming_loop_sequence r _ _ _ _ _ Hs1 k ci Hk). lia. }
  assert (Hnp : ~ panicked p).
  { intros [Hp|Hp]; congruence. }
  destruct (accounted_steps r infos p Hall Hrun Hnp)
    as (_ & _ & _ & Hcount & Hle & Heq).
  rewrite Hc1, Hc2 in *. cbn in *.
  split; [lia|]. split; [lia|]. intros Hne. by rewrite Heq.
Qed.

Lemma workers_give_up_witness :
  exists infos p,
    stage1Streaming (newReader 3) Scenario.twoFieldBufchan = Some infos /\
    run (newReader 3) [W1; W1; W1; W1; W2; W2; W2; W2]
        (start (newReader 3) infos)
    = Some p /\
    ((gaveUp (out (sh p)) <= 2)%nat /\
     (length (out (sh p)) + length (chunks (sh p)) = length infos)%nat /\
     (chunks (sh p) <> [] -> gaveUp (out (sh p)) = 2%nat)) /\
    length (chunks (sh p)) = 1%nat /\
    ReadAll_collect (out (sh p))
    = ([], Some (csv_ParseError 1 "wrong number of fields")).
Proof.
  eexists _, _. split; [vm_compute; reflexivity|].
  split; [vm_compute; reflexivity|].
  split; [|split; vm_compute; reflexivity].
  eapply (workers_give_up (newReader 3) Scenario.twoFieldBufchan).
  - vm_compute. reflexivity.
  - apply (run_rtc (newReader 3) [W1; W1; W1; W1; W2; W2; W2; W2]).
    vm_compute. reflexivity.
  - split; reflexivity.
Defined.


(** ** [ReadAll]: delimiters that are refused, input without data *)

Lemma plan_invalid (r : Reader) :
  Comma r = Comment r \/ validDelim (Comma r) = false \/
  (Comment r <> 0 /\ validDelim (Comment r) = false) ->
  readAllStreaming_plan r = PlanInvalidDelim.
Proof.
  unfold readAllStreaming_plan. intros [Heq|[Hc|[Hne Hm]]].
  - by rewrite (proj2 (Z.eqb_eq _ _) Heq).
  - by rewrite Hc, orb_true_r.
  - by rewrite Hm, (proj2 (Z.eqb_neq _ _) Hne), orb_true_r.
Qed.

(** X18 (refused delimiters).  On a supported CPU, when [Comma] equals
    [Comment], or [Comma] is no valid delimiter, or [Comment] is set and
    is no valid delimiter, [ReadAll] returns no record and
    [errInvalidDelim], whatever the input. *)
Theorem ReadAll_invalid_delimiter `{Externals} (r : Reader) (src : source) :
  SupportedCPU = true ->
  Comma r = Comment r \/ validDelim (Comma r) = false \/
  (Comment r <> 0 /\ validDelim (Comment r) = false) ->
  ReadAll r src (Returns [] (Some errInvalidDelim)) /\
  forall o, ReadAll r src o -> o = Returns [] (Some errInvalidDelim).
Proof.
  intros Hcpu Hbad. apply plan_invalid in Hbad.
  split.
  - exact (ReadAll_invalidDelim r src Hcpu Hbad).
  - intros o HR. inversion HR; subst; first [reflexivity | congruence].
Qed.

Lemma ReadAll_invalid_delimiter_witness :
  ReadAll {| Comma := 44; Comment := 44; FieldsPerRecord := 0;
             LazyQuotes := false; TrimLeadingSpace := false;
             ReuseRecord := false |}
          [(bytes "a,b", None)] (Returns [] (Some errInvalidDelim)).
Proof.
  refine (proj1 (ReadAll_invalid_delimiter _ _ eq_refl _)).
  left. reflexivity.
Defined.

(** X19 (input without data).  On the SIMD path, when the first read of the
    input fails, with io.EOF or with any other error, or the input is
    used up, [ReadAll] returns (nil, nil); bytes that the failing read
    delivered are not looked at. *)
Theorem ReadAll_empty_input `{Externals} (r : Reader) (src : source) :
  SupportedCPU = true ->
  readAllStreaming_plan r = PlanSimd ->
  match src with
  | [] => True
  | (_, Some _) :: _ => True
  | (_, None) :: _ => False
  end ->
  ReadAll r src (Returns [] None) /\
  forall o, ReadAll r src o -> o = Returns [] None.
Proof.
  intros Hcpu Hplan Hsrc.
  assert (Hp : producer src = Produced []).
  { destruct src as [|[b [e|]] rest]; done. }
  split; [|intros o; by apply ReadAll_no_chunk].
  apply (ReadAll_simd r src [] []
           {| sh := sh (start r []); worker1 := WDone; worker2 := WDone |});
    try done.
  apply (run_rtc r [W1; W2]). reflexivity.
Qed.

Lemma ReadAll_empty_input_witness :
  ReadAll NewReader [] (Returns [] None) /\
  ReadAll NewReader [(bytes "a,b", Some (errorsNew "read failed"))]
          (Returns [] None).
Proof.
  split.
  - exact (proj1 (ReadAll_empty_input NewReader [] eq_refl eq_refl I)).
  - exact (proj1 (ReadAll_empty_input NewReader
                    [(bytes "a,b", Some (errorsNew "read failed"))]
                    eq_refl eq_refl I)).
Defined.


(** ** [Read] and [nextblock] *)

(** Outputs numbered below [sequence] are dropped by the second loop. *)
Lemma nextblock_receive_stale (chan : list recordsOutput) (st : readState) :
  Forall (fun o => ro_sequence o < sequence st) chan ->
  nextblock_receive chan st
  = (Some io_EOF,
     {| records := records st; hash := hash st;
        currrecord := currrecord st; sequence := sequence st;
        readchan := [] |}).
Proof.
  induction 1 as [|o chan Ho _ IH]; [done|].
  cbn [nextblock_receive].
  destruct (Z.gtb_spec (ro_sequence o) (sequence st)); [lia|].
  destruct (Z.eqb_spec (ro_sequence o) (sequence st)); [lia|].
  exact IH.
Qed.

Lemma nextblock_stale (st : readState) :
  hash st !! sequence st = None ->
  Forall (fun o => ro_sequence o < sequence st) (readchan st) ->
  nextblock st
  = Some (Some io_EOF,
          {| records := records st; hash := hash st;
             currrecord := currrecord st; sequence := sequence st;
             readchan := [] |}).
Proof.
  intros Hh Hchan. unfold nextblock. cbn [nextblock_waiting].
  rewrite Hh. cbn. by rewrite nextblock_receive_stale.
Qed.

(** A call of [nextblock] that returns nil has loaded a block that is
    not empty and has reset the cursor. *)
Lemma nextblock_waiting_loaded fuel st st' :
  nextblock_waiting fuel st = Some (inl (None, st')) ->
  currrecord st' = 0 /\ records st' <> [].
Proof.
  revert st. induction fuel as [|fuel IH]; intros st; [done|].
  cbn [nextblock_waiting].
  destruct (hash st !! sequence st) as [rcrds|]; [|done].
  destruct (Z.eqb_spec (Z.of_nat (length (ro_records rcrds))) 0) as [|Hne].
  - apply IH.
  - destruct (ro_err rcrds); [done|]. intros [= <-]. cbn.
    split; [done|]. intros Hnil. rewrite Hnil in Hne. done.
Qed.

Lemma nextblock_receive_loaded chan st st' :
  nextblock_receive chan st = (None, st') ->
  currrecord st' = 0 /\ records st' <> [].
Proof.
  revert st. induction chan as [|o chan IH]; intros st; [done|].
  cbn [nextblock_receive].
  destruct (ro_sequence o >? sequence st); [apply IH|].
  destruct (ro_sequence o =? sequence st); [|apply IH].
  destruct (ro_err o); [done|].
  destruct (Z.eqb_spec (Z.of_nat (length (ro_records o))) 0) as [|Hne];
    [apply IH|].
  intros [= <-]. cbn. split; [done|].
  intros Hnil. rewrite Hnil in Hne. done.
Qed.

Lemma nextblock_loaded st st' :
  nextblock st = Some (None, st') ->
  currrecord st' = 0 /\ records st' <> [].
Proof.
  unfold nextblock.
  destruct (nextblock_waiting _ st) as [[[err st1]|st1]|] eqn:Hw; [| |done].
  - intros [= -> ->]. by eapply nextblock_waiting_loaded.
  - cbn. intros [= Hr]. by eapply nextblock_receive_loaded.
Qed.

(** A stream whose outputs are all numbered below 0 gives [Read]
    nothing to return. *)
Lemma Read_stale (out : list recordsOutput) (st : readState) :
  Forall (fun o => ro_sequence o < 0) out ->
  Read false out st
  = Some ([], Some io_EOF,
          {| records := []; hash := ∅; currrecord := 0; sequence := 0;
             readchan := [] |}).
Proof.
  intros Hstale. unfold Read. cbn -[nextblock].
  rewrite nextblock_stale; [done|done|exact Hstale].
Qed.

(** X20 ([Read] stays inside the block).  Whether it restarts the stream or
    not, a call of [Read] whose cursor is not negative returns; it
    returns either an error and no record, or the record under the
    cursor of a block that is not empty, and moves the cursor by one. *)
Theorem Read_returns (isStreaming : bool) (fresh : list recordsOutput)
    (st : readState) :
  0 <= currrecord st ->
  exists ret err st',
    Read isStreaming fresh st = Some (ret, err, st') /\
    match err with
    | Some _ => ret = []
    | None =>
        0 < currrecord st' <= Z.of_nat (length (records st')) /\
        records st' !! Z.to_nat (currrecord st' - 1) = Some ret
    end.
Proof.
  intros Hcur. unfold Read.
  set (st0 := if isStreaming then st else readStart fresh).
  assert (Hcur0 : 0 <= currrecord st0) by (unfold st0; by destruct isStreaming).
  clearbody st0.
  destruct (Z.geb_spec (currrecord st0) (Z.of_nat (length (records st0))))
    as [Hge|Hlt].
  - destruct (nextblock_total st0) as [[err st1] Hnb]. rewrite Hnb. cbn.
    destruct err as [e|].
    + by exists [], (Some e), st1.
    + destruct (nextblock_loaded _ _ Hnb) as [Hc Hne]. rewrite Hc.
      destruct (records st1) as [|rec recs] eqn:Hrecs; [done|]. cbn.
      eexists rec, None, _. split; [reflexivity|]. cbn.
      split; [lia|done].
  - cbn. unfold Go.index.
    destruct (Z.leb_spec 0 (currrecord st0)); [|lia].
    destruct (lookup_lt_is_Some_2 (records st0) (Z.to_nat (currrecord st0)))
      as [rec Hrec]; [lia|].
    rewrite Hrec. cbn.
    eexists rec, None, _. split; [reflexivity|]. cbn.
    split; [lia|].
    by replace (currrecord st0 + 1 - 1) with (currrecord st0) by lia.
Qed.

Lemma Read_returns_witness :
  exists ret err st',
    Read true [] {| records := [["a"]; ["b"]]; hash := ∅; currrecord := 1;
                    sequence := 1; readchan := [] |}
    = Some (ret, err, st') /\
    match err with
    | Some _ => ret = []
    | None =>
        0 < currrecord st' <= Z.of_nat (length (records st')) /\
        records st' !! Z.to_nat (currrecord st' - 1) = Some ret
    end.
Proof.
  apply (Read_returns true []). simpl. lia.
Defined.

Section ReadStreaming.

Context `{Externals}.
Variable r : Reader.

(** X21 ([Read] beside the SIMD path).  When the reader is configured with
    LazyQuotes, with a delimiter above Latin-1 or with a delimiter that
    is refused, the only output of [readAllStreaming] carries the
    sequence number -1, which [nextblock] passes over: the first call
    of [Read] returns io.EOF, and neither the records of the reference
    parser nor its error nor [errInvalidDelim] are ever returned. *)
Theorem Read_beside_simd_path (src : source) (out : list recordsOutput)
    (st : readState) :
  readAllStreaming_plan r <> PlanSimd ->
  readAllStreaming r src out ->
  Read false out st
  = Some ([], Some io_EOF,
          {| records := []; hash := ∅; currrecord := 0; sequence := 0;
             readchan := [] |}).
Proof.
  intros Hplan Hout. apply Read_stale.
  inversion Hout as [Hp|Hp|bufchan infos p Hp]; subst; [| |done].
  - repeat constructor.
  - constructor; [|constructor]. rewrite fallback_sequence. lia.
Qed.

(** X22 (a restart after the input is used up).  A call of [Read] that
    finds [IsStreaming] cleared starts [readAllStreaming] again; when the
    input has nothing left it returns io.EOF, whatever records were
    still waiting in the current block or in [hash]. *)
Theorem Read_restart_on_used_up_input (out : list recordsOutput)
    (st : readState) :
  readAllStreaming r [] out ->
  Read false out st
  = Some ([], Some io_EOF,
          {| records := []; hash := ∅; currrecord := 0; sequence := 0;
             readchan := [] |}).
Proof.
  intros Hout. apply Read_stale.
  inversion Hout as [Hp|Hp|bufchan infos p Hp Hprod Hs1 Hrun Hclosed]; subst.
  - repeat constructor.
  - constructor; [|constructor]. rewrite fallback_sequence. lia.
  - injection Hprod as <-. injection Hs1 as <-.
    apply idle_workers in Hrun as (_ & -> & _). constructor.
Qed.

End ReadStreaming.

Lemma Read_beside_simd_path_witness :
  Read false
       [fallback {| Comma := 44; Comment := 0; FieldsPerRecord := 0;
                    LazyQuotes := true; TrimLeadingSpace := false;
                    ReuseRecord := false |}
                 [(bytes "a,b" ++ nl, None)]]
       (readStart [])
  = Some ([], Some io_EOF,
          {| records := []; hash := ∅; currrecord := 0; sequence := 0;
             readchan := [] |}) /\
  ro_records
    (fallback {| Comma := 44; Comment := 0; FieldsPerRecord := 0;
                 LazyQuotes := true; TrimLeadingSpace := false;
                 ReuseRecord := false |}
              [(bytes "a,b" ++ nl, None)])
  = [["a"; "b"]].
Proof.
  split; [|reflexivity].
  apply (Read_beside_simd_path
           {| Comma := 44; Comment := 0; FieldsPerRecord := 0;
              LazyQuotes := true; TrimLeadingSpace := false;
              ReuseRecord := false |}
           [(bytes "a,b" ++ nl, None)]); [done|].
  by apply readAllStreaming_fallback.
Defined.

Lemma Read_restart_on_used_up_input_witness :
  Read false []
       {| records := [["a"; "b"]; ["c"; "d"]]; hash := ∅; currrecord := 1;
          sequence := 1; readchan := [] |}
  = Some ([], Some io_EOF,
          {| records := []; hash := ∅; currrecord := 0; sequence := 0;
             readchan := [] |}).
Proof.
  apply (Read_restart_on_used_up_input NewReader).
  apply (readAllStreaming_simd NewReader [] [] []
           {| sh := sh (start NewReader []); worker1 := WDone;
              worker2 := WDone |}); try done.
  apply (run_rtc NewReader [W1; W2]). reflexivity.
Defined.


Section ReadInOrder.

Variable blocks : list (list (list string)).
Hypothesis blocks_not_empty : Forall (fun b => b <> []) blocks.

(** The second loop of [nextblock] finds the next block on the channel. *)
Lemma nextblock_receive_next (k : nat) (b : list (list string))
    (chan : list recordsOutput) (st : readState) :
  blocksWaiting blocks k chan st ->
  hash st !! Z.of_nat k = None ->
  blocks !! k = Some b ->
  exists st',
    nextblock_receive chan st = (None, st') /\
    records st' = b /\ currrecord st' = 0 /\
    blocksWaiting blocks (S k) (readchan st') st'.
Proof.
  intros Hw Hnone Hb.
  assert (Hbne : b <> []).
  { rewrite Forall_forall in blocks_not_empty.
    apply blocks_not_empty. by eapply list_elem_of_lookup_2. }
  revert st Hw Hnone.
  induction chan as [|o chan IH]; intros st (Hseq & Hhash & Hchan & Hcov) Hnone.
  - destruct (Hcov k b Hb) as [Hin|Hin]; [lia| |congruence].
    by apply elem_of_nil in Hin.
  - cbn [nextblock_receive].
    destruct (Hchan o) as (i & recs & Hi & ->); [left|].
    cbn [numbered ro_sequence ro_err ro_records]. rewrite Hseq.
    destruct (Z.gtb_spec (Z.of_nat i) (Z.of_nat k)) as [Hgt|Hle].
    + (* a later block: it waits in [hash] *)
      apply IH; unfold blocksWaiting;
        cbn [records hash currrecord sequence readchan];
        [|by rewrite lookup_insert_ne by lia].
      split; [done|]. split; [|split].
      * intros s o. destruct (decide (s = Z.of_nat i)) as [->|Hne].
        -- rewrite lookup_insert_eq. intros [= <-]. by exists i, recs.
        -- rewrite lookup_insert_ne by done. apply Hhash.
      * intros o Ho. apply Hchan. by right.
      * intros j recs' Hj Hkj.
        destruct (decide (j = i)) as [->|Hne].
        -- right. rewrite lookup_insert_eq. congruence.
        -- rewrite lookup_insert_ne by lia.
           destruct (Hcov j recs' Hj Hkj) as [Hin|Hin]; [|by right].
           apply elem_of_cons in Hin as [Heq|Hin]; [|by left].
           apply numbered_inj in Heq as [? _]. done.
    + destruct (Z.eqb_spec (Z.of_nat i) (Z.of_nat k)) as [Heq|Hne].
      * (* the block that is due *)
        apply Nat2Z.inj in Heq. subst i.
        assert (recs = b) by congruence. subst recs.
        destruct (Z.eqb_spec (Z.of_nat (length b)) 0) as [H0|_].
        { destruct b; [done|simpl in H0; lia]. }
        eexists. split; [reflexivity|].
        unfold blocksWaiting. cbn [records hash currrecord sequence readchan].
        split; [done|]. split; [done|].
        split; [lia|]. split; [|split].
        -- intros s o Hs. apply lookup_delete_Some in Hs as [_ Hs].
           by apply Hhash.
        -- intros o Ho. apply Hchan. by right.
        -- intros j recs' Hj Hkj.
           destruct (Hcov j recs' Hj ltac:(lia)) as [Hin|Hin].
           ++ apply elem_of_cons in Hin as [Heq|Hin]; [|by left].
              apply numbered_inj in Heq as [? _]. lia.
           ++ right. rewrite lookup_delete_ne by lia. done.
      * (* a block already read: dropped *)
        apply IH; [|done]. unfold blocksWaiting.
        split; [done|]. split; [done|]. split.
        -- intros o Ho. apply Hchan. by right.
        -- intros j recs' Hj Hkj.
           destruct (Hcov j recs' Hj Hkj) as [Hin|Hin]; [|by right].
           apply elem_of_cons in Hin as [Heq|Hin]; [|by left].
           apply numbered_inj in Heq as [? _]. lia.
Qed.

(** A call of [nextblock] loads the block that is due. *)
Lemma nextblock_next (k : nat) (b : list (list string)) (st : readState) :
  blocksWaiting blocks k (readchan st) st ->
  blocks !! k = Some b ->
  exists st',
    nextblock st = Some (None, st') /\
    records st' = b /\ currrecord st' = 0 /\
    blocksWaiting blocks (S k) (readchan st') st'.
Proof.
  intros Hw Hb.
  assert (Hbne : b <> []).
  { rewrite Forall_forall in blocks_not_empty.
    apply blocks_not_empty. by eapply list_elem_of_lookup_2. }
  pose proof Hw as (Hseq & Hhash & Hchan & Hcov).
  unfold nextblock. cbn [nextblock_waiting]. rewrite Hseq.
  destruct (hash st !! Z.of_nat k) as [o|] eqn:Hk.
  - destruct (Hhash _ _ Hk) as (i & recs & Hi & Heq & ->).
    apply Nat2Z.inj in Heq. subst i.
    assert (recs = b) by congruence. subst recs.
    cbn [numbered ro_sequence ro_err ro_records].
    destruct (Z.eqb_spec (Z.of_nat (length b)) 0) as [H0|_].
    { destruct b; [done|simpl in H0; lia]. }
    cbn. eexists. split; [reflexivity|].
    unfold blocksWaiting. cbn [records hash currrecord sequence readchan].
    split; [done|]. split; [done|].
    split; [lia|]. split; [done|]. split; [done|].
    intros j recs' Hj Hkj. apply Hcov; [done|lia].
  - cbn. destruct (nextblock_receive_next k b (readchan st) st Hw Hk Hb)
      as (st' & Hr & Hrest).
    exists st'. by rewrite Hr.
Qed.

(** Once every block has been loaded [nextblock] returns io.EOF. *)
Lemma nextblock_end (k : nat) (st : readState) :
  blocksWaiting blocks k (readchan st) st ->
  (length blocks <= k)%nat ->
  exists st', nextblock st = Some (Some io_EOF, st').
Proof.
  intros (Hseq & Hhash & Hchan & _) Hk.
  eexists. apply nextblock_stale.
  - destruct (hash st !! sequence st) as [o|] eqn:Ho; [|done].
    destruct (Hhash _ _ Ho) as (i & recs & Hi & Heq & _).
    apply lookup_lt_Some in Hi. lia.
  - apply Forall_forall. intros o Ho.
    destruct (Hchan o Ho) as (i & recs & Hi & ->).
    apply lookup_lt_Some in Hi. cbn. lia.
Qed.

Lemma ReadLoop_S (calls : nat) (st : readState) :
  ReadLoop (S calls) st
  = '(ret, err, st') ← Read true [] st;
    match err with
    | Some e => Some ([], Some e)
    | None =>
        '(rest, err') ← ReadLoop calls st';
        Some (ret :: rest, err')
    end.
Proof. reflexivity. Qed.

(** Calls of [Read] in a row return what is left of the current block,
    then the blocks that wait, then io.EOF. *)
Lemma ReadLoop_rest (n : nat) : forall (k : nat) (st : readState),
  blocksWaiting blocks k (readchan st) st ->
  0 <= currrecord st <= Z.of_nat (length (records st)) ->
  length (drop (Z.to_nat (currrecord st)) (records st)
          ++ concat (drop k blocks)) = n ->
  ReadLoop (S n) st
  = Some (drop (Z.to_nat (currrecord st)) (records st)
          ++ concat (drop k blocks), Some io_EOF).
Proof.
  induction n as [|n IH]; intros k st Hw Hcur Hlen.
  - (* nothing is left *)
    apply length_zero_iff_nil, app_eq_nil in Hlen as [Hd Hc].
    rewrite Hd, Hc. rewrite ReadLoop_S. cbn [app].
    assert (Hge : (currrecord st >=? Z.of_nat (length (records st))) = true).
    { apply Z.geb_le. apply (f_equal length) in Hd.
      rewrite length_drop in Hd. simpl in Hd. lia. }
    assert (Hk : (length blocks <= k)%nat).
    { destruct (decide (length blocks <= k)%nat) as [|Hlt]; [done|].
      destruct (lookup_lt_is_Some_2 blocks k) as [b Hb]; [lia|].
      rewrite (drop_S _ _ _ Hb) in Hc. cbn in Hc.
      apply app_eq_nil in Hc as [Hbnil _].
      rewrite Forall_forall in blocks_not_empty.
      exfalso. eapply blocks_not_empty; [|exact Hbnil].
      by eapply list_elem_of_lookup_2. }
    destruct (nextblock_end k st Hw Hk) as [st' Hnb].
    unfold Read. cbn -[nextblock]. rewrite Hge, Hnb. done.
  - rewrite ReadLoop_S.
    destruct (Z.geb_spec (currrecord st) (Z.of_nat (length (records st))))
      as [Hge|Hlt].
    + (* the current block is used up: the next one is loaded *)
      assert (Hd : drop (Z.to_nat (currrecord st)) (records st) = []).
      { apply drop_ge. lia. }
      rewrite Hd in *. cbn [app] in *.
      destruct (decide (length blocks <= k)%nat) as [Hk|Hk].
      { rewrite drop_ge in Hlen by done. done. }
      destruct (lookup_lt_is_Some_2 blocks k) as [b Hb]; [lia|].
      destruct (nextblock_next k b st Hw Hb) as (st' & Hnb & Hrec & Hc & Hw').
      assert (Hbne : b <> []).
      { rewrite Forall_forall in blocks_not_empty.
        apply blocks_not_empty. by eapply list_elem_of_lookup_2. }
      destruct b as [|rec b']; [done|].
      unfold Read. cbn -[nextblock ReadLoop].
      rewrite (proj2 (Z.geb_le _ _) Hge), Hnb. cbn -[ReadLoop].
      rewrite Hc, Hrec. cbn -[ReadLoop].
      rewrite (drop_S _ _ _ Hb) in Hlen |- *. cbn [concat app] in Hlen |- *.
      change ((rec :: b') !! Z.to_nat 0) with (Some rec).
      cbn -[ReadLoop].
      erewrite (IH (S k)); [done| | |].
      * exact Hw'.
      * cbn [currrecord records length]. lia.
      * cbn [currrecord records]. change (Z.to_nat (0 + 1)) with 1%nat.
        change (drop 1 (rec :: b')) with b'.
        cbn [length app] in Hlen. lia.
    + (* the record under the cursor *)
      destruct (lookup_lt_is_Some_2 (records st) (Z.to_nat (currrecord st)))
        as [rec Hrec]; [lia|].
      unfold Read. cbn -[nextblock ReadLoop].
      replace (currrecord st >=? Z.of_nat (length (records st))) with false
        by (symmetry; rewrite Z.geb_leb; apply Z.leb_gt; lia).
      cbn -[ReadLoop]. unfold Go.index.
      destruct (Z.leb_spec 0 (currrecord st)); [|lia].
      rewrite Hrec. cbn -[ReadLoop].
      rewrite (drop_S _ _ _ Hrec) in Hlen |- *. cbn [app] in Hlen |- *.
      erewrite (IH k).
      * cbn. by replace (Z.to_nat (currrecord st + 1))
                 with (S (Z.to_nat (currrecord st))) by lia.
      * exact Hw.
      * cbn. apply lookup_lt_Some in Hrec. lia.
      * cbn. simpl in Hlen.
        replace (Z.to_nat (currrecord st + 1))
          with (S (Z.to_nat (currrecord st))) by lia. lia.
Qed.

End ReadInOrder.

(** X23 ([Read] delivers every record in order).  When the outputs on the
    channel are the blocks numbered from 0, each once, in any order of
    arrival, and no block is empty, the calls of [Read] that find
    [IsStreaming] set return the records of block 0, then of block 1,
    and so on, and then io.EOF. *)
Theorem Read_delivers_in_order (blocks : list (list (list string)))
    (out : list recordsOutput) :
  out ≡ₚ imap numbered blocks ->
  Forall (fun b => b <> []) blocks ->
  ReadLoop (S (length (concat blocks))) (readStart out)
  = Some (concat blocks, Some io_EOF).
Proof.
  intros Hperm Hne.
  apply (ReadLoop_rest blocks Hne (length (concat blocks)) 0 (readStart out)).
  - unfold blocksWaiting, readStart.
    cbn [records hash currrecord sequence readchan].
    split; [done|]. split; [done|]. split.
    + intros o Ho. rewrite Hperm in Ho.
      apply elem_of_lookup_imap in Ho as (i & recs & -> & Hi). eauto.
    + intros i recs Hi _. left. rewrite Hperm.
      by apply elem_of_lookup_imap_2.
  - cbn. lia.
  - by rewrite drop_0.
Qed.

Lemma Read_delivers_in_order_witness :
  ReadLoop 4 (readStart [numbered 1 [["c"]; ["d"]]; numbered 0 [["a"]]])
  = Some ([["a"]; ["c"]; ["d"]], Some io_EOF).
Proof.
  apply (Read_delivers_in_order [[["a"]]; [["c"]; ["d"]]]).
  - apply perm_swap.
  - repeat constructor; done.
Defined.

(** X24 (a block left behind).  When the block that is due arrives with no
    record while the next block waits in [hash], [nextblock] reads the
    channel to its end and returns io.EOF although that block has not
    been returned; a further call returns it. *)
Theorem nextblock_EOF_before_waiting_block (st : readState)
    (o : recordsOutput) :
  hash st !! sequence st = None ->
  hash st !! (sequence st + 1) = Some o ->
  ro_records o <> [] -> ro_err o = None ->
  readchan st = [ {| ro_sequence := sequence st; ro_records := [];
                     ro_err := None |} ] ->
  exists st' st'',
    nextblock st = Some (Some io_EOF, st') /\
    hash st' !! sequence st' = Some o /\
    nextblock st' = Some (None, st'') /\
    records st'' = ro_records o.
Proof.
  intros Hnone Ho Hrec Herr Hchan.
  assert (Hlen : (Z.of_nat (length (ro_records o)) =? 0) = false).
  { apply Z.eqb_neq. destruct (ro_records o); [done|simpl; lia]. }
  eexists _, _. split; [|split; [|split]].
  - unfold nextblock. cbn [nextblock_waiting]. rewrite Hnone. cbn.
    rewrite Hchan. cbn.
    destruct (Z.gtb_spec (sequence st) (sequence st)); [lia|].
    rewrite Z.eqb_refl. cbn. reflexivity.
  - cbn. rewrite lookup_delete_ne by lia. exact Ho.
  - unfold nextblock. cbn [nextblock_waiting]. cbn.
    rewrite lookup_delete_ne by lia. rewrite Ho, Hlen, Herr. cbn.
    reflexivity.
  - done.
Qed.

Lemma nextblock_EOF_before_waiting_block_witness :
  exists st' st'',
    nextblock {| records := []; hash := {[ 1 := numbered 1 [["a"]] ]};
                 currrecord := 0; sequence := 0;
                 readchan := [numbered 0 []] |}
    = Some (Some io_EOF, st') /\
    hash st' !! sequence st' = Some (numbered 1 [["a"]]) /\
    nextblock st' = Some (None, st'') /\
    records st'' = [["a"]].
Proof.
  apply (nextblock_EOF_before_waiting_block
           {| records := []; hash := {[ 1 := numbered 1 [["a"]] ]};
              currrecord := 0; sequence := 0;
              readchan := [numbered 0 []] |} (numbered 1 [["a"]]));
    done.
Defined.

